(** * Quantum atomic model viewer: orbital sampling and scene composition

    A shallow embedding of [src/main.js] (the viewer) and theorems about it.

    Conventions of the embedding.
    - JavaScript numbers that only ever hold integers (atomic numbers,
      quantum numbers, electron counts, loop counters) are [Z].
    - JavaScript numbers that hold fractions are modelled by the real
      numbers [R]: [Math.exp], [Math.sin], [Math.cos], [Math.sqrt] are the
      real functions, rounding of binary64 (and of [Float32Array] stores) is
      not modelled.
    - [Math.random()] is a read from a stream of draws [nat -> R] at a
      position counter that the samplers thread through (a small state
      monad); every property quantifies over all streams with values in
      [0,1).
    - three.js ([THREE.Vector3]) is an external library: the few vector
      operations used are written out from its documented behaviour. *)

From Stdlib Require Import String.
From Stdlib Require Import ZArith List Bool Lia.
From Stdlib Require Import Reals Lra Psatz.
From Stdlib Require Import QArith Qreals Qround Qabs.
From Stdlib Require Import DecimalString.
From Stdlib Require Floats.PrimFloat.
Import ListNotations.

Set Implicit Arguments.
Set Warnings "-inexact-float".

(** Decimal literals of [R] are read as quotients of integers; [decimals]
    exposes the quotient for [ring] and [field]. *)
Ltac decimals :=
  unfold Q2R in *; cbn [QArith_base.Qnum QArith_base.Qden] in *.

(* ================================================================== *)
(** * Electron configuration (Aufbau filling) *)
(* ================================================================== *)

Module Aufbau.

Local Open Scope string_scope.
Local Open Scope Z_scope.

(** [SUBSHELL_LABELS = ['s','p','d','f']]; an index out of range gives
    [undefined], which a template literal prints as "undefined". *)
Definition SUBSHELL_LABELS : list string := ["s"; "p"; "d"; "f"].

Definition subshellLetter (l : Z) : string :=
  if l <? 0 then "undefined"
  else nth (Z.to_nat l) SUBSHELL_LABELS "undefined".

(** Decimal printing of an integer, as the template literal [`${s.n}`]. *)
Definition showZ (n : Z) : string :=
  NilZero.string_of_int (Z.to_int n).

(** An entry of [AUFBAU_ORDER]: [{ n, l, label, maxElectrons }]. *)
Record Subshell : Type := mkSubshell {
  n : Z;
  l : Z;
  label : string;
  maxElectrons : Z
}.

(** The [.map(s => ({...s, label, maxElectrons}))] applied to each pair. *)
Definition decorate (s : Z * Z) : Subshell :=
  {| n := fst s;
     l := snd s;
     label := showZ (fst s) ++ subshellLetter (snd s);
     maxElectrons := 2 * (2 * snd s + 1) |}.

Definition AUFBAU_PAIRS : list (Z * Z) :=
  [ (1, 0); (2, 0); (2, 1); (3, 0); (3, 1); (4, 0); (3, 2); (4, 1); (5, 0);
    (4, 2); (5, 1); (6, 0); (4, 3); (5, 2); (6, 1); (7, 0); (5, 3); (6, 2);
    (7, 1) ].

Definition AUFBAU_ORDER : list Subshell := map decorate AUFBAU_PAIRS.

(** An entry of a configuration: [{ ...sub, electrons: e }]. *)
Record Filled : Type := mkFilled {
  sub : Subshell;
  electrons : Z
}.

(** The body of [getElectronConfiguration]: the [for ... of] loop over the
    remaining subshells, with the two mutable locals [remaining] and
    [config] passed along; [break] returns the accumulated [config]. *)
Fixpoint fillLoop (subs : list Subshell) (remaining : Z)
    (config : list Filled) : list Filled :=
  match subs with
  | [] => config
  | s :: rest =>
      if remaining <=? 0 then config
      else
        let e := Z.min remaining (maxElectrons s) in
        fillLoop rest (remaining - e) (config ++ [mkFilled s e])
  end.

Definition getElectronConfiguration (Z0 : Z) : list Filled :=
  fillLoop AUFBAU_ORDER Z0 [].

(** Total of the assigned electrons of a configuration. *)
Definition totalElectrons (c : list Filled) : Z :=
  fold_right Z.add 0 (map electrons c).

Definition totalCapacity (subs : list Subshell) : Z :=
  fold_right Z.add 0 (map maxElectrons subs).

(** The capacity formula 2(2l+1) of a subshell with angular number [l]. *)
Definition capacity (l0 : Z) : Z := 2 * (2 * l0 + 1).

(** The labels of the Aufbau order as the specification lists them. *)
Definition AUFBAU_LABELS : list string :=
  [ "1s"; "2s"; "2p"; "3s"; "3p"; "4s"; "3d"; "4p"; "5s"; "4d"; "5p"; "6s";
    "4f"; "5d"; "6p"; "7s"; "5f"; "6d"; "7p" ].

(** The loop without accumulator, used to reason about [fillLoop]. *)
Fixpoint fill (subs : list Subshell) (remaining : Z) : list Filled :=
  match subs with
  | [] => []
  | s :: rest =>
      if remaining <=? 0 then []
      else
        let e := Z.min remaining (maxElectrons s) in
        mkFilled s e :: fill rest (remaining - e)
  end.

End Aufbau.

(* ================================================================== *)
(** * Heatmap colour ramp *)
(* ================================================================== *)

Module Heatmap.

Local Open Scope R_scope.

(** [THREE.Color(r, g, b)]. *)
Record Color : Type := mkColor { r : R; g : R; b : R }.

(** [densityToHeatmap(t)]: clamp, then four linear segments. *)
Definition densityToHeatmap (t : R) : Color :=
  let t := Rmax 0 (Rmin 1 t) in
  if Rlt_dec t 0.25 then
    let s := t / 0.25 in
    mkColor (0.15 + s * 0.55) (0.0 + s * 0.0) (0.3 + s * 0.4)
  else if Rlt_dec t 0.5 then
    let s := (t - 0.25) / 0.25 in
    mkColor (0.7 + s * 0.3) (0.0 + s * 0.45) (0.7 - s * 0.6)
  else if Rlt_dec t 0.75 then
    let s := (t - 0.5) / 0.25 in
    mkColor 1.0 (0.45 + s * 0.45) (0.1 - s * 0.05)
  else
    let s := (t - 0.75) / 0.25 in
    mkColor 1.0 (0.9 + s * 0.1) (0.05 + s * 0.95).

(** The ramp as the specification words it: five colour stops at
    0, 0.25, 0.5, 0.75 and 1, joined by straight lines. *)
Definition deepPurple : Color := mkColor 0.15 0 0.3.
Definition magenta : Color := mkColor 0.7 0 0.7.
Definition orange : Color := mkColor 1 0.45 0.1.
Definition yellow : Color := mkColor 1 0.9 0.05.
Definition white : Color := mkColor 1 1 1.

Definition lerp (c1 c2 : Color) (s : R) : Color :=
  mkColor (r c1 + s * (r c2 - r c1))
          (g c1 + s * (g c2 - g c1))
          (b c1 + s * (b c2 - b c1)).

Definition clamp01 (t : R) : R := Rmax 0 (Rmin 1 t).

Definition rampSpec (u : R) : Color :=
  if Rlt_dec u 0.25 then lerp deepPurple magenta (u / 0.25)
  else if Rlt_dec u 0.5 then lerp magenta orange ((u - 0.25) / 0.25)
  else if Rlt_dec u 0.75 then lerp orange yellow ((u - 0.5) / 0.25)
  else lerp yellow white ((u - 0.75) / 0.25).

End Heatmap.

(* ================================================================== *)
(** * Heatmap colour ramp on binary64 *)
(* ================================================================== *)

(** [densityToHeatmap] uses only comparisons and the four arithmetic
    operations, which binary64 numbers have as primitives. This second
    embedding of the same function computes on them, with the decimal
    literals rounded to the nearest binary64 number as JavaScript rounds
    them; it serves to check the values the real-number embedding gives at
    the two ends of the ramp. *)
Module HeatmapBinary64.

Import Floats.PrimFloat.
Local Open Scope float_scope.

(** [Math.min(a, b)] and [Math.max(a, b)]: NaN when an argument is NaN,
    and -0 counts as smaller than +0. *)
Definition Math_min (a b : float) : float :=
  if is_nan a || is_nan b then nan
  else if a <? b then a
  else if b <? a then b
  else if get_sign a then a else b.

Definition Math_max (a b : float) : float :=
  if is_nan a || is_nan b then nan
  else if a <? b then b
  else if b <? a then a
  else if get_sign a then b else a.

Definition densityToHeatmap (t : float) : float * float * float :=
  let t := Math_max 0 (Math_min 1 t) in
  if t <? 0.25 then
    let s := t / 0.25 in
    (0.15 + s * 0.55, 0.0 + s * 0.0, 0.3 + s * 0.4)
  else if t <? 0.5 then
    let s := (t - 0.25) / 0.25 in
    (0.7 + s * 0.3, 0.0 + s * 0.45, 0.7 - s * 0.6)
  else if t <? 0.75 then
    let s := (t - 0.5) / 0.25 in
    (1.0, 0.45 + s * 0.45, 0.1 - s * 0.05)
  else
    let s := (t - 0.75) / 0.25 in
    (1.0, 0.9 + s * 0.1, 0.05 + s * 0.95).

End HeatmapBinary64.

(* ================================================================== *)
(** * Random draws *)
(* ================================================================== *)

Module Rand.

(** A computation that may call [Math.random()]: it reads the stream of
    draws from a position and returns the position after its last read. *)
Definition M (A : Type) : Type := (nat -> R) -> nat -> A * nat.

Definition ret {A} (a : A) : M A := fun _ i => (a, i).

Definition bind {A B} (m : M A) (f : A -> M B) : M B :=
  fun d i => let (a, j) := m d i in f a d j.

(** [Math.random()]. *)
Definition random : M R := fun d i => (d i, S i).

(** The streams [Math.random()] can produce: every draw is in [0,1). *)
Definition valid (d : nat -> R) : Prop := forall k, (0 <= d k < 1)%R.

End Rand.

Declare Scope rand_scope.
Delimit Scope rand_scope with rand.
Notation "x <- m ;; k" := (Rand.bind m (fun x => k))
  (at level 61, m at next level, right associativity) : rand_scope.

(* ================================================================== *)
(** * Radial part of the orbital sampler *)
(* ================================================================== *)

Module Radial.

Local Open Scope Z_scope.
Local Open Scope R_scope.

(** [radialScale(n)]. *)
Definition radialScale (n : Z) : R := 2.5 + (IZR n - 1) * 2.0.

(** The [for (let i = 2; i <= p; i++)] loop of [laguerreL] with its two
    mutable locals; [fuel] bounds the number of iterations left. *)
Fixpoint laguerreLoop (fuel : nat) (i p : Z) (k x lPrev2 lPrev1 : R) : R :=
  match fuel with
  | O => lPrev1
  | S fuel' =>
      if (i <=? p)%Z then
        let lCurr :=
          ((2 * IZR i - 1 + k - x) * lPrev1 - (IZR i - 1 + k) * lPrev2)
          / IZR i in
        laguerreLoop fuel' (i + 1) p k x lPrev1 lCurr
      else lPrev1
  end.

(** [laguerreL(p, k, x)]; the loop runs [p - 1] times when [p >= 2]. *)
Definition laguerreL (p : Z) (k x : R) : R :=
  if (p =? 0)%Z then 1
  else if (p =? 1)%Z then 1 + k - x
  else laguerreLoop (Z.to_nat (p - 1)) 2 p k x 1 (1 + k - x).

(** [radialProbability(n, l, rho)]; [Math.pow(rho, l)] has an integer
    exponent. This is the value of the code for l >= 0, and for l < 0 away
    from rho = 0; at rho = 0 with l < 0 JavaScript has
    [Math.pow(0, l) = Infinity] and the product is NaN, a value the real
    numbers do not have ([powerRZ 0 l] is 0). *)
Definition radialProbability (n l : Z) (rho : R) : R :=
  let lagP := (n - l - 1)%Z in
  let lagK := (2 * l + 1)%Z in
  let L := laguerreL lagP (IZR lagK) rho in
  let Rnl := powerRZ rho l * L * exp (- rho / 2) in
  rho * rho * Rnl * Rnl.

(** [{ r, radialDensity }]. *)
Record RadialSample : Type := mkRadialSample {
  r : R;
  radialDensity : R
}.

Definition rhoMaxOf (n : Z) : R := IZR (3 * n + 4).

(** The grid scan of [sampleRadius]: [for (let i = 0; i <= 200; i++)],
    here over the list of the grid indices still to visit. *)
Fixpoint gridScan (n l : Z) (rhoMax : R) (grid : list nat) (probMax : R) : R :=
  match grid with
  | [] => probMax
  | i :: rest =>
      let rho := (INR i / 200) * rhoMax in
      let p := radialProbability n l rho in
      gridScan n l rhoMax rest (if Rgt_dec p probMax then p else probMax)
  end.

(** [probMax] after the scan and the safety margin. *)
Definition probMaxOf (n l : Z) : R :=
  gridScan n l (rhoMaxOf n) (seq 0 201) 0 * 1.05.

(** The rejection loop of [sampleRadius]:
    [for (let attempt = 0; attempt < 500; attempt++)]; [None] when every
    attempt was rejected. *)
Fixpoint rejectionLoop (attempts : nat) (n l : Z) (R0 rhoMax probMax : R)
    : Rand.M (option RadialSample) :=
  match attempts with
  | O => Rand.ret None
  | S attempts' =>
      (u1 <- Rand.random ;;
       let rho := u1 * rhoMax in
       let prob := radialProbability n l rho in
       u2 <- Rand.random ;;
       if Rlt_dec (u2 * probMax) prob then
         let r_scene := rho * R0 / (2 * IZR n) in
         let radialDensity := prob / probMax in
         Rand.ret (Some (mkRadialSample r_scene radialDensity))
       else rejectionLoop attempts' n l R0 rhoMax probMax)%rand
  end.

Definition radialFallback (n : Z) : RadialSample :=
  mkRadialSample (radialScale n * 0.5) 0.3.

(** [sampleRadius(n, l)]. *)
Definition sampleRadius (n l : Z) : Rand.M RadialSample :=
  let R0 := radialScale n in
  let rhoMax := rhoMaxOf n in
  let probMax := probMaxOf n l in
  (res <- rejectionLoop 500 n l R0 rhoMax probMax ;;
   match res with
   | Some s => Rand.ret s
   | None => Rand.ret (radialFallback n)
   end)%rand.

(** The generalized Laguerre polynomial as the specification defines it,
    by the three-term recurrence on the degree:
    L0 = 1, L1 = 1 + k - x, i Li = (2i - 1 + k - x) L(i-1) - (i - 1 + k) L(i-2). *)
Fixpoint laguerreSpec (d : nat) (k x : R) : R :=
  match d with
  | O => 1
  | S d1 =>
      match d1 with
      | O => 1 + k - x
      | S d2 =>
          ((2 * INR d - 1 + k - x) * laguerreSpec d1 k x
           - (INR d - 1 + k) * laguerreSpec d2 k x) / INR d
      end
  end.

End Radial.

(* ================================================================== *)
(** * Vectors *)
(* ================================================================== *)

Module Vec3.

Local Open Scope R_scope.

(** [THREE.Vector3]. *)
Record t : Type := mk { x : R; y : R; z : R }.

Definition zero : t := mk 0 0 0.
Definition add (a b : t) : t := mk (x a + x b) (y a + y b) (z a + z b).
Definition sub (a b : t) : t := mk (x a - x b) (y a - y b) (z a - z b).
Definition multiplyScalar (a : t) (s : R) : t := mk (x a * s) (y a * s) (z a * s).
Definition negate (a : t) : t := mk (- x a) (- y a) (- z a).
Definition dot (a b : t) : R := x a * x b + y a * y b + z a * z b.
Definition cross (a b : t) : t :=
  mk (y a * z b - z a * y b) (z a * x b - x a * z b) (x a * y b - y a * x b).
Definition length (a : t) : R := sqrt (x a * x a + y a * y a + z a * z a).

(** [v.normalize()] is [v.divideScalar(v.length() || 1)]: the zero vector
    stays as it is. *)
Definition normalize (a : t) : t :=
  let len := length a in
  let d := if Req_dec_T len 0 then 1 else len in
  mk (x a / d) (y a / d) (z a / d).

End Vec3.

(* ================================================================== *)
(** * Angular part of the orbital sampler *)
(* ================================================================== *)

Module Sampler.

Import Radial.
Local Open Scope Z_scope.
Local Open Scope R_scope.

(** [{ pos, density }]. *)
Record Sample : Type := mkSample { pos : Vec3.t; density : R }.

(** [Math.pow(a, e)] for a fractional exponent [e > 0]: 0 at base 0, and
    for a negative base JavaScript gives NaN, which fails every comparison
    [u < NaN] exactly as [u < 0] does for a draw [u >= 0]. *)
Definition powFrac (a e : R) : R :=
  if Rle_dec a 0 then 0 else Rpower a e.

(** What an angular rejection loop leaves in [x, y, z, angularVal] when it
    accepts a direction. *)
Record Direction : Type := mkDirection {
  dx : R; dy : R; dz : R; angularVal : R
}.

Definition finish (rs : RadialSample) (d : Direction) : Sample :=
  mkSample (Vec3.mk (dx d * r rs) (dy d * r rs) (dz d * r rs))
           (radialDensity rs * angularVal d).

(** The random sign of the fallbacks: [Math.random() < 0.5 ? 1 : -1]. *)
Definition randomSign : Rand.M R :=
  (u <- Rand.random ;; Rand.ret (if Rlt_dec u 0.5 then 1 else -1))%rand.

(** [sampleSOrbital(n)]. *)
Definition sampleSOrbital (n : Z) : Rand.M Sample :=
  (rs <- sampleRadius n 0 ;;
   u1 <- Rand.random ;;
   let theta := u1 * 2 * PI in
   u2 <- Rand.random ;;
   let cosP := 2 * u2 - 1 in
   let sinP := sqrt (1 - cosP * cosP) in
   Rand.ret (mkSample
     (Vec3.mk (r rs * sinP * cos theta) (r rs * cosP) (r rs * sinP * sin theta))
     (radialDensity rs)))%rand.

(** The angular weight of a p orbital: the squared component along the
    lobe axis, chosen by [ml]. *)
Definition angularP (ml : Z) (x y z : R) : R :=
  if (ml =? 0)%Z then y * y
  else if (ml =? 1)%Z then x * x
  else z * z.

(** The [for (let i = 0; i < 500; i++)] loop of [samplePOrbital];
    [None] stands for [accepted == false] after the loop. *)
Fixpoint angularLoopP (attempts : nat) (ml : Z) : Rand.M (option Direction) :=
  match attempts with
  | O => Rand.ret None
  | S attempts' =>
      (u1 <- Rand.random ;;
       let theta := u1 * 2 * PI in
       u2 <- Rand.random ;;
       let cosP := 2 * u2 - 1 in
       let sinP := sqrt (1 - cosP * cosP) in
       let x := sinP * cos theta in
       let y := cosP in
       let z := sinP * sin theta in
       let angularVal := angularP ml x y z in
       let angularProb := powFrac angularVal 3.5 in
       u3 <- Rand.random ;;
       if Rlt_dec u3 angularProb
       then Rand.ret (Some (mkDirection x y z angularVal))
       else angularLoopP attempts' ml)%rand
  end.

(** The fallback of [samplePOrbital]: a random sign along the lobe axis,
    two small random components across it, normalised. *)
Definition fallbackP (ml : Z) : Rand.M Direction :=
  (sign <- randomSign ;;
   let spread := 0.15 in
   u1 <- Rand.random ;;
   u2 <- Rand.random ;;
   let a := (u1 - 0.5) * spread in
   let c := (u2 - 0.5) * spread in
   let v := if (ml =? 0)%Z then Vec3.mk a sign c
            else if (ml =? 1)%Z then Vec3.mk sign a c
            else Vec3.mk a c sign in
   let len := Vec3.length v in
   Rand.ret (mkDirection (Vec3.x v / len) (Vec3.y v / len) (Vec3.z v / len)
                         0.9))%rand.

(** [samplePOrbital(n, ml)]. *)
Definition samplePOrbital (n ml : Z) : Rand.M Sample :=
  (rs <- sampleRadius n 1 ;;
   res <- angularLoopP 500 ml ;;
   match res with
   | Some d => Rand.ret (finish rs d)
   | None => d <- fallbackP ml ;; Rand.ret (finish rs d)
   end)%rand.

(** The [switch (ml)] of [sampleDOrbital]. *)
Definition angularD (ml : Z) (phi sinT cosT : R) : R :=
  let sin2T := sinT * sinT in
  let cos2T := cosT * cosT in
  match ml with
  | 0%Z => (3 * cos2T - 1) ^ 2 / 4
  | 1%Z => sin2T * cos2T * cos phi * cos phi * 4
  | (-1)%Z => sin2T * cos2T * sin phi * sin phi * 4
  | 2%Z => sin2T * sin2T * sin (2 * phi) * sin (2 * phi)
  | (-2)%Z => sin2T * sin2T * cos (2 * phi) * cos (2 * phi)
  | _ => 1
  end.

Fixpoint angularLoopD (attempts : nat) (ml : Z) : Rand.M (option Direction) :=
  match attempts with
  | O => Rand.ret None
  | S attempts' =>
      (u1 <- Rand.random ;;
       let phi := u1 * 2 * PI in
       u2 <- Rand.random ;;
       let cosT := 2 * u2 - 1 in
       let sinT := sqrt (1 - cosT * cosT) in
       let x := sinT * cos phi in
       let y := cosT in
       let z := sinT * sin phi in
       let angularVal := angularD ml phi sinT cosT in
       let angularProb := Rmin (powFrac angularVal 2.5) 1 in
       u3 <- Rand.random ;;
       if Rlt_dec u3 angularProb
       then Rand.ret (Some (mkDirection x y z angularVal))
       else angularLoopD attempts' ml)%rand
  end.

(** The fallback of [sampleDOrbital]. *)
Definition fallbackD (ml : Z) : Rand.M Direction :=
  (sign <- randomSign ;;
   Rand.ret (if (ml =? 0)%Z then mkDirection 0 sign 0 0.8
             else mkDirection (sign * 0.707) 0 (sign * 0.707) 0.8))%rand.

(** [sampleDOrbital(n, ml)]. *)
Definition sampleDOrbital (n ml : Z) : Rand.M Sample :=
  (rs <- sampleRadius n 2 ;;
   res <- angularLoopD 500 ml ;;
   match res with
   | Some d => Rand.ret (finish rs d)
   | None => d <- fallbackD ml ;; Rand.ret (finish rs d)
   end)%rand.

(** The [switch (ml)] of [sampleFOrbital]; [y] is [cosT]. *)
Definition angularF (ml : Z) (phi sinT cosT : R) : R :=
  let y := cosT in
  let sin2T := sinT * sinT in
  let cos2T := cosT * cosT in
  match ml with
  | 0%Z => (y * (5 * cos2T - 3)) ^ 2 * 0.1
  | 1%Z => sin2T * (5 * cos2T - 1) ^ 2 * cos phi * cos phi * 0.08
  | (-1)%Z => sin2T * (5 * cos2T - 1) ^ 2 * sin phi * sin phi * 0.08
  | 2%Z => sin2T * sin2T * cos2T * sin (2 * phi) * sin (2 * phi) * 2
  | (-2)%Z => sin2T * sin2T * cos2T * cos (2 * phi) * cos (2 * phi) * 2
  | 3%Z => sin2T * sin2T * sin2T * cos (3 * phi) * cos (3 * phi)
  | (-3)%Z => sin2T * sin2T * sin2T * sin (3 * phi) * sin (3 * phi)
  | _ => 0.5
  end.

Fixpoint angularLoopF (attempts : nat) (ml : Z) : Rand.M (option Direction) :=
  match attempts with
  | O => Rand.ret None
  | S attempts' =>
      (u1 <- Rand.random ;;
       let phi := u1 * 2 * PI in
       u2 <- Rand.random ;;
       let cosT := 2 * u2 - 1 in
       let sinT := sqrt (1 - cosT * cosT) in
       let x := sinT * cos phi in
       let y := cosT in
       let z := sinT * sin phi in
       let angularVal := angularF ml phi sinT cosT in
       let angularProb := Rmin (angularVal ^ 2) 1 in
       u3 <- Rand.random ;;
       if Rlt_dec u3 angularProb
       then Rand.ret (Some (mkDirection x y z angularVal))
       else angularLoopF attempts' ml)%rand
  end.

(** The fallback of [sampleFOrbital]. *)
Definition fallbackF : Rand.M Direction :=
  (sign <- randomSign ;; Rand.ret (mkDirection 0 sign 0 0.7))%rand.

(** [sampleFOrbital(n, ml)]. *)
Definition sampleFOrbital (n ml : Z) : Rand.M Sample :=
  (rs <- sampleRadius n 3 ;;
   res <- angularLoopF 500 ml ;;
   match res with
   | Some d => Rand.ret (finish rs d)
   | None => d <- fallbackF ;; Rand.ret (finish rs d)
   end)%rand.

(** The [switch (l)] of [sampleOrbitalPositions]. *)
Definition sampleOne (n l ml : Z) : Rand.M Sample :=
  match l with
  | 0%Z => sampleSOrbital n
  | 1%Z => samplePOrbital n ml
  | 2%Z => sampleDOrbital n ml
  | 3%Z => sampleFOrbital n ml
  | _ => sampleSOrbital n
  end.

(** The [for (let i = 0; i < count; i++)] loop with its [results] array. *)
Fixpoint sampleLoop (iterations : nat) (n l ml : Z) (results : list Sample)
    : Rand.M (list Sample) :=
  match iterations with
  | O => Rand.ret results
  | S iterations' =>
      (sample <- sampleOne n l ml ;;
       sampleLoop iterations' n l ml (results ++ [sample]))%rand
  end.

(** [sampleOrbitalPositions(n, l, ml, count)] for an integer [count]; the
    loop does not run when [count <= 0]. *)
Definition sampleOrbitalPositions (n l ml count : Z) : Rand.M (list Sample) :=
  sampleLoop (Z.to_nat count) n l ml [].

End Sampler.

(* ================================================================== *)
(** * Bond geometry *)
(* ================================================================== *)

Module Bond.

Local Open Scope string_scope.
Local Open Scope Z_scope.
Local Open Scope R_scope.

(** [bondColors[type] || bondColors.covalent]. *)
Definition bondColor (type : string) : Z :=
  if String.eqb type "covalent" then 0x88ccff
  else if String.eqb type "polar" then 0xffaa44
  else if String.eqb type "ionic" then 0xffee44
  else 0x88ccff.

(** The reference vector of the cross product: (0,1,0), or (1,0,0) when
    the bond runs within about 26 degrees of the y axis. *)
Definition perpFor (dir : Vec3.t) (length : R) : Vec3.t :=
  if Rgt_dec (Rabs (Vec3.dot dir (Vec3.mk 0 1 0)) / length) 0.9
  then Vec3.mk 1 0 0
  else Vec3.mk 0 1 0.

(** The [offsets] array of [buildBondCylinder]. *)
Definition bondOffsets (dir : Vec3.t) (length : R) (order : Z)
    : list Vec3.t :=
  if (order =? 1)%Z then [Vec3.mk 0 0 0]
  else if (order =? 2)%Z then
    let perp := perpFor dir length in
    let offset :=
      Vec3.multiplyScalar (Vec3.normalize (Vec3.cross dir perp)) 0.15 in
    [offset; Vec3.negate offset]
  else if (order =? 3)%Z then
    let perp := perpFor dir length in
    let offset :=
      Vec3.multiplyScalar (Vec3.normalize (Vec3.cross dir perp)) 0.2 in
    [Vec3.mk 0 0 0; offset; Vec3.negate offset]
  else [].

(** A mesh of the bond group: the cylinder or the glow around it. Both lie
    along [axis] (the unit bond direction) and are centred at [position]. *)
Record Mesh : Type := mkMesh {
  position : Vec3.t;
  axis : Vec3.t;
  radius : R;
  height : R;
  color : Z;
  isGlow : bool
}.

(** [buildBondCylinder(posA, posB, order, type)]: the children of the
    returned group, a cylinder and its glow per offset. *)
Definition buildBondCylinder (posA posB : Vec3.t) (order : Z) (type : string)
    : list Mesh :=
  let color := bondColor type in
  let dir := Vec3.sub posB posA in
  let length := Vec3.length dir in
  let mid := Vec3.multiplyScalar (Vec3.add posA posB) 0.5 in
  let offsets := bondOffsets dir length order in
  let radius := if (order =? 1)%Z then 0.06 else 0.04 in
  flat_map (fun offset =>
    [ mkMesh (Vec3.add mid offset) (Vec3.normalize dir) radius length
             color false;
      mkMesh (Vec3.add mid offset) (Vec3.normalize dir) (radius * 3) length
             color true ]) offsets.

(** The offsets [buildBondCylinder] computes for two endpoints. *)
Definition offsetsOf (posA posB : Vec3.t) (order : Z) : list Vec3.t :=
  let dir := Vec3.sub posB posA in
  bondOffsets dir (Vec3.length dir) order.

End Bond.

(* ================================================================== *)
(** * Animation driver *)
(* ================================================================== *)

Module Animation.

Local Open Scope R_scope.

(** An entry of [orbitalClouds] as [animate] reads and writes it: the
    position buffer of the geometry, the base positions, the quantum
    numbers, the label and the opacity of the material. *)
Record Cloud : Type := mkCloud {
  positions : list R;
  basePositions : list R;
  n : Z;
  l : Z;
  label : string;
  opacity : R
}.

(** A store into a typed array: out of range it does nothing. *)
Fixpoint store (i : nat) (v : R) (a : list R) : list R :=
  match a, i with
  | [], _ => []
  | _ :: rest, O => v :: rest
  | h :: rest, S i' => h :: store i' v rest
  end.

(** A read [base[i]]. Out of range JavaScript reads [undefined]; the loop
    only does so at an index where the store that uses the value is out of
    range too (the two buffers have one length), so the value read there
    is immaterial and is 0 here. *)
Definition load (a : list R) (i : nat) : R := nth i a 0.

(** The inner loop [for (let i = 0; i < positions.length; i += 3)]. *)
Fixpoint jitterLoop (fuel i : nat) (positions base : list R)
    (elapsed speed breathe : R) : list R :=
  match fuel with
  | O => positions
  | S fuel' =>
      if (i <? List.length positions)%nat then
        let jitterScale := 0.03 * speed in
        let positions :=
          store i (load base i * breathe
                   + sin (elapsed * 2.3 + INR i) * jitterScale) positions in
        let positions :=
          store (i + 1) (load base (i + 1) * breathe
                         + cos (elapsed * 1.7 + INR i) * jitterScale)
                positions in
        let positions :=
          store (i + 2) (load base (i + 2) * breathe
                         + sin (elapsed * 3.1 + INR i + 1) * jitterScale)
                positions in
        jitterLoop fuel' (i + 3) positions base elapsed speed breathe
      else positions
  end.

Definition phaseOf (elapsed speed : R) (c : Cloud) : R :=
  elapsed * speed * 0.8 + IZR (n c) * 1.3 + IZR (l c) * 0.7.

(** The body of [orbitalClouds.forEach(cloud => ...)] in [animate], for
    the elapsed time of the frame, [state.animationSpeed] and
    [state.highlightSubshell]. The loop runs at most once per element of
    the buffer, which is the fuel. *)
Definition animateCloud (elapsed speed : R) (highlightSubshell : string)
    (c : Cloud) : Cloud :=
  let phase := phaseOf elapsed speed c in
  let breathe := 1.0 + sin phase * 0.04 in
  let positions' :=
    jitterLoop (List.length (positions c)) 0 (positions c) (basePositions c)
               elapsed speed breathe in
  let opacityBase :=
    if (String.eqb highlightSubshell "all"
        || String.eqb highlightSubshell (label c))%bool
    then 0.7 else 0.12 in
  mkCloud positions' (basePositions c) (n c) (l c) (label c)
          (opacityBase + sin (phase * 0.5) * 0.08).

(** One frame over all live clouds. *)
Definition animate (elapsed speed : R) (highlightSubshell : string)
    (clouds : list Cloud) : list Cloud :=
  map (animateCloud elapsed speed highlightSubshell) clouds.

(** The jitter wave of a buffer index: x, y and z of a point use three
    different sinusoids, all keyed by the index of the point's x. *)
Definition jitterWave (elapsed : R) (j : nat) : R :=
  match (j mod 3)%nat with
  | 0%nat => sin (elapsed * 2.3 + INR j)
  | 1%nat => cos (elapsed * 1.7 + INR (j - 1))
  | _ => sin (elapsed * 3.1 + INR (j - 2) + 1)
  end.

End Animation.

(* ================================================================== *)
(** * Scene assembler *)
(* ================================================================== *)

Module Scene.

Import Aufbau.
Local Open Scope string_scope.
Local Open Scope Z_scope.

(** ** Element and molecule catalogues *)

Record Element : Type := mkElement {
  z : Z;
  symbol : string;
  name : string;
  neutrons : Z
}.

Definition ELEMENT_LIST : list Element :=
  [
    mkElement 1 "H" "Hydrogen" 0;
    mkElement 2 "He" "Helium" 2;
    mkElement 3 "Li" "Lithium" 4;
    mkElement 4 "Be" "Beryllium" 5;
    mkElement 5 "B" "Boron" 6;
    mkElement 6 "C" "Carbon" 6;
    mkElement 7 "N" "Nitrogen" 7;
    mkElement 8 "O" "Oxygen" 8;
    mkElement 9 "F" "Fluorine" 10;
    mkElement 10 "Ne" "Neon" 10;
    mkElement 11 "Na" "Sodium" 12;
    mkElement 12 "Mg" "Magnesium" 12;
    mkElement 13 "Al" "Aluminum" 14;
    mkElement 14 "Si" "Silicon" 14;
    mkElement 15 "P" "Phosphorus" 16;
    mkElement 16 "S" "Sulfur" 16;
    mkElement 17 "Cl" "Chlorine" 18;
    mkElement 18 "Ar" "Argon" 22;
    mkElement 19 "K" "Potassium" 20;
    mkElement 20 "Ca" "Calcium" 20;
    mkElement 21 "Sc" "Scandium" 24;
    mkElement 22 "Ti" "Titanium" 26;
    mkElement 23 "V" "Vanadium" 28;
    mkElement 24 "Cr" "Chromium" 28;
    mkElement 25 "Mn" "Manganese" 30;
    mkElement 26 "Fe" "Iron" 30;
    mkElement 27 "Co" "Cobalt" 32;
    mkElement 28 "Ni" "Nickel" 31;
    mkElement 29 "Cu" "Copper" 35;
    mkElement 30 "Zn" "Zinc" 35;
    mkElement 31 "Ga" "Gallium" 39;
    mkElement 32 "Ge" "Germanium" 41;
    mkElement 33 "As" "Arsenic" 42;
    mkElement 34 "Se" "Selenium" 45;
    mkElement 35 "Br" "Bromine" 45;
    mkElement 36 "Kr" "Krypton" 48
  ].

(** [ELEMENT_LIST.forEach(el => { ELEMENTS[el.z] = el; })]: the object as
    a lookup; a later assignment to a key overrides an earlier one, and a
    key never assigned reads [undefined] ([None]). *)
Definition ELEMENTS : Z -> option Element :=
  fold_left (fun (m : Z -> option Element) el =>
               fun k => if k =? z el then Some el else m k)
            ELEMENT_LIST (fun _ => None).

Record Atom : Type := mkAtom { atomZ : Z; atomPos : Vec3.t }.

Record BondSpec : Type := mkBond {
  from : nat;
  to : nat;
  order : Z;
  type : string
}.

(** A molecule preset; its display strings [name] and [info] only feed the
    page and are left out. *)
Record Molecule : Type := mkMolecule {
  atoms : list Atom;
  bonds : list BondSpec
}.

Definition at3 (zz : Z) (px py pz : R) : Atom :=
  mkAtom zz (Vec3.mk px py pz).

(** The object literal [MOLECULES] as a lookup of its own keys, the eight
    presets. A key that is no property of the object reads [undefined]
    ([None]); a key inherited from [Object.prototype] (such as
    "constructor") reads a function in JavaScript, which the lookup does
    not model: [PRESETS] below lists the keys it is the code for. *)
Definition MOLECULES (key : string) : option Molecule :=
  (if String.eqb key "H2" then
    Some (mkMolecule [at3 1 (-1.5) 0 0; at3 1 1.5 0 0]
                     [mkBond 0 1 1 "covalent"])
  else if String.eqb key "O2" then
    Some (mkMolecule [at3 8 (-2.0) 0 0; at3 8 2.0 0 0]
                     [mkBond 0 1 2 "covalent"])
  else if String.eqb key "N2" then
    Some (mkMolecule [at3 7 (-1.8) 0 0; at3 7 1.8 0 0]
                     [mkBond 0 1 3 "covalent"])
  else if String.eqb key "H2O" then
    Some (mkMolecule [at3 8 0 0.4 0; at3 1 (-2.0) (-1.2) 0;
                      at3 1 2.0 (-1.2) 0]
                     [mkBond 0 1 1 "polar"; mkBond 0 2 1 "polar"])
  else if String.eqb key "CO2" then
    Some (mkMolecule [at3 6 0 0 0; at3 8 (-3.0) 0 0; at3 8 3.0 0 0]
                     [mkBond 0 1 2 "polar"; mkBond 0 2 2 "polar"])
  else if String.eqb key "NaCl" then
    Some (mkMolecule [at3 11 (-2.5) 0 0; at3 17 2.5 0 0]
                     [mkBond 0 1 1 "ionic"])
  else if String.eqb key "CH4" then
    Some (mkMolecule [at3 6 0 0 0; at3 1 2.2 2.2 2.2;
                      at3 1 2.2 (-2.2) (-2.2); at3 1 (-2.2) 2.2 (-2.2);
                      at3 1 (-2.2) (-2.2) 2.2]
                     [mkBond 0 1 1 "covalent"; mkBond 0 2 1 "covalent";
                      mkBond 0 3 1 "covalent"; mkBond 0 4 1 "covalent"])
  else if String.eqb key "NH3" then
    Some (mkMolecule [at3 7 0 0.8 0; at3 1 (-2.0) (-1.0) 1.15;
                      at3 1 2.0 (-1.0) 1.15; at3 1 0 (-1.0) (-2.3)]
                     [mkBond 0 1 1 "polar"; mkBond 0 2 1 "polar";
                      mkBond 0 3 1 "polar"])
  else None)%R.

(** ** Visualization state and scene *)

(** The global [state] object. *)
Record State : Type := mkState {
  mode : string;
  currentMolecule : string;
  elementZ : Z;
  cloudDensity : R;
  nucleusScale : R;
  showLabels : bool;
  glowEffects : bool;
  showIndividualOrbitals : bool;
  highlightSubshell : string;
  colorScheme : string;
  animationSpeed : R
}.

(** What a [THREE.Points] of the scene was built from. The sampled point
    buffers themselves are the business of [Sampler] and [Animation]; the
    scene keeps the arguments of the call that built them. *)
Inductive Points : Type :=
  | OrbitalPoints (n l ml electronCount : Z) (densityMultiplier : R)
  | BondPoints (posA posB : Vec3.t) (order : Z) (cloudDensity : R).

Inductive LabelText : Type :=
  | NucleusText (protons neutrons : Z)
  | SubshellText (label : string) (electrons : Z)
  | SymbolText (symbol : string).

(** A child of [atomGroup]. *)
Inductive Object : Type :=
  | Nucleus (protons neutrons : Z) (glow : bool) (scale : R)
            (position : Vec3.t)
  | Cloud (points : Points) (opacity : R) (position : Vec3.t)
  | Label (text : LabelText) (position : Vec3.t)
  | BondGroup (meshes : list Bond.Mesh).

(** An entry of [orbitalClouds]. *)
Record CloudEntry : Type := mkCloudEntry {
  points : Points;
  cloudLabel : string;
  cloudN : Z;
  cloudL : Z;
  cloudMl : Z
}.

(** The module-level variables the rebuilds mutate. *)
Record Scene : Type := mkScene {
  children : list Object;
  orbitalClouds : list CloudEntry;
  labelSprites : list Object;
  nucleusGroup : option Object
}.

(** How a call ends: it returns, or it throws with the scene as mutated
    up to the throw. *)
Inductive JsError : Type := TypeError.

Inductive Outcome : Type :=
  | Returned (sc : Scene)
  | Threw (e : JsError) (sc : Scene).

(** ** Pieces shared by the two rebuilds *)

(** The clearing at the head of both rebuilds; [nucleusGroup] is not
    reset. *)
Definition clear (sc : Scene) : Scene :=
  mkScene [] [] [] (nucleusGroup sc).

Definition addChild (o : Object) (sc : Scene) : Scene :=
  mkScene (children sc ++ [o]) (orbitalClouds sc) (labelSprites sc)
          (nucleusGroup sc).

Definition pushCloud (c : CloudEntry) (sc : Scene) : Scene :=
  mkScene (children sc) (orbitalClouds sc ++ [c]) (labelSprites sc)
          (nucleusGroup sc).

Definition pushLabel (o : Object) (sc : Scene) : Scene :=
  mkScene (children sc) (orbitalClouds sc) (labelSprites sc ++ [o])
          (nucleusGroup sc).

Definition setNucleusGroup (o : Object) (sc : Scene) : Scene :=
  mkScene (children sc) (orbitalClouds sc) (labelSprites sc) (Some o).

(** The loop that distributes the electrons of a subshell over its
    orbitals, written three times in the source (twice in [rebuildAtom],
    once in [rebuildMolecule]) with the same head and the same first three
    statements:
    [for (let ml = -sub.l; ml <= sub.l; ml++) {
       const eInThis = Math.min(electronsLeft, 2);
       if (eInThis <= 0) break;
       electronsLeft -= eInThis; ... }].
    It returns the pairs [(ml, eInThis)] of the iterations that go on to
    build a cloud, in order. *)
Fixpoint orbitalLoop (fuel : nat) (ml l0 electronsLeft : Z)
    : list (Z * Z) :=
  match fuel with
  | O => []
  | S fuel' =>
      if ml <=? l0 then
        let eInThis := Z.min electronsLeft 2 in
        if eInThis <=? 0 then []
        else (ml, eInThis)
             :: orbitalLoop fuel' (ml + 1) l0 (electronsLeft - eInThis)
      else []
  end.

(** The loop from [ml = -l]; it has at most [2l + 1] iterations. *)
Definition distributeElectrons (l0 electrons0 : Z) : list (Z * Z) :=
  orbitalLoop (Z.to_nat (2 * l0 + 1)) (- l0) l0 electrons0.

(** The orbital ([ml]) and the electron count a cloud entry was built
    with; a bond cloud has none. *)
Definition assignment (c : CloudEntry) : option (Z * Z) :=
  match points c with
  | OrbitalPoints _ _ ml electronCount _ => Some (ml, electronCount)
  | BondPoints _ _ _ _ => None
  end.

(** [buildNucleus(protons, neutrons, scheme)], placed by the caller. The
    scene records the arguments; the spheres are those of
    [Nucleus.buildNucleus]. The scheme is [ORBITAL_COLORS[state.colorScheme]]:
    for a colour scheme outside [SCHEMES] the program throws a TypeError
    here (it reads [scheme.proton] of [undefined]), which the scene model
    leaves out: it is the code for the states of [buildable]. *)
Definition buildNucleus (st : State) (protons neutrons0 : Z)
    (scale : R) (position : Vec3.t) : Object :=
  Nucleus protons neutrons0 (glowEffects st) scale position.

Definition isHighlighted (st : State) (s : Subshell) : bool :=
  String.eqb (highlightSubshell st) "all"
  || String.eqb (highlightSubshell st) (label s).

(** The body of the orbital loop in [rebuildAtom]: build the cloud, dim
    it when not highlighted, add it, and record it. The scene records the
    arguments of [buildOrbitalCloud]; for a negative rounded particle
    count (a negative [cloudDensity]) the program throws a RangeError
    there, as [OrbitalCloud.buildOrbitalCloud] has it, which the scene
    model leaves out: it is the code for the states of [buildable]. *)
Definition addAtomCloud (st : State) (s : Subshell) (densityMult : R)
    (sc : Scene) (me : Z * Z) : Scene :=
  let (ml, eInThis) := me in
  let pts := OrbitalPoints (n s) (l s) ml eInThis densityMult in
  let opacity := (if isHighlighted st s then 0.85 else 0.15)%R in
  pushCloud (mkCloudEntry pts (label s) (n s) (l s) ml)
            (addChild (Cloud pts opacity Vec3.zero) sc).

(** The body of [config.forEach(sub => ...)] in [rebuildAtom]; its
    unused locals [numOrbitals], [electronsPerOrbital] and [remaining] are
    left out. The two branches of [state.showIndividualOrbitals] hold the
    same loop. *)
Definition placeAtomSubshell (st : State) (sc : Scene) (f : Filled) : Scene :=
  let s := sub f in
  let densityMult :=
    (cloudDensity st * (if isHighlighted st s then 1 else 0.15))%R in
  let sc :=
    if showIndividualOrbitals st then
      fold_left (addAtomCloud st s densityMult)
                (distributeElectrons (l s) (electrons f)) sc
    else
      fold_left (addAtomCloud st s densityMult)
                (distributeElectrons (l s) (electrons f)) sc in
  if showLabels st && isHighlighted st s then
    let R0 := Radial.radialScale (n s) in
    let offsetAngle := (IZR (l s) * 0.8)%R in
    let labelPos :=
      Vec3.mk ((R0 + 1.2) * cos offsetAngle)%R
              (1.0 + IZR (l s) * 0.4)%R
              ((R0 + 1.2) * sin offsetAngle)%R in
    let lbl := Label (SubshellText (label s) (electrons f)) labelPos in
    pushLabel lbl (addChild lbl sc)
  else sc.

(** [rebuildAtom()]. Reading [element.z] when the lookup gave [undefined]
    throws a TypeError; this happens while the arguments of [buildNucleus]
    are evaluated, after the scene was cleared. The updates of the page
    (symbol, name, configuration string, legend, buttons, diagram) are
    left out. *)
Definition rebuildAtom (st : State) (sc : Scene) : Outcome :=
  let sc := clear sc in
  let element := ELEMENTS (elementZ st) in
  let config := getElectronConfiguration (elementZ st) in
  match element with
  | None => Threw TypeError sc
  | Some element =>
      let nucleus :=
        buildNucleus st (z element) (neutrons element) (nucleusScale st)
                     Vec3.zero in
      let sc := addChild nucleus (setNucleusGroup nucleus sc) in
      let sc :=
        if showLabels st then
          let nLabel :=
            Label (NucleusText (z element) (neutrons element))
                  (Vec3.mk 0 (-1.6 * nucleusScale st)%R 0) in
          pushLabel nLabel (addChild nLabel sc)
        else sc in
      Returned (fold_left (placeAtomSubshell st) config sc)
  end.

(** The body of the orbital loop in [rebuildMolecule]; as in
    [addAtomCloud], the RangeError of [buildOrbitalCloud] for a negative
    [cloudDensity] is left out. *)
Definition addMoleculeCloud (st : State) (offset : Vec3.t) (s : Subshell)
    (sc : Scene) (me : Z * Z) : Scene :=
  let (ml, eInThis) := me in
  let densityMult := (cloudDensity st * 0.4)%R in
  let pts := OrbitalPoints (n s) (l s) ml eInThis densityMult in
  pushCloud (mkCloudEntry pts (label s) (n s) (l s) ml)
            (addChild (Cloud pts 0.35%R offset) sc).

(** The body of [config.forEach(sub => ...)] in [rebuildMolecule]. *)
Definition placeMoleculeSubshell (st : State) (offset : Vec3.t)
    (sc : Scene) (f : Filled) : Scene :=
  fold_left (addMoleculeCloud st offset (sub f))
            (distributeElectrons (l (sub f)) (electrons f)) sc.

(** The body of [mol.atoms.forEach((atom, idx) => ...)]: an atom whose
    element is not in the catalogue is skipped ([if (!element) return;]). *)
Definition placeAtom (st : State) (sc : Scene) (atom : Atom) : Scene :=
  match ELEMENTS (atomZ atom) with
  | None => sc
  | Some element =>
      let offset := atomPos atom in
      let nucleus :=
        buildNucleus st (z element) (neutrons element)
                     (nucleusScale st * 0.7)%R offset in
      let sc := addChild nucleus sc in
      let config := getElectronConfiguration (atomZ atom) in
      let sc := fold_left (placeMoleculeSubshell st offset) config sc in
      if showLabels st then
        let lbl := Label (SymbolText (symbol element))
                         (Vec3.add offset (Vec3.mk 0 (-1.5)%R 0)) in
        pushLabel lbl (addChild lbl sc)
      else sc
  end.

(** [buildBondCloud(posA, posB, order)]: [null] for a degenerate bond.
    The scene records the arguments; the particles, and the RangeError of
    a negative particle count, are those of [BondCloud.buildBondCloud]. *)
Definition buildBondCloud (st : State) (posA posB : Vec3.t) (order0 : Z)
    : option Points :=
  if Rlt_dec (Vec3.length (Vec3.sub posB posA)) 0.001 then None
  else Some (BondPoints posA posB order0 (cloudDensity st)).

(** The body of [mol.bonds.forEach(bond => ...)]; an atom index outside
    the preset reads [undefined.pos], a TypeError. *)
Definition placeBond (st : State) (mol : Molecule) (acc : Outcome)
    (bond : BondSpec) : Outcome :=
  match acc with
  | Threw e sc => Threw e sc
  | Returned sc =>
      match nth_error (atoms mol) (from bond),
            nth_error (atoms mol) (to bond) with
      | Some a, Some b =>
          let posA := atomPos a in
          let posB := atomPos b in
          let sc :=
            addChild (BondGroup (Bond.buildBondCylinder posA posB
                                   (order bond) (type bond))) sc in
          match buildBondCloud st posA posB (order bond) with
          | Some pts =>
              Returned (pushCloud (mkCloudEntry pts "bond" 1 0 0)
                          (addChild (Cloud pts 0.8%R Vec3.zero) sc))
          | None => Returned sc
          end
      | _, _ => Threw TypeError sc
      end
  end.

(** [rebuildMolecule()] over a catalogue of presets; the framing of the
    camera and the updates of the page are left out. *)
Definition rebuildMoleculeIn (catalogue : string -> option Molecule)
    (st : State) (sc : Scene) : Outcome :=
  let sc := clear sc in
  match catalogue (currentMolecule st) with
  | None => Returned sc
  | Some mol =>
      let sc := fold_left (placeAtom st) (atoms mol) sc in
      fold_left (placeBond st mol) (bonds mol) (Returned sc)
  end.

Definition rebuildMolecule : State -> Scene -> Outcome :=
  rebuildMoleculeIn MOLECULES.

(** [rebuild()]. *)
Definition rebuild (st : State) (sc : Scene) : Outcome :=
  if String.eqb (mode st) "molecule" then rebuildMolecule st sc
  else rebuildAtom st sc.

(** The element selector: [state.elementZ = parseInt(e.target.value);
    state.highlightSubshell = 'all'; rebuildAtom();] for a value that
    parses to the integer [v]. *)
Definition onElementSelect (v : Z) (st : State) (sc : Scene)
    : State * Outcome :=
  let st := mkState (mode st) (currentMolecule st) v (cloudDensity st)
                    (nucleusScale st) (showLabels st) (glowEffects st)
                    (showIndividualOrbitals st) "all" (colorScheme st)
                    (animationSpeed st) in
  (st, rebuildAtom st sc).

(** The initial [state] of the page. *)
Definition initialState : State :=
  mkState "atom" "H2" 6 1.0%R 1.0%R true true true "all" "quantum" 1.0%R.

Definition emptyScene : Scene := mkScene [] [] [] None.




End Scene.

(* ================================================================== *)
(** * Energy level diagram *)
(* ================================================================== *)

Module EnergyDiagram.

Local Open Scope Z_scope.
Local Open Scope R_scope.

(** [H = Math.max(180, config.length * 28 + 40)], for a configuration of
    [len] subshells. *)
Definition canvasHeight (len : Z) : R := Rmax 180 (IZR len * 28 + 40).

Definition paddingTop : R := 20.
Definition paddingBottom : R := 12.

(** [levelHeight = Math.min(26, usableH / config.length)]. *)
Definition levelHeight (len : Z) : R :=
  let usableH := canvasHeight len - paddingTop - paddingBottom in
  Rmin 26 (usableH / IZR len).

(** The height [y] of the line of the level number [idx]. *)
Definition levelY (len idx : Z) : R :=
  canvasHeight len - paddingBottom - (IZR idx + 1) * levelHeight len.

(** The loop [for (let m = 0; m < numOrbitals; m++)] over the boxes of a
    level: the [eInBox] of every box, in order. Unlike the loops of the
    rebuilds it has no [break]. *)
Fixpoint boxLoop (fuel : nat) (m numOrbitals electronsLeft : Z) : list Z :=
  match fuel with
  | O => []
  | S fuel' =>
      if (m <? numOrbitals)%Z then
        let eInBox := Z.min electronsLeft 2 in
        eInBox :: boxLoop fuel' (m + 1) numOrbitals (electronsLeft - eInBox)
      else []
  end.

(** The boxes of a subshell with angular number [l]. *)
Definition boxes (l electrons : Z) : list Z :=
  let numOrbitals := (2 * l + 1)%Z in
  boxLoop (Z.to_nat numOrbitals) 0 numOrbitals electrons.

(** The arrows of a box: up when [eInBox >= 1], down when [eInBox >= 2]. *)
Definition arrows (eInBox : Z) : bool * bool :=
  ((1 <=? eInBox)%Z, (2 <=? eInBox)%Z).

End EnergyDiagram.

(* ================================================================== *)
(** * Camera framing of a molecule *)
(* ================================================================== *)

Module Camera.

Local Open Scope R_scope.

(** The three running sums [cx, cy, cz] of the first [forEach]. *)
Definition sumPositions (atoms : list Vec3.t) : Vec3.t :=
  fold_left Vec3.add atoms Vec3.zero.

(** [molCenter], the mean of the atom positions. *)
Definition molCenter (atoms : list Vec3.t) : Vec3.t :=
  let s := sumPositions atoms in
  let k := INR (List.length atoms) in
  Vec3.mk (Vec3.x s / k) (Vec3.y s / k) (Vec3.z s / k).

(** The second [forEach]: the largest distance of an atom from the
    centre. *)
Definition maxDistLoop (c : Vec3.t) (atoms : list Vec3.t) (maxDist : R) : R :=
  fold_left (fun m a =>
               let dist := Vec3.length (Vec3.sub a c) in
               if Rgt_dec dist m then dist else m)
            atoms maxDist.

(** [maxDist = Math.max(maxDist + 4, 6)]. *)
Definition maxDistOf (atoms : list Vec3.t) : R :=
  Rmax (maxDistLoop (molCenter atoms) atoms 0 + 4) 6.

(** [camera.position] after the rebuild; [controls.target] is
    [molCenter]. *)
Definition cameraPosition (atoms : list Vec3.t) : Vec3.t :=
  let c := molCenter atoms in
  let camDist := maxDistOf atoms * 2.2 in
  Vec3.mk (Vec3.x c + camDist * 0.7) (Vec3.y c + camDist * 0.5)
          (Vec3.z c + camDist * 0.7).

End Camera.

(* ================================================================== *)
(** * Nucleus cluster *)
(* ================================================================== *)

Module Nucleus.

Local Open Scope Z_scope.
Local Open Scope R_scope.

Inductive Nucleon : Type := proton | neutron.

Definition Nucleon_eq_dec (a b : Nucleon) : {a = b} + {a <> b}.
Proof. decide equality. Defined.

(** [Math.floor]. *)
Definition floor (x : R) : Z := Int_part x.

(** [Math.cbrt]. *)
Definition cbrt (x : R) : R :=
  if Rlt_dec 0 x then Rpower x (/ 3)
  else if Rlt_dec x 0 then - Rpower (- x) (/ 3)
  else 0.

(** [baseRadius = 0.18 * Math.pow(total, 0.2)]. *)
Definition baseRadius (total : Z) : R :=
  0.18 * Sampler.powFrac (IZR total) 0.2.

(** The array after the two [push] loops. *)
Definition initialParticles (protons neutrons : Z) : list Nucleon :=
  repeat proton (Z.to_nat protons) ++ repeat neutron (Z.to_nat neutrons).

(** A store [a[i] = v] within the array. *)
Fixpoint setNth {A : Type} (i : nat) (v : A) (a : list A) : list A :=
  match a, i with
  | [], _ => []
  | _ :: rest, O => v :: rest
  | h :: rest, S i' => h :: setNth i' v rest
  end.

(** [[a[i], a[j]] = [a[j], a[i]]]: both elements are read, then [a[i]]
    and [a[j]] are written, in this order. The shuffle only swaps within
    the array; outside it the model leaves the array as it is. *)
Definition swap (i j : nat) (a : list Nucleon) : list Nucleon :=
  match nth_error a i, nth_error a j with
  | Some x, Some y => setNth j x (setNth i y a)
  | _, _ => a
  end.

(** The shuffle [for (let i = particles.length - 1; i > 0; i--)], entered
    at [i]. *)
Fixpoint shuffleLoop (i : nat) (a : list Nucleon)
    : Rand.M (list Nucleon) :=
  match i with
  | O => Rand.ret a
  | S i' =>
      (u <- Rand.random ;;
       let j := Z.to_nat (floor (u * (INR i + 1))) in
       shuffleLoop i' (swap i j a))%rand
  end.

Definition shuffle (a : list Nucleon) : Rand.M (list Nucleon) :=
  shuffleLoop (List.length a - 1) a.

(** [dist] of the particle number [idx]. *)
Definition nucleonDist (total : Z) (idx : nat) : R :=
  if (idx =? 0)%nat then 0
  else baseRadius total * 0.8 * cbrt ((INR idx + 1) / IZR total) * 1.5.

(** [pos] of the particle number [idx]. *)
Definition nucleonPos (total : Z) (idx : nat) : Vec3.t :=
  let phi := acos (1 - 2 * (INR idx + 0.5) / IZR total) in
  let theta := PI * (1 + sqrt 5) * INR idx in
  let dist := nucleonDist total idx in
  if (idx =? 0)%nat then Vec3.mk 0 0 0
  else Vec3.mk (dist * sin phi * cos theta) (dist * sin phi * sin theta)
               (dist * cos phi).

Inductive MeshKind : Type :=
  | NucleonMesh (type : Nucleon)
  | GlowMesh.

(** A sphere of the group: a nucleon or the glow. *)
Record Mesh : Type := mkMesh {
  kind : MeshKind;
  center : Vec3.t;
  radius : R
}.

(** [particles.forEach((type, idx) => ...)], from the index [idx]. *)
Fixpoint nucleonMeshes (total : Z) (idx : nat) (particles : list Nucleon)
    : list Mesh :=
  match particles with
  | [] => []
  | type :: rest =>
      mkMesh (NucleonMesh type) (nucleonPos total idx)
             (baseRadius total * 0.45)
      :: nucleonMeshes total (S idx) rest
  end.

(** [buildNucleus(protons, neutrons, scheme)]: the children of the group
    it returns; the colours of the scheme are left out. *)
Definition buildNucleus (glowEffects : bool) (protons neutrons : Z)
    : Rand.M (list Mesh) :=
  let total := (protons + neutrons)%Z in
  (particles <- shuffle (initialParticles protons neutrons) ;;
   Rand.ret (nucleonMeshes total 0 particles
             ++ (if glowEffects
                 then [mkMesh GlowMesh (Vec3.mk 0 0 0)
                              (baseRadius total * 2.5)]
                 else [])))%rand.

End Nucleus.

(* ================================================================== *)
(** * Orbital cloud buffers *)
(* ================================================================== *)

Module OrbitalCloud.

Import Sampler.
Local Open Scope Z_scope.
Local Open Scope R_scope.

(** [Math.round]: the nearest integer, halves upwards. *)
Definition round (x : R) : Z := Int_part (x + 0.5).

Definition particleCount (electronCount : Z) (densityMultiplier : R) : Z :=
  round (IZR electronCount * 5000 * densityMultiplier).

(** The loop that finds [maxDensity], and the guard after it. *)
Definition maxDensityOf (samples : list Sample) : R :=
  let m := fold_left (fun m s => if Rgt_dec (density s) m then density s
                                 else m) samples 0 in
  if Req_dec_T m 0 then 1 else m.

(** The three typed arrays. *)
Record Buffers : Type := mkBuffers {
  posArray : list R;
  colArray : list R;
  basePos : list R
}.

Definition coords (s : Sample) : list R :=
  [Vec3.x (pos s); Vec3.y (pos s); Vec3.z (pos s)].

(** [t = Math.pow(sample.density / maxDensity, 0.6)]. *)
Definition heatArg (maxDensity : R) (s : Sample) : R :=
  powFrac (density s / maxDensity) 0.6.

Definition heat (maxDensity : R) (s : Sample) : list R :=
  let heatColor := Heatmap.densityToHeatmap (heatArg maxDensity s) in
  [Heatmap.r heatColor; Heatmap.g heatColor; Heatmap.b heatColor].

(** [buildOrbitalCloud(n, l, ml, electronCount, densityMultiplier)]: the
    buffers of the cloud. A negative [particleCount] makes
    [new Float32Array] throw a RangeError ([None]), after the sampler
    returned without a sample; otherwise the arrays have one triple per
    sample. *)
Definition buildOrbitalCloud (n l ml electronCount : Z)
    (densityMultiplier : R) : Rand.M (option Buffers) :=
  let count := particleCount electronCount densityMultiplier in
  (samples <- sampleOrbitalPositions n l ml count ;;
   if (count <? 0)%Z then Rand.ret None
   else
     let maxDensity := maxDensityOf samples in
     Rand.ret (Some (mkBuffers (flat_map coords samples)
                               (flat_map (heat maxDensity) samples)
                               (flat_map coords samples))))%rand.

(** The entry of [orbitalClouds] the rebuilds make of the buffers, as
    [animate] reads it. *)
Definition cloudOf (bufs : Buffers) (n l : Z) (label : string)
    (opacity : R) : Animation.Cloud :=
  Animation.mkCloud (posArray bufs) (basePos bufs) n l label opacity.

End OrbitalCloud.

(* ================================================================== *)
(** * Bond cloud *)
(* ================================================================== *)

Module BondCloud.

Local Open Scope Z_scope.
Local Open Scope R_scope.

(** The reference vector [up]: (0,1,0), or (1,0,0) for a bond within
    about 26 degrees of the y axis. *)
Definition upFor (dirNorm : Vec3.t) : Vec3.t :=
  if Rgt_dec (Rabs (Vec3.dot dirNorm (Vec3.mk 0 1 0))) 0.9
  then Vec3.mk 1 0 0
  else Vec3.mk 0 1 0.

Definition perp1Of (dirNorm : Vec3.t) : Vec3.t :=
  Vec3.normalize (Vec3.cross dirNorm (upFor dirNorm)).

Definition perp2Of (dirNorm : Vec3.t) : Vec3.t :=
  Vec3.normalize (Vec3.cross dirNorm (perp1Of dirNorm)).

Definition spreadRadius (order : Z) : R := 0.25 + IZR order * 0.08.

(** A particle of the cloud: its position, and the [density] handed to
    the heat map. *)
Record Particle : Type := mkParticle {
  point : Vec3.t;
  density : R
}.

(** The body of the particle loop. The three coordinates are finite
    whenever the endpoints are, so the guard [!isFinite(px) || ...] never
    fires and is left out. *)
Definition particle (mid dirNorm perp1 perp2 : Vec3.t) (length : R)
    (order : Z) : Rand.M Particle :=
  (u1 <- Rand.random ;;
   let t := (u1 - 0.5) * length * 0.7 in
   let spreadRadius := spreadRadius order in
   u2 <- Rand.random ;;
   let angle := u2 * PI * 2 in
   u3 <- Rand.random ;;
   let safeRand := Rmax 0.000001 u3 in
   let r := Rmin (spreadRadius * sqrt (-2 * ln safeRand))
                 (spreadRadius * 3) in
   let px := Vec3.x mid + Vec3.x dirNorm * t
             + Vec3.x perp1 * r * cos angle
             + Vec3.x perp2 * r * sin angle in
   let py := Vec3.y mid + Vec3.y dirNorm * t
             + Vec3.y perp1 * r * cos angle
             + Vec3.y perp2 * r * sin angle in
   let pz := Vec3.z mid + Vec3.z dirNorm * t
             + Vec3.z perp1 * r * cos angle
             + Vec3.z perp2 * r * sin angle in
   let distFromCenter := Rabs t / (length * 0.35) in
   let density := Sampler.powFrac (Rmax 0 (1 - distFromCenter)) 0.8 in
   Rand.ret (mkParticle (Vec3.mk px py pz) density))%rand.

(** The loop [for (let i = 0; i < particleCount; i++)]. *)
Fixpoint particleLoop (iterations : nat)
    (mid dirNorm perp1 perp2 : Vec3.t) (length : R) (order : Z)
    (particles : list Particle) : Rand.M (list Particle) :=
  match iterations with
  | O => Rand.ret particles
  | S iterations' =>
      (p <- particle mid dirNorm perp1 perp2 length order ;;
       particleLoop iterations' mid dirNorm perp1 perp2 length order
                    (particles ++ [p]))%rand
  end.

(** How [buildBondCloud] ends: [null] for a degenerate bond, a
    RangeError of [new Float32Array] for a negative particle count, or
    the particles of the cloud. *)
Inductive Result : Type :=
  | Null
  | RangeError
  | Built (particles : list Particle).

(** [buildBondCloud(posA, posB, order)] with [state.cloudDensity]. *)
Definition buildBondCloud (cloudDensity : R) (posA posB : Vec3.t)
    (order : Z) : Rand.M Result :=
  let dir := Vec3.sub posB posA in
  let length := Vec3.length dir in
  if Rlt_dec length 0.001 then Rand.ret Null
  else
    let mid := Vec3.multiplyScalar (Vec3.add posA posB) 0.5 in
    let dirNorm := Vec3.normalize dir in
    let perp1 := perp1Of dirNorm in
    let perp2 := perp2Of dirNorm in
    let particleCount :=
      OrbitalCloud.round (IZR order * 2000 * cloudDensity) in
    if (particleCount <? 0)%Z then Rand.ret RangeError
    else
      (ps <- particleLoop (Z.to_nat particleCount) mid dirNorm perp1 perp2
                          length order [] ;;
       Rand.ret (Built ps))%rand.

End BondCloud.

(* ================================================================== *)
(** * Theorems: electron configuration *)
(* ================================================================== *)

Module AufbauFacts.
Import Aufbau.
Local Open Scope Z_scope.

Lemma fillLoop_fill subs : forall remaining config,
  fillLoop subs remaining config = config ++ fill subs remaining.
Proof.
  induction subs as [|s rest IH]; intros remaining config; simpl.
  - now rewrite app_nil_r.
  - destruct (remaining <=? 0).
    + now rewrite app_nil_r.
    + rewrite IH, <- app_assoc. reflexivity.
Qed.

Lemma getElectronConfiguration_fill Z0 :
  getElectronConfiguration Z0 = fill AUFBAU_ORDER Z0.
Proof. unfold getElectronConfiguration. now rewrite fillLoop_fill. Qed.

Lemma AUFBAU_ORDER_labels : map label AUFBAU_ORDER = AUFBAU_LABELS.
Proof. reflexivity. Qed.

Lemma AUFBAU_ORDER_capacity :
  Forall (fun s => maxElectrons s = capacity (l s)) AUFBAU_ORDER.
Proof. repeat constructor. Qed.

Lemma AUFBAU_totalCapacity : totalCapacity AUFBAU_ORDER = 118.
Proof. reflexivity. Qed.

(** The subshells of a filled list are a prefix of the list filled. *)
Lemma fill_prefix subs : forall remaining,
  map sub (fill subs remaining)
  = firstn (length (fill subs remaining)) subs.
Proof.
  induction subs as [|s rest IH]; intros remaining; simpl; [reflexivity|].
  destruct (remaining <=? 0); simpl; [reflexivity|].
  now rewrite IH.
Qed.

(** No entry exceeds the capacity of its subshell, and none is empty. *)
Lemma fill_bounds subs : forall remaining,
  Forall (fun f => 0 < electrons f <= maxElectrons (sub f))
         (fill subs remaining) \/
  exists s, In s subs /\ maxElectrons s <= 0.
Proof.
  induction subs as [|s rest IH]; intros remaining; simpl.
  - left. constructor.
  - destruct (Z.leb_spec remaining 0) as [Hle|Hgt].
    + left. constructor.
    + destruct (Z_le_gt_dec (maxElectrons s) 0) as [Hcap|Hcap].
      * right. exists s. auto.
      * destruct (IH (remaining - Z.min remaining (maxElectrons s)))
          as [Hall|[s' [Hin Hs']]].
        -- left. constructor; [simpl; lia | exact Hall].
        -- right. exists s'. auto.
Qed.

(** The electrons assigned add up to the request, capped by the capacity
    of the subshells on offer. *)
Lemma fill_total subs : forall remaining,
  Forall (fun s => 0 <= maxElectrons s) subs ->
  0 <= remaining ->
  totalElectrons (fill subs remaining)
  = Z.min remaining (totalCapacity subs).
Proof.
  unfold totalElectrons, totalCapacity.
  induction subs as [|s rest IH]; intros remaining Hcap Hrem; simpl.
  - lia.
  - inversion Hcap as [|? ? Hs Hrest]; subst.
    assert (Hpos : 0 <= fold_right Z.add 0 (map maxElectrons rest)).
    { clear -Hrest. induction Hrest; simpl; lia. }
    destruct (Z.leb_spec remaining 0) as [Hle|Hgt]; simpl.
    + lia.
    + rewrite IH by (auto; lia). lia.
Qed.

(** Greedy filling, entry by entry: the [i]-th entry takes the minimum of
    what is left after the entries before it and of its capacity. *)
Lemma fill_greedy subs : forall remaining i f,
  nth_error (fill subs remaining) i = Some f ->
  electrons f
  = Z.min (remaining - totalElectrons (firstn i (fill subs remaining)))
          (maxElectrons (sub f)).
Proof.
  unfold totalElectrons.
  induction subs as [|s rest IH]; intros remaining i f; simpl.
  - destruct i; discriminate.
  - destruct (remaining <=? 0); [destruct i; discriminate|].
    destruct i as [|i]; simpl.
    + intros [= <-]. simpl. f_equal. lia.
    + intros H. rewrite (IH _ _ _ H). f_equal. lia.
Qed.

Lemma fill_nonpositive subs remaining :
  remaining <= 0 -> fill subs remaining = [].
Proof.
  intros H. destruct subs; simpl; [reflexivity|].
  destruct (Z.leb_spec remaining 0); [reflexivity|lia].
Qed.

Lemma AUFBAU_ORDER_caps_nonneg :
  Forall (fun s => 0 <= maxElectrons s) AUFBAU_ORDER.
Proof. repeat constructor; simpl; lia. Qed.

Lemma AUFBAU_ORDER_caps_pos s : In s AUFBAU_ORDER -> 0 < maxElectrons s.
Proof.
  intros H. assert (Hall : Forall (fun s => 0 < maxElectrons s) AUFBAU_ORDER)
    by (repeat constructor; simpl; lia).
  rewrite Forall_forall in Hall. auto.
Qed.

Lemma fill_sub_in subs : forall remaining f,
  In f (fill subs remaining) -> In (sub f) subs.
Proof.
  induction subs as [|s rest IH]; intros remaining f; simpl; [tauto|].
  destruct (remaining <=? 0); simpl; [tauto|].
  intros [<-|H]; [now left | right; eauto].
Qed.

(** C1. For every atomic number Z with 1 <= Z <= 36 the configuration
    lists subshells in the Aufbau order 1s,2s,2p,3s,3p,4s,3d,4p,5s,4d,5p,
    6s,4f,5d,6p,7s,5f,6d,7p (a prefix of it), each entry holds
    min(remaining, 2(2l+1)) electrons where remaining is Z minus the
    electrons of the entries before it, the assigned electrons add up to Z,
    and no entry exceeds its capacity 2(2l+1). *)
Theorem getElectronConfiguration_aufbau (Z0 : Z) :
  1 <= Z0 <= 36 ->
  let c := getElectronConfiguration Z0 in
  map sub c = firstn (length c) AUFBAU_ORDER /\
  map (fun f => label (sub f)) c = firstn (length c) AUFBAU_LABELS /\
  (forall i f, nth_error c i = Some f ->
     electrons f
     = Z.min (Z0 - totalElectrons (firstn i c)) (capacity (l (sub f)))) /\
  totalElectrons c = Z0 /\
  Forall (fun f => electrons f <= capacity (l (sub f))) c.
Proof.
  intros HZ c. subst c. rewrite getElectronConfiguration_fill.
  assert (Hcapf : forall f, In f (fill AUFBAU_ORDER Z0) ->
                    maxElectrons (sub f) = capacity (l (sub f))).
  { intros f Hf. apply fill_sub_in in Hf.
    pose proof AUFBAU_ORDER_capacity as Hall.
    rewrite Forall_forall in Hall. auto. }
  split; [apply fill_prefix|].
  split.
  { rewrite <- AUFBAU_ORDER_labels, firstn_map.
    rewrite <- (fill_prefix AUFBAU_ORDER Z0). now rewrite map_map. }
  split.
  { intros i f Hi. rewrite (fill_greedy _ _ _ Hi).
    rewrite Hcapf; [reflexivity|]. eapply nth_error_In; eauto. }
  split.
  { rewrite fill_total by (apply AUFBAU_ORDER_caps_nonneg || lia).
    rewrite AUFBAU_totalCapacity. lia. }
  destruct (fill_bounds AUFBAU_ORDER Z0) as [Hall|[s [Hin Hs]]].
  - rewrite Forall_forall in *. intros f Hf.
    rewrite <- Hcapf by exact Hf. apply Hall in Hf. lia.
  - apply AUFBAU_ORDER_caps_pos in Hin. lia.
Qed.

(** Carbon: 1s2 2s2 2p2. *)
Lemma getElectronConfiguration_aufbau_witness :
  1 <= 6 <= 36 /\
  totalElectrons (getElectronConfiguration 6) = 6.
Proof.
  split; [lia|].
  apply (getElectronConfiguration_aufbau (Z0 := 6)). lia.
Defined.

(** Carbon, as the page shows it: 1s2 2s2 2p2. *)
Example getElectronConfiguration_carbon :
  map (fun f => (label (sub f), electrons f)) (getElectronConfiguration 6)
  = [("1s"%string, 2); ("2s"%string, 2); ("2p"%string, 2)].
Proof. reflexivity. Qed.

(** Krypton fills 1s to 4p; element 119 would lose an electron. *)
Example getElectronConfiguration_krypton :
  map (fun f => label (sub f)) (getElectronConfiguration 36)
  = ["1s"; "2s"; "2p"; "3s"; "3p"; "4s"; "3d"; "4p"]%string
  /\ totalElectrons (getElectronConfiguration 119) = 118.
Proof. split; reflexivity. Qed.

(** C10. [getElectronConfiguration] is total on the integers: for Z <= 0
    the configuration is empty, and for Z > 0 the assigned electrons add up
    to min(Z, 118), 118 being the total capacity of the 19 subshells of
    the Aufbau table; electrons beyond 118 are dropped. *)
Theorem getElectronConfiguration_total (Z0 : Z) :
  length AUFBAU_ORDER = 19%nat /\
  totalCapacity AUFBAU_ORDER = 118 /\
  (Z0 <= 0 -> getElectronConfiguration Z0 = []) /\
  (0 < Z0 -> totalElectrons (getElectronConfiguration Z0) = Z.min Z0 118).
Proof.
  split; [reflexivity|]. split; [reflexivity|].
  rewrite getElectronConfiguration_fill. split.
  - apply fill_nonpositive.
  - intros H. rewrite fill_total by (apply AUFBAU_ORDER_caps_nonneg || lia).
    now rewrite AUFBAU_totalCapacity.
Qed.

End AufbauFacts.

(* ================================================================== *)
(** * Theorems: heatmap colour ramp *)
(* ================================================================== *)

Module HeatmapFacts.
Import Heatmap.
Local Open Scope R_scope.

Lemma clamp01_range t : 0 <= clamp01 t <= 1.
Proof.
  unfold clamp01, Rmax, Rmin.
  repeat (destruct (Rle_dec _ _)); lra.
Qed.

Lemma clamp01_inside t : 0 <= t <= 1 -> clamp01 t = t.
Proof.
  intros H. unfold clamp01, Rmax, Rmin.
  repeat (destruct (Rle_dec _ _)); lra.
Qed.

Lemma clamp01_below t : t < 0 -> clamp01 t = 0.
Proof.
  intros H. unfold clamp01, Rmax, Rmin.
  repeat (destruct (Rle_dec _ _)); lra.
Qed.

Lemma clamp01_above t : 1 < t -> clamp01 t = 1.
Proof.
  intros H. unfold clamp01, Rmax, Rmin.
  repeat (destruct (Rle_dec _ _)); lra.
Qed.

Lemma color_eq r1 g1 b1 r2 g2 b2 :
  r1 = r2 -> g1 = g2 -> b1 = b2 -> mkColor r1 g1 b1 = mkColor r2 g2 b2.
Proof. now intros -> -> ->. Qed.

(** The code is the clamp followed by the ramp through the five stops. *)
Lemma densityToHeatmap_rampSpec t :
  densityToHeatmap t = rampSpec (clamp01 t).
Proof.
  unfold densityToHeatmap, rampSpec. fold (clamp01 t).
  unfold lerp, deepPurple, magenta, orange, yellow, white; simpl.
  repeat (destruct (Rlt_dec _ _)); apply color_eq; lra.
Qed.

Lemma rampSpec_stops :
  rampSpec 0 = deepPurple /\ rampSpec 0.25 = magenta /\
  rampSpec 0.5 = orange /\ rampSpec 0.75 = yellow /\ rampSpec 1 = white.
Proof.
  unfold rampSpec, lerp, deepPurple, magenta, orange, yellow, white; simpl.
  repeat split;
    repeat (destruct (Rlt_dec _ _); try lra); apply color_eq; lra.
Qed.

(** C5. [densityToHeatmap] is a function of its argument alone; it clamps
    the argument to [0,1] and maps the clamped value through the ramp of
    four linear segments with breakpoints 0.25, 0.5 and 0.75 (deep purple
    to magenta, magenta to orange, orange to yellow, yellow to white). At
    0 it is exactly deep purple (0.15, 0, 0.3), at 1 exactly white
    (1, 1, 1), and outside [0,1] it equals its value at the nearer
    endpoint. *)
Theorem densityToHeatmap_clamped_ramp (t : R) :
  densityToHeatmap t = rampSpec (clamp01 t) /\
  0 <= clamp01 t <= 1 /\
  (0 <= t <= 1 -> clamp01 t = t) /\
  (rampSpec 0.25 = magenta /\ rampSpec 0.5 = orange /\
   rampSpec 0.75 = yellow) /\
  densityToHeatmap 0 = mkColor 0.15 0 0.3 /\
  densityToHeatmap 1 = mkColor 1 1 1 /\
  (t < 0 -> densityToHeatmap t = densityToHeatmap 0) /\
  (1 < t -> densityToHeatmap t = densityToHeatmap 1).
Proof.
  pose proof rampSpec_stops as [H0 [H1 [H2 [H3 H4]]]].
  split; [apply densityToHeatmap_rampSpec|].
  split; [apply clamp01_range|].
  split; [apply clamp01_inside|].
  split; [auto|].
  split.
  { rewrite densityToHeatmap_rampSpec, clamp01_inside by lra. exact H0. }
  split.
  { rewrite densityToHeatmap_rampSpec, clamp01_inside by lra. exact H4. }
  split; intros Ht; rewrite !densityToHeatmap_rampSpec.
  - rewrite (clamp01_below Ht), clamp01_inside by lra. reflexivity.
  - rewrite (clamp01_above Ht), clamp01_inside by lra. reflexivity.
Qed.

End HeatmapFacts.

(* ================================================================== *)
(** * Theorems: heatmap colour ramp on binary64 *)
(* ================================================================== *)

Module HeatmapBinary64Facts.
Import Floats.PrimFloat HeatmapBinary64.
Local Open Scope float_scope.

(** On binary64 numbers the two end stops come out exactly, without
    rounding error, and so do the values below 0 and above 1. *)
Example densityToHeatmap_binary64 :
  densityToHeatmap 0 = (0.15, 0, 0.3) /\
  densityToHeatmap 1 = (1, 1, 1) /\
  densityToHeatmap (-3) = (0.15, 0, 0.3) /\
  densityToHeatmap neg_infinity = (0.15, 0, 0.3) /\
  densityToHeatmap 1.5 = (1, 1, 1) /\
  densityToHeatmap infinity = (1, 1, 1).
Proof. repeat split. Qed.

End HeatmapBinary64Facts.

(* ================================================================== *)
(** * Theorems: radial probability *)
(* ================================================================== *)

Module RadialFacts.
Import Radial.
Local Open Scope Z_scope.
Local Open Scope R_scope.

(** The loop of [laguerreL], entered at index [d + 2] with the values of
    degrees [d] and [d + 1] in its two locals, leaves the value of degree
    [p] when it has the [p - d - 1] iterations it needs. *)
Lemma laguerreLoop_spec k x : forall (fuel d p : nat),
  (S d + fuel = p)%nat ->
  laguerreLoop fuel (Z.of_nat (S (S d))) (Z.of_nat p) k x
               (laguerreSpec d k x) (laguerreSpec (S d) k x)
  = laguerreSpec p k x.
Proof.
  induction fuel as [|fuel IH]; intros d p Hp.
  - simpl. replace p with (S d) by lia. reflexivity.
  - cbn [laguerreLoop].
    destruct (Z.leb_spec (Z.of_nat (S (S d))) (Z.of_nat p)) as [_|Hlt];
      [|lia].
    replace (Z.of_nat (S (S d)) + 1)%Z with (Z.of_nat (S (S (S d))))
      by lia.
    rewrite <- (IH (S d) p) by lia.
    f_equal. rewrite <- INR_IZR_INZ. reflexivity.
Qed.

(** [laguerreL] computes the polynomial of the recurrence. *)
Lemma laguerreL_spec (p : Z) k x :
  (0 <= p)%Z -> laguerreL p k x = laguerreSpec (Z.to_nat p) k x.
Proof.
  intros Hp. unfold laguerreL.
  destruct (Z.eqb_spec p 0) as [->|H0]; [reflexivity|].
  destruct (Z.eqb_spec p 1) as [->|H1]; [reflexivity|].
  pose proof (@laguerreLoop_spec k x (Z.to_nat (p - 1)) 0 (Z.to_nat p)) as H.
  rewrite Z2Nat.id in H by lia.
  change (Z.of_nat 2) with 2%Z in H. apply H. lia.
Qed.

(** More fuel than the loop needs changes nothing: the guard [i <= p]
    ends it. *)
Lemma laguerreLoop_guard fuel i p k x a b :
  (p < i)%Z -> laguerreLoop fuel i p k x a b = b.
Proof.
  intros H. destruct fuel; simpl; [reflexivity|].
  destruct (Z.leb_spec i p); [lia|reflexivity].
Qed.

Lemma laguerreSpec_recurrence (i : nat) k x :
  (2 <= i)%nat ->
  INR i * laguerreSpec i k x
  = (2 * INR i - 1 + k - x) * laguerreSpec (i - 1) k x
    - (INR i - 1 + k) * laguerreSpec (i - 2) k x.
Proof.
  intros Hi. destruct i as [|[|d]]; try lia.
  replace (S (S d) - 1)%nat with (S d) by lia.
  replace (S (S d) - 2)%nat with d by lia.
  assert (Hnz : INR (S (S d)) <> 0) by (apply not_0_INR; lia).
  cbn [laguerreSpec]. field. exact Hnz.
Qed.

(** The polynomial of degree 2 and order 1, as a check of the recurrence
    against the closed form x^2/2 - 3x + 3. *)
Example laguerreL_2_1 x : laguerreL 2 1 x = x * x / 2 - 3 * x + 3.
Proof. unfold laguerreL; simpl. field. Qed.

Lemma exp_half_sq rho : exp (- rho / 2) * exp (- rho / 2) = exp (- rho).
Proof. rewrite <- exp_plus. f_equal. lra. Qed.

(** C2. For n >= 1, 0 <= l <= n - 1 and rho >= 0,
    [radialProbability n l rho] is rho^2 (rho^l L(rho))^2 e^(-rho), where L
    is the generalized Laguerre polynomial of degree n - l - 1 and order
    2l + 1 given by the three-term recurrence L0 = 1, L1 = 1 + k - x,
    i Li = (2i - 1 + k - x) L(i-1) - (i - 1 + k) L(i-2). *)
Theorem radialProbability_formula (n l : Z) (rho : R) :
  (1 <= n)%Z -> (0 <= l <= n - 1)%Z -> 0 <= rho ->
  let L := laguerreSpec (Z.to_nat (n - l - 1)) (IZR (2 * l + 1)) in
  radialProbability n l rho
  = rho ^ 2 * (rho ^ Z.to_nat l * L rho) ^ 2 * exp (- rho)
  /\ (forall k x, laguerreSpec 0 k x = 1)
  /\ (forall k x, laguerreSpec 1 k x = 1 + k - x)
  /\ (forall (i : nat) k x, (2 <= i)%nat ->
        INR i * laguerreSpec i k x
        = (2 * INR i - 1 + k - x) * laguerreSpec (i - 1) k x
          - (INR i - 1 + k) * laguerreSpec (i - 2) k x).
Proof.
  intros Hn Hl Hrho L. split; [|split; [|split]].
  - unfold radialProbability. rewrite laguerreL_spec by lia. fold L.
    assert (Hpow : powerRZ rho l = rho ^ Z.to_nat l).
    { rewrite pow_powerRZ, Z2Nat.id by lia. reflexivity. }
    rewrite Hpow.
    transitivity (rho ^ 2 * (rho ^ Z.to_nat l * L rho) ^ 2
                  * (exp (- rho / 2) * exp (- rho / 2))).
    + generalize (exp (- rho / 2)) (rho ^ Z.to_nat l) (L rho).
      intros e q v. ring.
    + now rewrite exp_half_sq.
  - reflexivity.
  - reflexivity.
  - intros i k x Hi. now apply laguerreSpec_recurrence.
Qed.

(** The 2p density of hydrogen: n = 2, l = 1. *)
Lemma radialProbability_formula_witness :
  radialProbability 2 1 4
  = 4 ^ 2 * (4 ^ Z.to_nat 1 * laguerreSpec (Z.to_nat (2 - 1 - 1)) (IZR (2 * 1 + 1)) 4) ^ 2
    * exp (- 4).
Proof.
  apply (radialProbability_formula (n := 2) (l := 1) (rho := 4)); lia || lra.
Defined.

End RadialFacts.

(* ================================================================== *)
(** * Theorems: bond geometry *)
(* ================================================================== *)

Module BondFacts.
Import Bond.
Local Open Scope Z_scope.
Local Open Scope R_scope.

Lemma dot_cross_self (a b : Vec3.t) : Vec3.dot (Vec3.cross a b) a = 0.
Proof. unfold Vec3.dot, Vec3.cross; simpl. ring. Qed.

Lemma dot_multiplyScalar (a b : Vec3.t) s :
  Vec3.dot (Vec3.multiplyScalar a s) b = s * Vec3.dot a b.
Proof. unfold Vec3.dot, Vec3.multiplyScalar; simpl. ring. Qed.

Lemma dot_negate (a b : Vec3.t) :
  Vec3.dot (Vec3.negate a) b = - Vec3.dot a b.
Proof. unfold Vec3.dot, Vec3.negate; simpl. ring. Qed.

Lemma dot_normalize (a b : Vec3.t) :
  Vec3.dot a b = 0 -> Vec3.dot (Vec3.normalize a) b = 0.
Proof.
  unfold Vec3.dot, Vec3.normalize; simpl. intros H.
  destruct (Req_dec_T (Vec3.length a) 0) as [_|Hnz].
  - rewrite <- H. field.
  - transitivity ((Vec3.x a * Vec3.x b + Vec3.y a * Vec3.y b
                   + Vec3.z a * Vec3.z b) / Vec3.length a).
    + field. exact Hnz.
    + rewrite H. field. exact Hnz.
Qed.

Lemma dot_zero (b : Vec3.t) : Vec3.dot (Vec3.mk 0 0 0) b = 0.
Proof. unfold Vec3.dot; simpl. ring. Qed.

(** The offset of a double or triple bond is perpendicular to the bond,
    whichever reference vector was chosen. *)
Lemma offset_perpendicular (dir perp : Vec3.t) s :
  Vec3.dot (Vec3.multiplyScalar (Vec3.normalize (Vec3.cross dir perp)) s) dir
  = 0.
Proof.
  rewrite dot_multiplyScalar, dot_normalize by apply dot_cross_self. ring.
Qed.

Lemma length_sq (a : Vec3.t) :
  Vec3.length a * Vec3.length a
  = Vec3.x a * Vec3.x a + Vec3.y a * Vec3.y a + Vec3.z a * Vec3.z a.
Proof. unfold Vec3.length. apply sqrt_sqrt. nra. Qed.

Lemma length_nonneg (a : Vec3.t) : 0 <= Vec3.length a.
Proof. apply sqrt_pos. Qed.

Lemma sum_squares_zero a b c :
  a * a + b * b + c * c = 0 -> a = 0 /\ b = 0 /\ c = 0.
Proof.
  intros H.
  pose proof (Rle_0_sqr a) as Ha. pose proof (Rle_0_sqr b) as Hb.
  pose proof (Rle_0_sqr c) as Hc. unfold Rsqr in *.
  repeat split; apply Rsqr_0_uniq; unfold Rsqr; lra.
Qed.

Lemma length_pos_of_distinct (a b : Vec3.t) :
  a <> b -> 0 < Vec3.length (Vec3.sub b a).
Proof.
  intros Hab. destruct (length_nonneg (Vec3.sub b a)) as [H|H]; [exact H|].
  exfalso. apply Hab. pose proof (length_sq (Vec3.sub b a)) as Hsq.
  rewrite <- H in Hsq. destruct a as [ax ay az], b as [bx by0 bz].
  simpl in Hsq. symmetry in Hsq. rewrite Rmult_0_l in Hsq.
  apply sum_squares_zero in Hsq. destruct Hsq as [Hx [Hy Hz]].
  f_equal; lra.
Qed.

(** The reference vector is never parallel to the bond: the cross product
    does not vanish. *)
Lemma cross_perpFor_nonzero (dir : Vec3.t) :
  0 < Vec3.length dir ->
  0 < Vec3.length (Vec3.cross dir (perpFor dir (Vec3.length dir))).
Proof.
  intros Hlen. pose proof (length_sq dir) as Hsq.
  set (len := Vec3.length dir) in *.
  assert (Hdot : Vec3.dot dir (Vec3.mk 0 1 0) = Vec3.y dir)
    by (unfold Vec3.dot; simpl; ring).
  unfold perpFor. rewrite Hdot.
  unfold Vec3.length at 1. apply sqrt_lt_R0.
  destruct (Rgt_dec (Rabs (Vec3.y dir) / len) 0.9) as [Hgt|Hle];
    unfold Vec3.cross; simpl.
  - assert (Hy : 0.9 * len < Rabs (Vec3.y dir)).
    { apply Rmult_lt_reg_r with (/ len); [now apply Rinv_0_lt_compat|].
      replace (0.9 * len * / len) with 0.9 by (field; lra).
      exact Hgt. }
    assert (Hy2 : 0 < Vec3.y dir * Vec3.y dir).
    { unfold Rabs in Hy. destruct (Rcase_abs (Vec3.y dir)); nra. }
    nra.
  - assert (Hy : Rabs (Vec3.y dir) <= 0.9 * len).
    { apply Rnot_gt_le in Hle.
      apply Rmult_le_reg_r with (/ len); [now apply Rinv_0_lt_compat|].
      replace (0.9 * len * / len) with 0.9 by (field; lra).
      exact Hle. }
    assert (Hy2 : Vec3.y dir * Vec3.y dir <= 0.81 * (len * len)).
    { unfold Rabs in Hy. destruct (Rcase_abs (Vec3.y dir)); nra. }
    nra.
Qed.

Lemma length_multiplyScalar_normalize (v : Vec3.t) s :
  0 < Vec3.length v -> 0 <= s ->
  Vec3.length (Vec3.multiplyScalar (Vec3.normalize v) s) = s.
Proof.
  intros Hv Hs. pose proof (length_sq v) as Hsq.
  unfold Vec3.normalize.
  destruct (Req_dec_T (Vec3.length v) 0) as [H0|Hnz]; [lra|].
  unfold Vec3.multiplyScalar; simpl. unfold Vec3.length at 1; simpl.
  set (len := Vec3.length v) in *.
  replace (Vec3.x v / len * s * (Vec3.x v / len * s)
           + Vec3.y v / len * s * (Vec3.y v / len * s)
           + Vec3.z v / len * s * (Vec3.z v / len * s))
    with (s * s).
  - now apply sqrt_square.
  - transitivity ((Vec3.x v * Vec3.x v + Vec3.y v * Vec3.y v
                   + Vec3.z v * Vec3.z v) / (len * len) * (s * s)).
    + rewrite <- Hsq. field. exact Hnz.
    + field. exact Hnz.
Qed.

(** C7. For two distinct endpoints, order 1 gives exactly one offset, the
    zero vector; order 2 gives exactly two offsets, a vector and its
    negation; order 3 gives exactly three, the zero vector, a vector and
    its negation; and every offset is perpendicular to the bond direction
    (its dot product with posB - posA is 0). The offset vector of orders 2
    and 3 has length 0.15 and 0.2, and the group holds a cylinder and a
    glow per offset, both centred at the midpoint plus the offset. *)
Theorem buildBondCylinder_offsets (posA posB : Vec3.t) :
  posA <> posB ->
  let dir := Vec3.sub posB posA in
  offsetsOf posA posB 1 = [Vec3.mk 0 0 0] /\
  (exists v, offsetsOf posA posB 2 = [v; Vec3.negate v]
             /\ Vec3.length v = 0.15) /\
  (exists v, offsetsOf posA posB 3 = [Vec3.mk 0 0 0; v; Vec3.negate v]
             /\ Vec3.length v = 0.2) /\
  (forall order offset,
     In offset (offsetsOf posA posB order) -> Vec3.dot offset dir = 0) /\
  (forall order type,
     map position (buildBondCylinder posA posB order type)
     = flat_map (fun offset =>
                   let mid := Vec3.multiplyScalar (Vec3.add posA posB) 0.5 in
                   [Vec3.add mid offset; Vec3.add mid offset])
                (offsetsOf posA posB order)).
Proof.
  intros Hne dir.
  pose proof (length_pos_of_distinct Hne) as Hlen. fold dir in Hlen.
  split; [reflexivity|]. split; [|split; [|split]].
  - eexists. split; [reflexivity|].
    apply length_multiplyScalar_normalize; [|lra].
    now apply cross_perpFor_nonzero.
  - eexists. split; [reflexivity|].
    apply length_multiplyScalar_normalize; [|lra].
    now apply cross_perpFor_nonzero.
  - intros order offset. unfold offsetsOf, bondOffsets. fold dir.
    destruct (order =? 1)%Z; [|destruct (order =? 2)%Z;
                                [|destruct (order =? 3)%Z]]; simpl;
      intros H; repeat (destruct H as [<-|H]); try contradiction;
      rewrite ?dot_negate, ?offset_perpendicular, ?dot_zero; lra.
  - intros order type. unfold buildBondCylinder, offsetsOf. fold dir.
    generalize (bondOffsets dir (Vec3.length dir) order) as offs.
    induction offs as [|o offs IH]; [reflexivity|].
    cbn [flat_map map app position]. now rewrite <- IH.
Qed.

(** The H2O preset's first bond, from the oxygen to a hydrogen. *)
Lemma buildBondCylinder_offsets_witness :
  offsetsOf (Vec3.mk 0 0.4 0) (Vec3.mk (-2) (-1.2) 0) 1 = [Vec3.mk 0 0 0].
Proof.
  apply (@buildBondCylinder_offsets (Vec3.mk 0 0.4 0) (Vec3.mk (-2) (-1.2) 0)).
  intros H. apply (f_equal Vec3.x) in H. simpl in H. lra.
Defined.

End BondFacts.

(* ================================================================== *)
(** * Theorems: scene assembler *)
(* ================================================================== *)

Module SceneFacts.
Import Aufbau Scene.
Local Open Scope Z_scope.





(** More fuel than the [2l + 1] orbitals changes nothing: the guard
    [ml <= l] ends the loop. *)
Lemma orbitalLoop_guard fuel ml l0 e :
  l0 < ml -> orbitalLoop fuel ml l0 e = [].
Proof.
  intros H. destruct fuel; simpl; [reflexivity|].
  destruct (Z.leb_spec ml l0); [lia|reflexivity].
Qed.

Lemma orbitalLoop_fuel l0 : forall fuel extra ml e,
  l0 - ml + 1 <= Z.of_nat fuel ->
  orbitalLoop (fuel + extra) ml l0 e = orbitalLoop fuel ml l0 e.
Proof.
  induction fuel as [|fuel IH]; intros extra ml e Hfuel.
  - simpl. apply orbitalLoop_guard. lia.
  - simpl. destruct (ml <=? l0); [|reflexivity].
    destruct (Z.min e 2 <=? 0); [reflexivity|].
    f_equal. apply IH. lia.
Qed.







Example distributeElectrons_2p3 :
  distributeElectrons 1 3 = [(-1, 2); (0, 1)].
Proof. reflexivity. Qed.

(** The atom rebuild of the initial state (carbon) builds three clouds:
    1s and 2s with two electrons each, and the first 2p orbital with
    two. *)
Example rebuildAtom_carbon :
  match rebuildAtom initialState emptyScene with
  | Returned sc =>
      map assignment (orbitalClouds sc)
      = [Some (0, 2); Some (0, 2); Some (-1, 2)]
  | Threw _ _ => False
  end.
Proof. reflexivity. Qed.

(** ** Elements outside the catalogue *)

Lemma ELEMENTS_outside k : ~ (1 <= k <= 36) -> ELEMENTS k = None.
Proof.
  intros H. unfold ELEMENTS, ELEMENT_LIST. cbn [fold_left z].
  repeat match goal with
         | |- context [k =? ?c] =>
             destruct (Z.eqb_spec k c) as [Heq|_]; [lia|]
         end.
  reflexivity.
Qed.

Lemma ELEMENTS_inside k :
  1 <= k <= 36 -> exists el, ELEMENTS k = Some el /\ z el = k.
Proof.
  intros H.
  assert (Hk : k = 1 \/ k = 2 \/ k = 3 \/ k = 4 \/ k = 5 \/ k = 6 \/ k = 7
    \/ k = 8 \/ k = 9 \/ k = 10 \/ k = 11 \/ k = 12 \/ k = 13 \/ k = 14
    \/ k = 15 \/ k = 16 \/ k = 17 \/ k = 18 \/ k = 19 \/ k = 20 \/ k = 21
    \/ k = 22 \/ k = 23 \/ k = 24 \/ k = 25 \/ k = 26 \/ k = 27 \/ k = 28
    \/ k = 29 \/ k = 30 \/ k = 31 \/ k = 32 \/ k = 33 \/ k = 34 \/ k = 35
    \/ k = 36) by lia.
  repeat (destruct Hk as [->|Hk]; [eexists; split; reflexivity|]).
  subst k. eexists; split; reflexivity.
Qed.

(** The atom rebuild throws on an element outside the catalogue, leaving
    the cleared scene behind. *)
Lemma rebuildAtom_missing st sc :
  ELEMENTS (elementZ st) = None ->
  rebuildAtom st sc = Threw TypeError (clear sc).
Proof. intros H. unfold rebuildAtom. now rewrite H. Qed.

(** The molecule rebuild skips an atom outside the catalogue. *)
Lemma placeAtom_missing st sc atom :
  ELEMENTS (atomZ atom) = None -> placeAtom st sc atom = sc.
Proof. intros H. unfold placeAtom. now rewrite H. Qed.

(** The atom rebuild returns for every element of the catalogue. *)
Lemma rebuildAtom_returns st sc :
  1 <= elementZ st <= 36 -> exists sc', rebuildAtom st sc = Returned sc'.
Proof.
  intros H. destruct (ELEMENTS_inside H) as [el [Hel _]].
  unfold rebuildAtom. rewrite Hel. eexists. reflexivity.
Qed.

(** C6, on the code: selecting the atomic number 37 (outside the
    catalogue 1..36) makes the atom rebuild throw a TypeError after it has
    cleared the scene, whereas the molecule rebuild skips an atom with
    that number and leaves the scene as it was. *)
Theorem rebuild_missing_element (sc : Scene) :
  ELEMENTS 37 = None /\
  snd (onElementSelect 37 initialState sc) = Threw TypeError (clear sc) /\
  placeAtom initialState sc (at3 37 0 0 0) = sc /\
  rebuildMoleculeIn
    (fun _ => Some (mkMolecule [at3 37 0 0 0] [])) initialState sc
  = Returned (clear sc).
Proof.
  assert (H : ELEMENTS 37 = None) by (apply ELEMENTS_outside; lia).
  split; [exact H|]. split; [|split].
  - simpl. now apply rebuildAtom_missing.
  - now apply placeAtom_missing.
  - unfold rebuildMoleculeIn. cbn [atoms bonds fold_left].
    now rewrite placeAtom_missing.
Qed.

End SceneFacts.

(* ================================================================== *)
(** * Theorems: animation driver *)
(* ================================================================== *)

Module AnimationFacts.
Import Animation.
Local Open Scope R_scope.

Lemma store_length i v : forall a, List.length (store i v a) = List.length a.
Proof.
  induction i as [|i IH]; intros [|h rest]; simpl; auto.
Qed.

Lemma store_nth_same i v : forall a,
  (i < List.length a)%nat -> nth i (store i v a) 0 = v.
Proof.
  induction i as [|i IH]; intros [|h rest]; simpl; intros H; try lia; auto.
  apply IH. lia.
Qed.

Lemma store_nth_other i v j : forall a,
  i <> j -> nth j (store i v a) 0 = nth j a 0.
Proof.
  revert j. induction i as [|i IH]; intros [|j] [|h rest] H; simpl;
    try reflexivity; try lia.
  apply IH. lia.
Qed.

Lemma jitterWave_0 elapsed k :
  jitterWave elapsed (3 * k) = sin (elapsed * 2.3 + INR (3 * k)).
Proof.
  unfold jitterWave.
  replace ((3 * k) mod 3)%nat with 0%nat; [reflexivity|].
  symmetry. rewrite Nat.mul_comm. apply Nat.Div0.mod_mul.
Qed.

Lemma jitterWave_1 elapsed k :
  jitterWave elapsed (3 * k + 1) = cos (elapsed * 1.7 + INR (3 * k)).
Proof.
  unfold jitterWave.
  replace ((3 * k + 1) mod 3)%nat with 1%nat.
  - replace (3 * k + 1 - 1)%nat with (3 * k)%nat by lia. reflexivity.
  - symmetry. rewrite Nat.add_comm, Nat.mul_comm.
    now rewrite Nat.Div0.mod_add.
Qed.

Lemma jitterWave_2 elapsed k :
  jitterWave elapsed (3 * k + 2) = sin (elapsed * 3.1 + INR (3 * k) + 1).
Proof.
  unfold jitterWave.
  replace ((3 * k + 2) mod 3)%nat with 2%nat.
  - replace (3 * k + 2 - 2)%nat with (3 * k)%nat by lia. reflexivity.
  - symmetry. rewrite Nat.add_comm, Nat.mul_comm.
    now rewrite Nat.Div0.mod_add.
Qed.

Lemma jitterWave_bound elapsed j : Rabs (jitterWave elapsed j) <= 1.
Proof.
  unfold jitterWave. apply Rabs_le.
  destruct (j mod 3)%nat as [|[|?]].
  - pose proof (SIN_bound (elapsed * 2.3 + INR j)). lra.
  - pose proof (COS_bound (elapsed * 1.7 + INR (j - 1))). lra.
  - pose proof (SIN_bound (elapsed * 3.1 + INR (j - 2) + 1)). lra.
Qed.

(** The value the frame gives to the buffer element [j]. *)
Definition target (base : list R) (elapsed speed breathe : R) (j : nat) : R :=
  load base j * breathe + jitterWave elapsed j * (0.03 * speed).

(** The loop, entered at the point [k] (index [3k]), rewrites every
    element from [3k] on and keeps the elements before. *)
Lemma jitterLoop_spec base elapsed speed breathe : forall fuel k positions,
  (List.length positions <= 3 * k + 3 * fuel)%nat ->
  let out := jitterLoop fuel (3 * k) positions base elapsed speed breathe in
  List.length out = List.length positions /\
  forall j, (j < List.length positions)%nat ->
    nth j out 0
    = if (j <? 3 * k)%nat then nth j positions 0
      else target base elapsed speed breathe j.
Proof.
  induction fuel as [|fuel IH]; intros k positions Hfuel; cbn [jitterLoop].
  - split; [reflexivity|]. intros j Hj.
    destruct (Nat.ltb_spec j (3 * k)); [reflexivity|lia].
  - destruct (Nat.ltb_spec (3 * k) (List.length positions)) as [Hin|Hout].
    + set (p1 := store (3 * k) _ positions).
      set (p2 := store (3 * k + 1) _ p1).
      set (p3 := store (3 * k + 2) _ p2).
      assert (Hlen : List.length p3 = List.length positions).
      { unfold p3, p2, p1. now rewrite !store_length. }
      replace (3 * k + 3)%nat with (3 * S k)%nat by lia.
      destruct (IH (S k) p3) as [IHlen IHnth]; [lia|].
      split; [now rewrite IHlen|].
      intros j Hj. rewrite IHnth by lia.
      destruct (Nat.ltb_spec j (3 * S k)) as [Hlt|Hge].
      * destruct (Nat.ltb_spec j (3 * k)) as [Hlt'|Hge'].
        -- unfold p3, p2, p1. rewrite !store_nth_other by lia. reflexivity.
        -- assert (Hcase : j = (3 * k)%nat \/ j = (3 * k + 1)%nat
                           \/ j = (3 * k + 2)%nat) by lia.
           unfold target.
           destruct Hcase as [ -> | [ -> | -> ] ].
           ++ unfold p3, p2. rewrite !store_nth_other by lia.
              unfold p1. rewrite store_nth_same by lia.
              now rewrite jitterWave_0.
           ++ unfold p3. rewrite store_nth_other by lia.
              unfold p2. rewrite store_nth_same
                by (unfold p1; rewrite store_length; lia).
              now rewrite jitterWave_1.
           ++ unfold p3. rewrite store_nth_same
                by (unfold p2, p1; rewrite !store_length; lia).
              now rewrite jitterWave_2.
      * destruct (Nat.ltb_spec j (3 * k)); [lia|reflexivity].
    + split; [reflexivity|]. intros j Hj.
      destruct (Nat.ltb_spec j (3 * k)); [reflexivity|lia].
Qed.

Lemma animateCloud_positions elapsed speed hl c :
  let c' := animateCloud elapsed speed hl c in
  List.length (positions c') = List.length (positions c) /\
  forall j, (j < List.length (positions c))%nat ->
    nth j (positions c') 0
    = target (basePositions c) elapsed speed
             (1.0 + sin (phaseOf elapsed speed c) * 0.04) j.
Proof.
  cbn zeta. unfold animateCloud. cbn [positions].
  pose proof (@jitterLoop_spec (basePositions c) elapsed speed
                (1.0 + sin (phaseOf elapsed speed c) * 0.04)
                (List.length (positions c)) 0 (positions c)) as H.
  cbn zeta in H. change (3 * 0)%nat with 0%nat in H.
  destruct H as [Hlen Hnth]; [lia|].
  split; [exact Hlen|]. intros j Hj. now rewrite Hnth.
Qed.

(** The frame keeps the clouds in their order. *)
Lemma animate_nth elapsed speed hl clouds k :
  nth_error (animate elapsed speed hl clouds) k
  = option_map (animateCloud elapsed speed hl) (nth_error clouds k).
Proof. unfold animate. apply nth_error_map. Qed.

(** Two clouds with the same base positions and quantum numbers and
    position buffers of one length. *)
Definition sameBase (o c : Cloud) : Prop :=
  basePositions o = basePositions c /\ n o = n c /\ l o = l c /\
  List.length (positions o) = List.length (positions c).

Lemma animateCloud_sameBase elapsed speed hl o c :
  sameBase o c ->
  positions (animateCloud elapsed speed hl o)
  = positions (animateCloud elapsed speed hl c).
Proof.
  intros [Hb [Hn [Hl Hlen]]].
  destruct (animateCloud_positions elapsed speed hl o) as [Hlo Hno].
  destruct (animateCloud_positions elapsed speed hl c) as [Hlc Hnc].
  apply nth_ext with (d := 0) (d' := 0); [congruence|].
  intros j Hj. rewrite Hno, Hnc by lia.
  unfold phaseOf. now rewrite Hb, Hn, Hl.
Qed.

Lemma animate_sameBase elapsed speed hl : forall others clouds,
  Forall2 sameBase others clouds ->
  map positions (animate elapsed speed hl others)
  = map positions (animate elapsed speed hl clouds).
Proof.
  induction 1 as [|o c others clouds Hoc _ IH]; [reflexivity|].
  unfold animate in *. cbn [map]. f_equal; [|exact IH].
  now apply animateCloud_sameBase.
Qed.

Lemma sameBase_frame elapsed speed hl : forall clouds,
  Forall2 sameBase (animate elapsed speed hl clouds) clouds.
Proof.
  induction clouds as [|c clouds IH]; [constructor|].
  unfold animate in *. cbn [map]. constructor; [|exact IH].
  destruct (animateCloud_positions elapsed speed hl c) as [Hlen _].
  repeat split; try reflexivity. exact Hlen.
Qed.

(** C9. In a frame of [animate] at an elapsed time and a speed factor,
    over live clouds whose two buffers have one length, the clouds keep
    their order and their number, and every cloud, with quantum numbers
    (n, l), gets every element i of its position buffer set to
    base[i] (1 + 0.04 sin(phase)) + 0.03 speed w(elapsed, i), with
    phase = elapsed speed 0.8 + n 1.3 + l 0.7 and w a sinusoid of the
    elapsed time and the index alone with |w| <= 1. The base positions and
    the quantum numbers are left as they were and the positions before the
    frame are not read, so a frame repeated at the same elapsed time, or
    run from any other position buffers over the same base positions,
    gives the same positions. *)
Theorem animate_positions
    (clouds : list Cloud) (elapsed speed : R) (hl : string) :
  Forall (fun c => List.length (basePositions c)
                   = List.length (positions c)) clouds ->
  let frame := animate elapsed speed hl clouds in
  List.length frame = List.length clouds /\
  (forall k c, nth_error clouds k = Some c ->
     exists c',
       nth_error frame k = Some c' /\
       n c' = n c /\ l c' = l c /\ label c' = label c /\
       basePositions c' = basePositions c /\
       List.length (positions c') = List.length (positions c) /\
       let phase :=
         elapsed * speed * 0.8 + IZR (n c) * 1.3 + IZR (l c) * 0.7 in
       forall i, (i < List.length (positions c))%nat ->
         nth i (positions c') 0
         = nth i (basePositions c) 0 * (1 + 0.04 * sin phase)
           + 0.03 * speed * jitterWave elapsed i
         /\ Rabs (jitterWave elapsed i) <= 1) /\
  map positions (animate elapsed speed hl frame) = map positions frame /\
  (forall others,
     Forall2 sameBase others clouds ->
     map positions (animate elapsed speed hl others) = map positions frame).
Proof.
  intros _ frame. subst frame.
  split; [unfold animate; apply length_map|]. split; [|split].
  - intros k c Hk. exists (animateCloud elapsed speed hl c).
    split; [rewrite animate_nth, Hk; reflexivity|].
    destruct (animateCloud_positions elapsed speed hl c) as [Hlen Hnth].
    repeat (split; [reflexivity|]). split; [exact Hlen|].
    intros phase i Hi. split; [|apply jitterWave_bound].
    rewrite Hnth by exact Hi. unfold target, load, phaseOf. fold phase.
    generalize (sin phase), (jitterWave elapsed i),
      (nth i (basePositions c) 0). intros s w a. decimals. field.
  - apply animate_sameBase, sameBase_frame.
  - intros others Ho. now apply animate_sameBase.
Qed.

(** One point of a 2p cloud and one of a 1s cloud. *)
Lemma animate_positions_witness :
  List.length
    (animate 0 1 "all"
       [mkCloud [1; 2; 3] [1; 2; 3] 2 1 "2p" 0.85;
        mkCloud [0; 1; 0] [0; 1; 0] 1 0 "1s" 0.85])
  = 2%nat.
Proof.
  apply (@animate_positions
           [mkCloud [1; 2; 3] [1; 2; 3] 2 1 "2p" 0.85;
            mkCloud [0; 1; 0] [0; 1; 0] 1 0 "1s" 0.85] 0 1 "all").
  repeat constructor.
Defined.

End AnimationFacts.

(* ================================================================== *)
(** * Theorems: radial rejection sampling *)
(* ================================================================== *)

Module RadialSamplingFacts.
Import Radial.
Local Open Scope Z_scope.
Local Open Scope R_scope.

Lemma radialProbability_nonneg n l rho : 0 <= radialProbability n l rho.
Proof.
  unfold radialProbability. cbn zeta.
  set (Rnl := powerRZ rho l * _ * _).
  replace (rho * rho * Rnl * Rnl) with ((rho * Rnl) * (rho * Rnl)) by ring.
  apply Rle_0_sqr.
Qed.

Lemma radialProbability_at_0 n l : radialProbability n l 0 = 0.
Proof. unfold radialProbability. cbn zeta. ring. Qed.

(** The grid point number [i] of the scan. *)
Definition gridPoint (n : Z) (i : nat) : R := INR i / 200 * rhoMaxOf n.

(** ** The grid scan computes a maximum *)

Lemma gridScan_ge n l rhoMax : forall grid probMax,
  probMax <= gridScan n l rhoMax grid probMax.
Proof.
  induction grid as [|i grid IH]; intros probMax; simpl; [lra|].
  destruct (Rgt_dec _ probMax) as [H|H];
    eapply Rle_trans; [| apply IH | | apply IH]; lra.
Qed.

Lemma gridScan_upper n l rhoMax : forall grid probMax i,
  In i grid ->
  radialProbability n l (INR i / 200 * rhoMax)
  <= gridScan n l rhoMax grid probMax.
Proof.
  induction grid as [|i0 grid IH]; intros probMax i Hin; simpl in *;
    [contradiction|].
  destruct Hin as [->|Hin]; [|now apply IH].
  eapply Rle_trans; [|apply gridScan_ge].
  destruct (Rgt_dec _ probMax) as [H|H]; lra.
Qed.

Lemma gridScan_attained n l rhoMax : forall grid probMax,
  gridScan n l rhoMax grid probMax = probMax \/
  exists i, In i grid /\
    gridScan n l rhoMax grid probMax
    = radialProbability n l (INR i / 200 * rhoMax).
Proof.
  induction grid as [|i0 grid IH]; intros probMax; simpl; [now left|].
  destruct (Rgt_dec _ probMax) as [H|H].
  - destruct (IH (radialProbability n l (INR i0 / 200 * rhoMax)))
      as [E|[i [Hin E]]].
    + right. exists i0. auto.
    + right. exists i. auto.
  - destruct (IH probMax) as [E|[i [Hin E]]].
    + now left.
    + right. exists i. auto.
Qed.

Lemma probMaxOf_nonneg n l : 0 <= probMaxOf n l.
Proof.
  unfold probMaxOf.
  pose proof (gridScan_ge n l (rhoMaxOf n) (seq 0 201) 0). lra.
Qed.

Lemma probMaxOf_upper n l i :
  (i <= 200)%nat ->
  radialProbability n l (gridPoint n i) * 1.05 <= probMaxOf n l.
Proof.
  intros Hi. unfold probMaxOf, gridPoint.
  pose proof (@gridScan_upper n l (rhoMaxOf n) (seq 0 201) 0 i) as H.
  rewrite in_seq in H. specialize (H ltac:(lia)). lra.
Qed.

(** ** The rejection loop *)

(** Attempt number [a] of a loop that starts reading at [i] accepts. *)
Definition accepts (n l : Z) (rhoMax probMax : R) (d : nat -> R)
    (i a : nat) : Prop :=
  d (S (i + 2 * a)) * probMax
  < radialProbability n l (d (i + 2 * a)%nat * rhoMax).

Lemma rejectionLoop_spec n l R0 rhoMax probMax d : forall attempts i,
  match rejectionLoop attempts n l R0 rhoMax probMax d i with
  | (Some s, j) =>
      exists a, (a < attempts)%nat /\ j = (i + 2 * S a)%nat /\
        accepts n l rhoMax probMax d i a /\
        (forall b, (b < a)%nat -> ~ accepts n l rhoMax probMax d i b) /\
        s = mkRadialSample
              (d (i + 2 * a)%nat * rhoMax * R0 / (2 * IZR n))
              (radialProbability n l (d (i + 2 * a)%nat * rhoMax) / probMax)
  | (None, j) =>
      j = (i + 2 * attempts)%nat /\
      forall a, (a < attempts)%nat -> ~ accepts n l rhoMax probMax d i a
  end.
Proof.
  induction attempts as [|k IH]; intros i.
  - simpl. split; [lia|]. intros a Ha. lia.
  - cbn [rejectionLoop]. unfold Rand.bind, Rand.random at 1 2.
    destruct (Rlt_dec (d (S i) * probMax)
                (radialProbability n l (d i * rhoMax))) as [Hacc|Hrej].
    + unfold Rand.ret. exists 0%nat.
      assert (Hacc0 : accepts n l rhoMax probMax d i 0).
      { unfold accepts. now replace (i + 2 * 0)%nat with i by lia. }
      replace (i + 2 * 0)%nat with i by lia.
      split; [lia|]. split; [lia|]. split; [exact Hacc0|].
      split; [intros b Hb; lia|reflexivity].
    + assert (Hrej0 : ~ accepts n l rhoMax probMax d i 0).
      { unfold accepts. now replace (i + 2 * 0)%nat with i by lia. }
      assert (Hshift : forall a,
                accepts n l rhoMax probMax d i (S a)
                <-> accepts n l rhoMax probMax d (S (S i)) a).
      { intros a. unfold accepts.
        now replace (i + 2 * S a)%nat with (S (S i) + 2 * a)%nat by lia. }
      specialize (IH (S (S i))).
      destruct (rejectionLoop k n l R0 rhoMax probMax d (S (S i)))
        as [[s|] j].
      * destruct IH as [a [Ha [Hj [Hacc [Hbefore Hs]]]]].
        exists (S a).
        replace (i + 2 * S a)%nat with (S (S i) + 2 * a)%nat by lia.
        split; [lia|]. split; [lia|]. split; [now apply Hshift|].
        split; [|exact Hs].
        intros [|b] Hb; [exact Hrej0|].
        rewrite Hshift. apply Hbefore. lia.
      * destruct IH as [Hj Hall]. split; [lia|].
        intros [|a] Ha; [exact Hrej0|].
        rewrite Hshift. apply Hall. lia.
Qed.

(** When every attempt is rejected the loop is exhausted after 500
    attempts and [sampleRadius] returns the fixed fallback. *)
Lemma sampleRadius_exhausted n l d i :
  (forall a, (a < 500)%nat ->
     ~ accepts n l (rhoMaxOf n) (probMaxOf n l) d i a) ->
  sampleRadius n l d i = (radialFallback n, (i + 1000)%nat).
Proof.
  intros Hall. unfold sampleRadius, Rand.bind.
  pose proof (rejectionLoop_spec n l (radialScale n) (rhoMaxOf n)
                (probMaxOf n l) d 500 i) as H.
  destruct (rejectionLoop 500 n l (radialScale n) (rhoMaxOf n)
              (probMaxOf n l) d i) as [[s|] j].
  - destruct H as [a [Ha [_ [Hacc _]]]]. exfalso. now apply (Hall a).
  - destruct H as [-> _]. reflexivity.
Qed.

(** A draw of 0 for the radius is always rejected: the density is 0 at
    the nucleus. *)
Lemma rejects_at_zero n l rhoMax probMax d i a :
  0 <= probMax -> Rand.valid d -> d (i + 2 * a)%nat = 0 ->
  ~ accepts n l rhoMax probMax d i a.
Proof.
  intros Hp Hd H0. unfold accepts. rewrite H0, Rmult_0_l.
  rewrite radialProbability_at_0.
  pose proof (Hd (S (i + 2 * a))) as [Hu _]. nra.
Qed.

End RadialSamplingFacts.

(* ================================================================== *)
(** * Theorems: the rejection bound dominates the radial density *)
(* ================================================================== *)

(** The rejection bound of [sampleRadius] is 1.05 times the largest of 201
    grid values; the sampled radius falls between grid points. That the
    density there stays below the bound is checked by a verified
    computation: the density is a polynomial squared times exp(-rho); on a
    cell [a, a + delta] the polynomial is bounded through its expansion at
    [a], the exponential by its value at [a], and the cell is halved until
    the bound is met. *)

Module RadialBound.
Import Radial.

Local Open Scope Q_scope.

(** Polynomials with rational coefficients, lowest degree first. *)
Definition poly : Type := list Q.

Fixpoint padd (a b : poly) : poly :=
  match a, b with
  | [], _ => b
  | _, [] => a
  | x :: a', y :: b' => Qred (x + y) :: padd a' b'
  end.

Definition pscale (s : Q) (a : poly) : poly :=
  map (fun x => Qred (s * x)) a.

Fixpoint evalQ (c : poly) (x : Q) : Q :=
  match c with
  | [] => 0
  | q :: c' => Qred (q + x * evalQ c' x)
  end.

(** The coefficients of [t |-> c (a + t)]. *)
Fixpoint pshift (c : poly) (a : Q) : poly :=
  match c with
  | [] => []
  | q :: c' =>
      let s := pshift c' a in
      padd [q] (padd (pscale a s) (0 :: s))
  end.

(** An upper bound of [|c t|] for [0 <= t <= delta]. *)
Fixpoint absSum (c : poly) (delta : Q) : Q :=
  match c with
  | [] => 0
  | q :: c' => Qred (Qabs q + delta * absSum c' delta)
  end.

(** Fixed-point numbers with 64 fractional bits. *)
Definition sbits : Z := 64.
Definition scale : Z := 2 ^ sbits.

Fixpoint sqIter (m : nat) (z : Z) : Z :=
  match m with
  | O => z
  | S m' => sqIter m' (Z.shiftr (z * z) sbits)
  end.

(** A lower bound of [exp (- t)]: [(1 - t / 2^16) ^ (2^16)], each square
    rounded down. *)
Definition expLow (t : Q) : Q :=
  let z0 := Qfloor ((1 - t / inject_Z (2 ^ 16)) * inject_Z scale) in
  if (z0 <? 0)%Z then 0 else inject_Z (sqIter 16 z0) / inject_Z scale.

(** The check of one cell [a, a + delta]: the square of the bound of the
    polynomial [c] on the cell, times [exp (- a)], is at most
    [B exp (- g)]. *)
Definition checkCell (c : poly) (g B a delta : Q) : bool :=
  let F := absSum (pshift c a) delta in
  Qle_bool (F * F) (B * expLow (g - a)).

(** A partition of [0, w] into cells that pass the check, found by
    halving: the levels of the cells from left to right, a cell of level
    [k] having width [w / 2^k]. *)
Fixpoint leaves (depth level : nat) (c : poly) (g B a delta : Q)
    : list nat :=
  if checkCell c g B a delta then [level]
  else match depth with
       | O => []
       | S depth' =>
           let h := Qred (delta / 2) in
           leaves depth' (S level) c g B a h
           ++ leaves depth' (S level) c g B (Qred (a + h)) h
       end.

(** The check of a partition, from [a] on: every cell passes and the cells
    reach [w]. *)
Fixpoint checkPlan (plan : list nat) (c : poly) (g B w a : Q) : bool :=
  match plan with
  | [] => Qle_bool w a
  | level :: rest =>
      let delta := Qred (w / inject_Z (2 ^ Z.of_nat level)) in
      checkCell c g B a delta
      && checkPlan rest c g B w (Qred (a + delta))
  end.

Local Open Scope R_scope.

Fixpoint evalR (c : poly) (x : R) : R :=
  match c with
  | [] => 0
  | q :: c' => Q2R q + x * evalR c' x
  end.

Lemma Q2R_Qred q : Q2R (Qred q) = Q2R q.
Proof. apply Qeq_eqR. apply Qred_correct. Qed.

Lemma evalR_padd x : forall a b,
  evalR (padd a b) x = evalR a x + evalR b x.
Proof.
  induction a as [|p a IH]; intros [|q b]; cbn [padd evalR]; try ring.
  rewrite Q2R_Qred, Q2R_plus, IH. ring.
Qed.

Lemma evalR_pscale s x : forall a,
  evalR (pscale s a) x = Q2R s * evalR a x.
Proof.
  induction a as [|p a IH]; cbn [pscale map evalR]; [ring|].
  fold (pscale s a). rewrite Q2R_Qred, Q2R_mult, IH. ring.
Qed.

Lemma Q2R_inject_Z z : Q2R (inject_Z z) = IZR z.
Proof. unfold Q2R. simpl. field. Qed.

Lemma Q2R_0 : Q2R 0 = 0.
Proof. unfold Q2R. simpl. lra. Qed.

Lemma evalR_pshift t : forall c a,
  evalR (pshift c a) t = evalR c (Q2R a + t).
Proof.
  induction c as [|q c IH]; intros a; [reflexivity|].
  cbn [pshift]. rewrite !evalR_padd, evalR_pscale. cbn [evalR].
  rewrite Q2R_0, !IH. ring.
Qed.

Lemma evalQ_evalR x : forall c, Q2R (evalQ c x) = evalR c (Q2R x).
Proof.
  induction c as [|q c IH]; cbn [evalQ evalR]; [apply Q2R_0|].
  rewrite Q2R_Qred, Q2R_plus, Q2R_mult, IH. reflexivity.
Qed.

Lemma Q2R_Qabs q : Q2R (Qabs q) = Rabs (Q2R q).
Proof.
  destruct (Qlt_le_dec q 0) as [H|H].
  - rewrite Qabs_neg by (now apply Qlt_le_weak).
    rewrite Q2R_opp. apply Qlt_Rlt in H. rewrite Q2R_0 in H.
    rewrite Rabs_left; lra.
  - rewrite Qabs_pos by exact H.
    apply Qle_Rle in H. rewrite Q2R_0 in H.
    rewrite Rabs_right; lra.
Qed.

Lemma absSum_bound delta t : 0 <= t <= Q2R delta -> forall c,
  Rabs (evalR c t) <= Q2R (absSum c delta).
Proof.
  intros Ht. induction c as [|q c IH]; cbn [absSum evalR].
  - rewrite Rabs_R0, Q2R_0. lra.
  - rewrite Q2R_Qred, Q2R_plus, Q2R_mult, Q2R_Qabs.
    eapply Rle_trans; [apply Rabs_triang|].
    rewrite Rabs_mult, (Rabs_right t) by lra.
    pose proof (Rabs_pos (evalR c t)). nra.
Qed.

(** ** The lower bound of the exponential *)

Lemma scale_pos : 0 < IZR scale.
Proof. apply IZR_lt. reflexivity. Qed.

Fixpoint sqR (m : nat) (x : R) : R :=
  match m with
  | O => x
  | S m' => sqR m' (x * x)
  end.

Lemma sqIter_bound : forall m z x,
  (0 <= z)%Z -> IZR z / IZR scale <= x ->
  (0 <= sqIter m z)%Z /\ IZR (sqIter m z) / IZR scale <= sqR m x.
Proof.
  pose proof scale_pos as Hs.
  induction m as [|m IH]; intros z x Hz Hx; cbn [sqIter sqR]; [auto|].
  assert (Hz' : 0 <= IZR z) by (now apply IZR_le).
  rewrite Z.shiftr_div_pow2 by (unfold sbits; lia). fold scale.
  apply IH.
  - apply Z.div_pos; [nia|]. apply lt_IZR. exact Hs.
  - assert (Hdiv : (z * z / scale * scale <= z * z)%Z).
    { rewrite Z.mul_comm. apply Z.mul_div_le. apply lt_IZR. exact Hs. }
    apply IZR_le in Hdiv. rewrite !mult_IZR in Hdiv.
    assert (Hq : 0 <= IZR z / IZR scale).
    { apply Rmult_le_pos; [exact Hz'|]. left. now apply Rinv_0_lt_compat. }
    apply Rle_trans with (IZR z / IZR scale * (IZR z / IZR scale)); [|nra].
    apply Rmult_le_reg_r with (IZR scale); [exact Hs|].
    replace (IZR (z * z / scale) / IZR scale * IZR scale)
      with (IZR (z * z / scale)) by (field; lra).
    apply Rmult_le_reg_r with (IZR scale); [exact Hs|].
    replace (IZR z / IZR scale * (IZR z / IZR scale) * IZR scale * IZR scale)
      with (IZR z * IZR z) by (field; lra).
    exact Hdiv.
Qed.

Lemma sqR_exp : forall m y, sqR m (exp y) = exp (2 ^ m * y).
Proof.
  induction m as [|m IH]; intros y; simpl.
  - f_equal. ring.
  - rewrite <- exp_plus, IH. f_equal. ring.
Qed.

Lemma expLow_bound t :
  0 <= Q2R (expLow t) <= exp (- Q2R t).
Proof.
  pose proof scale_pos as Hs.
  unfold expLow.
  set (q := ((1 - t / inject_Z (2 ^ 16)) * inject_Z scale)%Q).
  destruct (Z.ltb_spec (Qfloor q) 0) as [Hneg|Hpos].
  - rewrite Q2R_0. split; [lra|]. left. apply exp_pos.
  - set (y := - Q2R t / 65536).
    assert (Hq : Q2R q = (1 + y) * IZR scale).
    { unfold q, y. rewrite Q2R_mult, Q2R_minus, Q2R_div by discriminate.
      rewrite !Q2R_inject_Z. change (Q2R 1) with (Q2R (inject_Z 1)).
      rewrite Q2R_inject_Z. change (2 ^ 16)%Z with 65536%Z. field. }
    assert (Hfl : IZR (Qfloor q) <= Q2R q).
    { pose proof (Qfloor_le q) as H. apply Qle_Rle in H.
      now rewrite Q2R_inject_Z in H. }
    assert (H0 : IZR (Qfloor q) / IZR scale <= exp y).
    { apply Rle_trans with (1 + y).
      - apply Rmult_le_reg_r with (IZR scale); [exact Hs|].
        replace (IZR (Qfloor q) / IZR scale * IZR scale)
          with (IZR (Qfloor q)) by (field; lra).
        lra.
      - apply exp_ineq1_le. }
    destruct (@sqIter_bound 16 (Qfloor q) (exp y) Hpos H0) as [Hz Hle].
    rewrite sqR_exp in Hle.
    replace (2 ^ 16 * y) with (- Q2R t) in Hle
      by (unfold y; simpl; field).
    rewrite Q2R_div, !Q2R_inject_Z by discriminate.
    split; [|exact Hle].
    apply Rmult_le_pos; [now apply IZR_le|].
    left. now apply Rinv_0_lt_compat.
Qed.

(** ** Soundness of the check *)

Lemma checkCell_sound c g B a delta rho :
  checkCell c g B a delta = true ->
  0 <= Q2R B ->
  Q2R a <= rho <= Q2R a + Q2R delta ->
  evalR c rho * evalR c rho * exp (- rho) <= Q2R B * exp (- Q2R g).
Proof.
  unfold checkCell. intros Hchk HB Hrho.
  apply Qle_bool_iff, Qle_Rle in Hchk.
  rewrite !Q2R_mult in Hchk.
  set (F := Q2R (absSum (pshift c a) delta)) in *.
  pose proof (expLow_bound (g - a)) as [HE0 HE].
  rewrite Q2R_minus in HE.
  set (E := Q2R (expLow (g - a))) in *.
  assert (Hf : Rabs (evalR c rho) <= F).
  { replace rho with (Q2R a + (rho - Q2R a)) by ring.
    rewrite <- evalR_pshift. apply absSum_bound. lra. }
  assert (Hsq : evalR c rho * evalR c rho <= F * F).
  { pose proof (Rabs_pos (evalR c rho)).
    replace (evalR c rho * evalR c rho)
      with (Rabs (evalR c rho) * Rabs (evalR c rho)).
    - nra.
    - unfold Rabs. destruct (Rcase_abs _); ring. }
  assert (Hexp : exp (- rho) <= exp (- Q2R a)).
  { destruct (Req_dec rho (Q2R a)) as [->|Hne]; [lra|].
    left. apply exp_increasing. lra. }
  assert (Hsplit : exp (- Q2R g) = exp (- (Q2R g - Q2R a)) * exp (- Q2R a)).
  { rewrite <- exp_plus. f_equal. ring. }
  rewrite Hsplit.
  pose proof (exp_pos (- rho)). pose proof (exp_pos (- Q2R a)).
  pose proof (Rle_0_sqr (evalR c rho)) as Hsq0. unfold Rsqr in Hsq0.
  apply Rle_trans with (F * F * exp (- Q2R a)).
  - apply Rmult_le_compat; lra.
  - apply Rle_trans with (Q2R B * E * exp (- Q2R a)).
    + apply Rmult_le_compat_r; lra.
    + rewrite <- Rmult_assoc. apply Rmult_le_compat_r; [lra|].
      apply Rmult_le_compat_l; lra.
Qed.

Lemma checkPlan_sound c g B w rho : forall plan a,
  checkPlan plan c g B w a = true ->
  0 <= Q2R B ->
  Q2R a < rho <= Q2R w ->
  evalR c rho * evalR c rho * exp (- rho) <= Q2R B * exp (- Q2R g).
Proof.
  induction plan as [|level plan IH]; intros a Hchk HB Hrho;
    cbn [checkPlan] in Hchk.
  - apply Qle_bool_iff, Qle_Rle in Hchk. lra.
  - apply andb_prop in Hchk. destruct Hchk as [Hcell Hrest].
    set (delta := Qred (w / inject_Z (2 ^ Z.of_nat level))) in *.
    destruct (Rle_dec rho (Q2R a + Q2R delta)) as [Hin|Hout].
    + eapply checkCell_sound; [exact Hcell|exact HB|lra].
    + eapply IH; [exact Hrest|exact HB|].
      rewrite Q2R_Qred, Q2R_plus. lra.
Qed.

(** ** The radial density as a polynomial times an exponential *)

Local Open Scope Q_scope.

(** The Laguerre polynomials of the recurrence, as coefficient lists. *)
Fixpoint lagPoly (d : nat) (k : Q) : poly :=
  match d with
  | O => [1]
  | S d1 =>
      match d1 with
      | O => [1 + k; -1]
      | S d2 =>
          let i := inject_Z (Z.of_nat d) in
          pscale (/ i)
            (padd (padd (pscale (2 * i - 1 + k) (lagPoly d1 k))
                        (0 :: pscale (-1) (lagPoly d1 k)))
                  (pscale (- (i - 1 + k)) (lagPoly d2 k)))
      end
  end.

(** rho^(l+1) L(rho): the polynomial whose square times exp(-rho) is the
    radial density. *)
Definition fpoly (n l : Z) : poly :=
  repeat 0 (Z.to_nat (l + 1))
  ++ lagPoly (Z.to_nat (n - l - 1)) (inject_Z (2 * l + 1)).

(** The polynomial, the grid point number [istar] and the constant
    [B = 1.05 f(g)^2] of the check for the orbital (n, l). *)
Definition gridQ (n istar : Z) : Q :=
  Qred (inject_Z istar / 200 * inject_Z (3 * n + 4)).

Definition boundQ (n l istar : Z) : Q :=
  let fg := evalQ (fpoly n l) (gridQ n istar) in
  Qred ((105 # 100) * (fg * fg)).

(** The check for the orbital (n, l) against the grid point [istar] along
    a partition: the density nowhere on [0, 3n + 4] exceeds 1.05 times its
    value at the grid point, which is positive. *)
Definition run (plan : list nat) (n l istar : Z) : bool :=
  let B := boundQ n l istar in
  negb (Qle_bool B 0)
  && checkPlan plan (fpoly n l) (gridQ n istar) B
               (inject_Z (3 * n + 4)) 0.

(** For each orbital with n <= 7, the index of a grid point where the
    density is largest or nearly so; the check only uses that the maximum
    of the scan is at least the value there. *)
Definition gridArgmax (n l : Z) : Z :=
  match n, l with
  | 1, 0 => 57
  | 2, 0 => 105 | 2, 1 => 80
  | 3, 0 => 134 | 3, 1 => 123 | 3, 2 => 92
  | 4, 0 => 154 | 4, 1 => 147 | 4, 2 => 133 | 4, 3 => 100
  | 5, 0 => 168 | 5, 1 => 164 | 5, 2 => 155 | 5, 3 => 138 | 5, 4 => 105
  | 6, 0 => 179 | 6, 1 => 176 | 6, 2 => 169 | 6, 3 => 159 | 6, 4 => 142
  | 6, 5 => 109
  | 7, 0 => 187 | 7, 1 => 185 | 7, 2 => 180 | 7, 3 => 173 | 7, 4 => 161
  | 7, 5 => 144 | 7, 6 => 112
  | _, _ => 0
  end%Z.

(** The orbitals with n <= 7 and a partition for each, computed by
    halving. *)
Definition orbitals : list (Z * Z) :=
  flat_map (fun n => map (fun l => (n, l)) (map Z.of_nat (seq 0 (Z.to_nat n))))
           [1; 2; 3; 4; 5; 6; 7]%Z.

Definition planOf (n l : Z) : list nat :=
  let istar := gridArgmax n l in
  leaves 30 0 (fpoly n l) (gridQ n istar) (boundQ n l istar)
         0 (inject_Z (3 * n + 4)).

Definition plans : list (Z * Z * list nat) :=
  Eval vm_compute in map (fun nl => (nl, planOf (fst nl) (snd nl))) orbitals.

Definition planFor (n l : Z) : list nat :=
  match find (fun e => (fst (fst e) =? n)%Z && (snd (fst e) =? l)%Z) plans
  with
  | Some e => snd e
  | None => []
  end.

Local Open Scope R_scope.

Lemma lagPoly_SS d k :
  lagPoly (S (S d)) k
  = let i := inject_Z (Z.of_nat (S (S d))) in
    pscale (/ i)
      (padd (padd (pscale (2 * i - 1 + k)%Q (lagPoly (S d) k))
                  (0%Q :: pscale (-1)%Q (lagPoly (S d) k)))
            (pscale (- (i - 1 + k))%Q (lagPoly d k))).
Proof. reflexivity. Qed.

Lemma laguerreSpec_SS d k x :
  laguerreSpec (S (S d)) k x
  = ((2 * INR (S (S d)) - 1 + k - x) * laguerreSpec (S d) k x
     - (INR (S (S d)) - 1 + k) * laguerreSpec d k x) / INR (S (S d)).
Proof. reflexivity. Qed.

Lemma evalR_lagPoly k x : forall d,
  evalR (lagPoly d k) x = laguerreSpec d (Q2R k) x /\
  evalR (lagPoly (S d) k) x = laguerreSpec (S d) (Q2R k) x.
Proof.
  assert (H1 : Q2R 1 = 1)
    by (change 1%Q with (inject_Z 1); apply Q2R_inject_Z).
  assert (Hm1 : Q2R (-1) = -1)
    by (change (-1)%Q with (inject_Z (-1)); apply Q2R_inject_Z).
  assert (H2 : Q2R 2 = 2)
    by (change 2%Q with (inject_Z 2); apply Q2R_inject_Z).
  induction d as [|d [IH0 IH1]].
  - split; cbn [lagPoly evalR laguerreSpec].
    + rewrite H1. ring.
    + rewrite Q2R_plus, Hm1, H1. ring.
  - split; [exact IH1|].
    rewrite lagPoly_SS, laguerreSpec_SS.
    set (i := inject_Z (Z.of_nat (S (S d)))).
    assert (Hi : Q2R i = INR (S (S d))).
    { unfold i. now rewrite Q2R_inject_Z, <- INR_IZR_INZ. }
    assert (Hnz : INR (S (S d)) <> 0) by (apply not_0_INR; lia).
    assert (Hqnz : ~ (i == 0)%Q).
    { intros E. apply Qeq_eqR in E. rewrite Q2R_0 in E. congruence. }
    rewrite evalR_pscale, !evalR_padd, !evalR_pscale. cbn [evalR].
    rewrite evalR_pscale, IH0, IH1.
    rewrite Q2R_inv by exact Hqnz.
    repeat first [ rewrite Q2R_plus | rewrite Q2R_minus | rewrite Q2R_mult
                 | rewrite Q2R_opp ].
    rewrite Q2R_0, Hi, H1, H2, Hm1.
    field. exact Hnz.
Qed.

Lemma evalR_zeros c x : forall m,
  evalR (repeat 0%Q m ++ c) x = x ^ m * evalR c x.
Proof.
  induction m as [|m IH]; simpl; [ring|].
  rewrite IH, Q2R_0. ring.
Qed.

Lemma radialProbability_poly n l rho :
  (0 <= l < n)%Z ->
  radialProbability n l rho
  = evalR (fpoly n l) rho * evalR (fpoly n l) rho * exp (- rho).
Proof.
  intros Hl. unfold radialProbability, fpoly. cbn zeta.
  rewrite RadialFacts.laguerreL_spec by lia.
  rewrite evalR_zeros.
  destruct (evalR_lagPoly (inject_Z (2 * l + 1)) rho
              (Z.to_nat (n - l - 1))) as [-> _].
  rewrite Q2R_inject_Z.
  assert (Hpow : powerRZ rho l = rho ^ Z.to_nat l).
  { rewrite pow_powerRZ, Z2Nat.id by lia. reflexivity. }
  rewrite Hpow, Z2Nat.inj_add by lia.
  change (Z.to_nat 1) with 1%nat. rewrite pow_add, pow_1.
  rewrite <- RadialFacts.exp_half_sq.
  generalize (laguerreSpec (Z.to_nat (n - l - 1)) (IZR (2 * l + 1)) rho)
             (rho ^ Z.to_nat l) (exp (- rho / 2)).
  intros v q e. ring.
Qed.

(** A check that passes bounds the density on the whole sampling range by
    the rejection bound, which is then positive. *)
Lemma run_sound plan n l istar :
  run plan n l istar = true ->
  (0 <= l < n)%Z -> (0 <= istar <= 200)%Z ->
  0 < probMaxOf n l /\
  forall rho, 0 <= rho <= rhoMaxOf n ->
    radialProbability n l rho <= probMaxOf n l.
Proof.
  unfold run. cbn zeta. intros Hrun Hl Hi.
  apply andb_prop in Hrun. destruct Hrun as [Hpos Hchk].
  set (c := fpoly n l) in *.
  set (g := gridQ n istar) in *.
  set (B := boundQ n l istar) in *.
  assert (Hg : Q2R g = RadialSamplingFacts.gridPoint n (Z.to_nat istar)).
  { unfold g, gridQ, RadialSamplingFacts.gridPoint, rhoMaxOf.
    rewrite Q2R_Qred, Q2R_mult, Q2R_div, !Q2R_inject_Z by discriminate.
    rewrite INR_IZR_INZ, Z2Nat.id by lia.
    change (Q2R 200) with (Q2R (inject_Z 200)). now rewrite Q2R_inject_Z. }
  assert (HB : Q2R B = radialProbability n l (Q2R g) * 1.05 / exp (- Q2R g)).
  { unfold B, boundQ. cbn zeta. fold c g.
    rewrite Q2R_Qred, !Q2R_mult, evalQ_evalR.
    rewrite radialProbability_poly by exact Hl. fold c.
    pose proof (exp_pos (- Q2R g)).
    replace (Q2R (105 # 100)) with 1.05 by reflexivity.
    field. lra. }
  assert (HBpos : 0 < Q2R B).
  { apply Rnot_le_lt. intros Hle.
    apply negb_true_iff in Hpos.
    assert (Hq : (B <= 0)%Q).
    { apply Rle_Qle. now rewrite Q2R_0. }
    apply Qle_bool_iff in Hq. congruence. }
  assert (Hmax : Q2R B * exp (- Q2R g) <= probMaxOf n l).
  { rewrite HB, Hg.
    pose proof (exp_pos (- RadialSamplingFacts.gridPoint n (Z.to_nat istar))).
    replace (_ * 1.05 / _ * _)
      with (radialProbability n l
              (RadialSamplingFacts.gridPoint n (Z.to_nat istar)) * 1.05)
      by (field; lra).
    apply RadialSamplingFacts.probMaxOf_upper. lia. }
  assert (Hprob : 0 < probMaxOf n l).
  { pose proof (exp_pos (- Q2R g)). nra. }
  split; [exact Hprob|].
  intros rho Hrho. destruct (Req_dec rho 0) as [->|Hne].
  - rewrite RadialSamplingFacts.radialProbability_at_0. lra.
  - rewrite radialProbability_poly by exact Hl. fold c.
    eapply Rle_trans; [|exact Hmax].
    apply (@checkPlan_sound c g B (inject_Z (3 * n + 4)) rho plan 0%Q Hchk).
    + lra.
    + rewrite Q2R_0, Q2R_inject_Z. unfold rhoMaxOf in Hrho. lra.
Qed.

(** The 28 checks, one per orbital with n <= 7. *)
Lemma run_all n l :
  (1 <= n <= 7)%Z -> (0 <= l < n)%Z ->
  run (planFor n l) n l (gridArgmax n l) = true.
Proof.
  intros Hn Hl.
  assert (Hcases : (n = 1 \/ n = 2 \/ n = 3 \/ n = 4 \/ n = 5 \/ n = 6
                    \/ n = 7)%Z) by lia.
  assert (Hlcases : (l = 0 \/ l = 1 \/ l = 2 \/ l = 3 \/ l = 4 \/ l = 5
                     \/ l = 6)%Z) by lia.
  repeat (destruct Hcases as [->|Hcases]);
    try subst n;
    repeat (destruct Hlcases as [->|Hlcases]);
    try subst l; try lia; vm_compute; reflexivity.
Qed.

Lemma gridArgmax_range n l :
  (1 <= n <= 7)%Z -> (0 <= l < n)%Z -> (0 <= gridArgmax n l <= 200)%Z.
Proof.
  intros Hn Hl.
  assert (Hcases : (n = 1 \/ n = 2 \/ n = 3 \/ n = 4 \/ n = 5 \/ n = 6
                    \/ n = 7)%Z) by lia.
  assert (Hlcases : (l = 0 \/ l = 1 \/ l = 2 \/ l = 3 \/ l = 4 \/ l = 5
                     \/ l = 6)%Z) by lia.
  repeat (destruct Hcases as [->|Hcases]);
    try subst n;
    repeat (destruct Hlcases as [->|Hlcases]);
    try subst l; simpl; lia.
Qed.

(** The rejection bound dominates the density on the sampling range. *)
Lemma probMaxOf_dominates n l :
  (1 <= n <= 7)%Z -> (0 <= l < n)%Z ->
  0 < probMaxOf n l /\
  forall rho, 0 <= rho <= rhoMaxOf n ->
    radialProbability n l rho <= probMaxOf n l.
Proof.
  intros Hn Hl.
  apply run_sound with (plan := planFor n l) (istar := gridArgmax n l).
  - now apply run_all.
  - exact Hl.
  - now apply gridArgmax_range.
Qed.

(** ** [sampleRadius] *)

Import RadialSamplingFacts.

Lemma radialScale_pos n : (1 <= n)%Z -> 0 < radialScale n.
Proof. intros H. unfold radialScale. apply IZR_le in H. lra. Qed.

Lemma rhoMaxOf_pos n : (1 <= n)%Z -> 0 < rhoMaxOf n.
Proof. intros H. unfold rhoMaxOf. apply IZR_lt. lia. Qed.

(** The rejection bound is 1.05 times the maximum of the 201 grid
    values. *)
Lemma probMaxOf_grid_max n l :
  exists m, probMaxOf n l = m * 1.05 /\
    (forall k, (k <= 200)%nat ->
       radialProbability n l (gridPoint n k) <= m) /\
    (exists k, (k <= 200)%nat /\
       m = radialProbability n l (gridPoint n k)).
Proof.
  exists (gridScan n l (rhoMaxOf n) (seq 0 201) 0).
  split; [reflexivity|]. split.
  - intros k Hk. unfold gridPoint. apply gridScan_upper.
    apply in_seq. lia.
  - destruct (gridScan_attained n l (rhoMaxOf n) (seq 0 201) 0)
      as [E|[k [Hin E]]].
    + exists 0%nat. split; [lia|]. rewrite E. unfold gridPoint.
      replace (INR 0 / 200 * rhoMaxOf n) with 0 by (simpl; lra).
      now rewrite radialProbability_at_0.
    + exists k. apply in_seq in Hin. split; [lia|exact E].
Qed.

(** C3. For 1 <= n <= 7, 0 <= l < n and every stream of draws in [0,1),
    [sampleRadius n l] ends within 500 rejection attempts (it reads two
    draws per attempt) and returns r >= 0 and a radial density in [0,1].
    Its rejection bound is 1.05 times the maximum of the density over the
    201 grid points i/200 (3n + 4), i = 0..200. When all 500 attempts are
    rejected it returns the fallback r = 0.5 radialScale(n) with density
    0.3. *)
Theorem sampleRadius_bounded (n l : Z) (d : nat -> R) (i : nat) :
  (1 <= n <= 7)%Z -> (0 <= l < n)%Z -> Rand.valid d ->
  let s := fst (sampleRadius n l d i) in
  let j := snd (sampleRadius n l d i) in
  (exists a, (a <= 500)%nat /\ j = (i + 2 * a)%nat) /\
  0 <= r s /\
  0 <= radialDensity s <= 1 /\
  (exists m, probMaxOf n l = m * 1.05 /\
     (forall k, (k <= 200)%nat ->
        radialProbability n l (gridPoint n k) <= m) /\
     (exists k, (k <= 200)%nat /\
        m = radialProbability n l (gridPoint n k))) /\
  ((forall a, (a < 500)%nat ->
      ~ accepts n l (rhoMaxOf n) (probMaxOf n l) d i a) ->
   s = mkRadialSample (0.5 * radialScale n) 0.3 /\ j = (i + 1000)%nat).
Proof.
  intros Hn Hl Hd s j.
  destruct (probMaxOf_dominates Hn Hl) as [Hpos Hdom].
  pose proof (@radialScale_pos n ltac:(lia)) as HR.
  pose proof (@rhoMaxOf_pos n ltac:(lia)) as Hrho.
  assert (Hn' : 0 < 2 * IZR n).
  { assert (1 <= IZR n) by (apply IZR_le; lia). lra. }
  assert (Hmain :
    (exists a, (a <= 500)%nat /\ j = (i + 2 * a)%nat) /\
    0 <= r s /\ 0 <= radialDensity s <= 1).
  { subst s j. unfold sampleRadius, Rand.bind.
    pose proof (rejectionLoop_spec n l (radialScale n) (rhoMaxOf n)
                  (probMaxOf n l) d 500 i) as H.
    destruct (rejectionLoop 500 n l (radialScale n) (rhoMaxOf n)
                (probMaxOf n l) d i) as [[s0|] j0]; cbn [fst snd Rand.ret].
    - destruct H as [a [Ha [Hj [_ [_ Hs]]]]].
      pose proof (Hd (i + 2 * a)%nat) as [Hu0 Hu1].
      set (u := d (i + 2 * a)%nat) in *.
      assert (Hrange : 0 <= u * rhoMaxOf n <= rhoMaxOf n) by nra.
      pose proof (Hdom _ Hrange) as Hle.
      pose proof (radialProbability_nonneg n l (u * rhoMaxOf n)) as Hge.
      split; [exists (S a); split; [lia|exact Hj]|].
      rewrite Hs. cbn [r radialDensity]. split; [|split].
      + apply Rmult_le_pos; [|left; now apply Rinv_0_lt_compat].
        apply Rmult_le_pos; [lra|lra].
      + apply Rmult_le_pos; [exact Hge|left; now apply Rinv_0_lt_compat].
      + apply Rmult_le_reg_r with (probMaxOf n l); [exact Hpos|].
        replace (radialProbability n l (u * rhoMaxOf n) / probMaxOf n l
                 * probMaxOf n l)
          with (radialProbability n l (u * rhoMaxOf n)) by (field; lra).
        lra.
    - destruct H as [Hj _].
      split; [exists 500%nat; split; [lia|exact Hj]|].
      unfold radialFallback. cbn [r radialDensity]. lra. }
  destruct Hmain as [Hattempts [Hr Hdens]].
  split; [exact Hattempts|]. split; [exact Hr|]. split; [exact Hdens|].
  split; [apply probMaxOf_grid_max|].
  intros Hall. subst s j.
  rewrite (sampleRadius_exhausted Hall). cbn [fst snd].
  split; [|reflexivity].
  unfold radialFallback. f_equal. ring.
Qed.

(** The 1s orbital on a stream of zeros: every attempt is rejected. *)
Lemma sampleRadius_bounded_witness :
  0 <= r (fst (sampleRadius 1 0 (fun _ => 0) 0%nat)).
Proof.
  apply (@sampleRadius_bounded 1 0 (fun _ => 0) 0%nat); try lia.
  intros k. lra.
Defined.

End RadialBound.

(* ================================================================== *)
(** * Theorems: orbital sampler, sample counts and fallbacks *)
(* ================================================================== *)

Module SamplerFacts.
Import Radial Sampler.
Local Open Scope Z_scope.
Local Open Scope R_scope.

(** The sign a fallback draws from [u]. *)
Definition signOf (u : R) : R := if Rlt_dec u 0.5 then 1 else -1.

Lemma signOf_cases u : signOf u = 1 \/ signOf u = -1.
Proof. unfold signOf. destruct (Rlt_dec u 0.5); auto. Qed.

(** ** Every iteration pushes one sample *)

Lemma sampleLoop_length n l ml : forall iterations results d i,
  List.length (fst (sampleLoop iterations n l ml results d i))
  = (List.length results + iterations)%nat.
Proof.
  induction iterations as [|k IH]; intros results d i; cbn [sampleLoop].
  - simpl. lia.
  - unfold Rand.bind. destruct (sampleOne n l ml d i) as [s j].
    rewrite IH, length_app. simpl. lia.
Qed.

Lemma sampleOrbitalPositions_length n l ml count d i :
  List.length (fst (sampleOrbitalPositions n l ml count d i))
  = Z.to_nat count.
Proof. unfold sampleOrbitalPositions. now rewrite sampleLoop_length. Qed.

(** ** What the samplers return when the angular loop is exhausted *)

Lemma samplePOrbital_exhausted n ml d i rs j1 j2 :
  sampleRadius n 1 d i = (rs, j1) ->
  angularLoopP 500 ml d j1 = (None, j2) ->
  samplePOrbital n ml d i
  = (finish rs (fst (fallbackP ml d j2)), (j2 + 3)%nat).
Proof.
  intros H1 H2. unfold samplePOrbital, Rand.bind. rewrite H1, H2.
  unfold fallbackP, randomSign, Rand.bind, Rand.random, Rand.ret. simpl.
  do 2 f_equal. lia.
Qed.

Lemma sampleDOrbital_exhausted n ml d i rs j1 j2 :
  sampleRadius n 2 d i = (rs, j1) ->
  angularLoopD 500 ml d j1 = (None, j2) ->
  sampleDOrbital n ml d i
  = (finish rs (if (ml =? 0)%Z
                then mkDirection 0 (signOf (d j2)) 0 0.8
                else mkDirection (signOf (d j2) * 0.707) 0
                                 (signOf (d j2) * 0.707) 0.8),
     S j2).
Proof.
  intros H1 H2. unfold sampleDOrbital, Rand.bind. rewrite H1, H2.
  reflexivity.
Qed.

Lemma sampleFOrbital_exhausted n ml d i rs j1 j2 :
  sampleRadius n 3 d i = (rs, j1) ->
  angularLoopF 500 ml d j1 = (None, j2) ->
  sampleFOrbital n ml d i
  = (finish rs (mkDirection 0 (signOf (d j2)) 0 0.7), S j2).
Proof.
  intros H1 H2. unfold sampleFOrbital, Rand.bind. rewrite H1, H2.
  reflexivity.
Qed.

(** ** The p fallback lies in the lobe *)

Lemma lobe_weight s q len :
  s * s = 1 -> len * len = q -> 1 <= q <= 1.02 -> 0 < len ->
  0.98 <= s / len * (s / len) <= 1.
Proof.
  intros Hs Hlen Hq Hpos.
  replace (s / len * (s / len)) with (1 / q)
    by (rewrite <- Hlen, <- Hs; field; lra).
  split.
  - apply Rmult_le_reg_r with q; [lra|].
    replace (1 / q * q) with 1 by (field; lra). lra.
  - apply Rmult_le_reg_r with q; [lra|].
    replace (1 / q * q) with 1 by (field; lra). lra.
Qed.

Lemma spread_range u :
  0 <= u < 1 -> -0.075 <= (u - 0.5) * 0.15 <= 0.075.
Proof. intros H. lra. Qed.

(** The direction of the p fallback has angular weight at least 0.98 (the
    peak is 1), and its component along the lobe axis has the drawn
    sign. *)
Lemma fallbackP_in_lobe ml d j :
  Rand.valid d ->
  let dir := fst (fallbackP ml d j) in
  0.98 <= angularP ml (dx dir) (dy dir) (dz dir) <= 1 /\
  angularVal dir = 0.9 /\
  0 < signOf (d j)
      * (if (ml =? 0)%Z then dy dir
         else if (ml =? 1)%Z then dx dir else dz dir).
Proof.
  intros Hd. cbn zeta.
  unfold fallbackP, randomSign, Rand.bind, Rand.random, Rand.ret.
  cbn [fst]. fold (signOf (d j)).
  pose proof (spread_range (Hd (S j))) as Ha.
  pose proof (spread_range (Hd (S (S j)))) as Hc.
  set (a := (d (S j) - 0.5) * 0.15) in *.
  set (c := (d (S (S j)) - 0.5) * 0.15) in *.
  set (s := signOf (d j)).
  assert (Hs : s * s = 1)
    by (destruct (signOf_cases (d j)) as [E|E]; unfold s; rewrite E; lra).
  assert (Ha2 : 0 <= a * a <= 0.01) by nra.
  assert (Hc2 : 0 <= c * c <= 0.01) by nra.
  assert (Hlen : forall v : Vec3.t,
            Vec3.x v * Vec3.x v + Vec3.y v * Vec3.y v + Vec3.z v * Vec3.z v
            = 1 + a * a + c * c ->
            Vec3.length v * Vec3.length v = 1 + a * a + c * c
            /\ 0 < Vec3.length v).
  { intros v Hv. unfold Vec3.length. rewrite Hv. split.
    - apply sqrt_sqrt. lra.
    - apply sqrt_lt_R0. lra. }
  unfold angularP.
  destruct (ml =? 0)%Z; [|destruct (ml =? 1)%Z].
  - destruct (Hlen (Vec3.mk a s c)) as [Hsq Hpos]; [simpl; lra|].
    cbn [dx dy dz angularVal Vec3.x Vec3.y Vec3.z].
    split; [apply lobe_weight with (q := 1 + a * a + c * c); auto; lra|].
    split; [reflexivity|].
    replace (s * (s / Vec3.length (Vec3.mk a s c)))
      with (s * s * / Vec3.length (Vec3.mk a s c)) by (field; lra).
    rewrite Hs, Rmult_1_l. now apply Rinv_0_lt_compat.
  - destruct (Hlen (Vec3.mk s a c)) as [Hsq Hpos]; [simpl; lra|].
    cbn [dx dy dz angularVal Vec3.x Vec3.y Vec3.z].
    split; [apply lobe_weight with (q := 1 + a * a + c * c); auto; lra|].
    split; [reflexivity|].
    replace (s * (s / Vec3.length (Vec3.mk s a c)))
      with (s * s * / Vec3.length (Vec3.mk s a c)) by (field; lra).
    rewrite Hs, Rmult_1_l. now apply Rinv_0_lt_compat.
  - destruct (Hlen (Vec3.mk a c s)) as [Hsq Hpos]; [simpl; lra|].
    cbn [dx dy dz angularVal Vec3.x Vec3.y Vec3.z].
    split; [apply lobe_weight with (q := 1 + a * a + c * c); auto; lra|].
    split; [reflexivity|].
    replace (s * (s / Vec3.length (Vec3.mk a c s)))
      with (s * s * / Vec3.length (Vec3.mk a c s)) by (field; lra).
    rewrite Hs, Rmult_1_l. now apply Rinv_0_lt_compat.
Qed.

(** The y axis is a peak of the d weight with ml = 0 (value 1) and of the
    f weight with ml = 0 (value 0.4). *)
Lemma angularD_0_peak phi sinT cosT :
  -1 <= cosT <= 1 ->
  angularD 0 phi sinT cosT <= 1 /\
  angularD 0 phi sinT 1 = 1 /\ angularD 0 phi sinT (-1) = 1.
Proof.
  intros H. unfold angularD. repeat split; try (simpl; lra).
  assert (0 <= cosT * cosT <= 1) by nra.
  simpl. nra.
Qed.

Lemma angularF_0_peak phi sinT cosT :
  -1 <= cosT <= 1 ->
  angularF 0 phi sinT cosT <= 0.4 /\
  angularF 0 phi sinT 1 = 0.4 /\ angularF 0 phi sinT (-1) = 0.4.
Proof.
  intros H. unfold angularF. repeat split; try (simpl; lra).
  assert (Hu : 0 <= cosT * cosT <= 1) by nra.
  set (u := cosT * cosT) in *.
  replace ((cosT * (5 * u - 3)) ^ 2) with (u * (5 * u - 3) * (5 * u - 3))
    by (unfold u; ring).
  assert (Hfac : u * (5 * u - 3) * (5 * u - 3) - 4
                 = (u - 1) * (25 * u * u - 5 * u + 4)) by ring.
  assert (Hq : 0 < 25 * u * u - 5 * u + 4) by nra.
  assert (Hle : (u - 1) * (25 * u * u - 5 * u + 4) <= 0) by nra.
  lra.
Qed.

(** ** Two streams of draws that exhaust every loop *)

(** An f loop whose polar draws are all 1/2 (the equator, [cosT = 0]) has
    weight 0 at every attempt for ml = 0 and rejects them all. *)
Lemma angularLoopF_equator d : forall attempts j,
  Rand.valid d ->
  (forall a, (a < attempts)%nat -> d (S (j + 3 * a)) = 0.5) ->
  angularLoopF attempts 0 d j = (None, (j + 3 * attempts)%nat).
Proof.
  intros attempts j Hd. revert j.
  induction attempts as [|k IH]; intros j Hhalf.
  - simpl. unfold Rand.ret. f_equal. lia.
  - cbn [angularLoopF]. unfold Rand.bind, Rand.random at 1 2 3.
    assert (H0 : d (S j) = 0.5).
    { specialize (Hhalf 0%nat ltac:(lia)).
      now replace (j + 3 * 0)%nat with j in Hhalf by lia. }
    rewrite H0.
    replace (2 * 0.5 - 1) with 0 by lra.
    assert (Hw : forall phi sinT, angularF 0 phi sinT 0 = 0)
      by (intros; unfold angularF; simpl; lra).
    rewrite Hw.
    replace (Rmin (0 ^ 2) 1) with 0
      by (unfold Rmin; destruct (Rle_dec (0 ^ 2) 1); simpl in *; lra).
    destruct (Rlt_dec (d (S (S j))) 0) as [Hneg|_].
    + pose proof (Hd (S (S j))) as [Hge _]. lra.
    + rewrite IH.
      * f_equal. lia.
      * intros a Ha. specialize (Hhalf (S a) ltac:(lia)).
        now replace (j + 3 * S a)%nat with (S (S (S j)) + 3 * a)%nat
          in Hhalf by lia.
Qed.

(** The same draws exhaust the p loop with ml = 0 (the weight y^2 is 0 on
    the equator), and the d loop with ml = 0 when the acceptance draws are
    1/2 as well (the weight there is 1/4, its power at most 1/4). *)
Lemma angularLoopP_equator d : forall attempts j,
  Rand.valid d ->
  (forall a, (a < attempts)%nat -> d (S (j + 3 * a)) = 0.5) ->
  angularLoopP attempts 0 d j = (None, (j + 3 * attempts)%nat).
Proof.
  intros attempts j Hd. revert j.
  induction attempts as [|k IH]; intros j Hhalf.
  - simpl. unfold Rand.ret. f_equal. lia.
  - cbn [angularLoopP]. unfold Rand.bind, Rand.random at 1 2 3.
    assert (H0 : d (S j) = 0.5).
    { specialize (Hhalf 0%nat ltac:(lia)).
      now replace (j + 3 * 0)%nat with j in Hhalf by lia. }
    rewrite H0.
    replace (2 * 0.5 - 1) with 0 by lra.
    assert (Hw : forall x z, powFrac (angularP 0 x 0 z) 3.5 = 0).
    { intros x z. unfold angularP, powFrac. simpl.
      destruct (Rle_dec (0 * 0) 0) as [_|Hn]; [reflexivity|lra]. }
    rewrite Hw.
    destruct (Rlt_dec (d (S (S j))) 0) as [Hneg|_].
    + pose proof (Hd (S (S j))) as [Hge _]. lra.
    + rewrite IH.
      * f_equal. lia.
      * intros a Ha. specialize (Hhalf (S a) ltac:(lia)).
        now replace (j + 3 * S a)%nat with (S (S (S j)) + 3 * a)%nat
          in Hhalf by lia.
Qed.

Lemma powFrac_quarter : powFrac (1 / 4) 2.5 <= 1 / 4.
Proof.
  unfold powFrac. destruct (Rle_dec (1 / 4) 0) as [H|_]; [lra|].
  unfold Rpower.
  assert (Hln : ln (1 / 4) < 0).
  { rewrite <- ln_1. apply ln_increasing; lra. }
  rewrite <- (exp_ln (1 / 4)) at 2 by lra.
  left. apply exp_increasing. nra.
Qed.

Lemma angularLoopD_equator d : forall attempts j,
  (forall a, (a < attempts)%nat ->
     d (S (j + 3 * a)) = 0.5 /\ d (S (S (j + 3 * a))) = 0.5) ->
  angularLoopD attempts 0 d j = (None, (j + 3 * attempts)%nat).
Proof.
  intros attempts j. revert j.
  induction attempts as [|k IH]; intros j Hhalf.
  - simpl. unfold Rand.ret. f_equal. lia.
  - cbn [angularLoopD]. unfold Rand.bind, Rand.random at 1 2 3.
    destruct (Hhalf 0%nat ltac:(lia)) as [H0 H1].
    replace (j + 3 * 0)%nat with j in H0, H1 by lia.
    rewrite H0, H1.
    replace (2 * 0.5 - 1) with 0 by lra.
    assert (Hw : forall phi sinT, angularD 0 phi sinT 0 = 1 / 4)
      by (intros; unfold angularD; simpl; lra).
    rewrite Hw.
    pose proof powFrac_quarter as Hq.
    destruct (Rlt_dec 0.5 (Rmin (powFrac (1 / 4) 2.5) 1)) as [Hacc|_].
    + pose proof (Rmin_l (powFrac (1 / 4) 2.5) 1). lra.
    + rewrite IH.
      * f_equal. lia.
      * intros a Ha. specialize (Hhalf (S a) ltac:(lia)).
        now replace (j + 3 * S a)%nat with (S (S (S j)) + 3 * a)%nat
          in Hhalf by lia.
Qed.

(** 1000 draws of 0 (the radial loop finds density 0 at the nucleus each
    time), then draws of 1/2. *)
Definition drawsLow (k : nat) : R :=
  if (k <? 1000)%nat then 0 else 0.5.

(** The same, but the draw that decides the sign of the f fallback
    (number 2500) is 1/4. *)
Definition drawsHigh (k : nat) : R :=
  if (k <? 1000)%nat then 0
  else if (k =? 2500)%nat then 0.25 else 0.5.

Lemma drawsLow_valid : Rand.valid drawsLow.
Proof. intros k. unfold drawsLow. destruct (k <? 1000)%nat; lra. Qed.

Lemma drawsHigh_valid : Rand.valid drawsHigh.
Proof.
  intros k. unfold drawsHigh.
  destruct (k <? 1000)%nat; [lra|]. destruct (k =? 2500)%nat; lra.
Qed.

(** After its 1000 zeros the stream [drawsLow] exhausts the angular loop
    of each of the three samplers with ml = 0: the fallbacks are
    reached. *)
Lemma drawsLow_exhausts :
  angularLoopP 500 0 drawsLow 1000%nat = (None, 2500%nat) /\
  angularLoopD 500 0 drawsLow 1000%nat = (None, 2500%nat) /\
  angularLoopF 500 0 drawsLow 1000%nat = (None, 2500%nat).
Proof.
  assert (Hhalf : forall k, (1000 <= k)%nat -> drawsLow k = 0.5).
  { intros k Hk. unfold drawsLow.
    destruct (Nat.ltb_spec k 1000); [lia|reflexivity]. }
  split; [|split].
  - apply (@angularLoopP_equator drawsLow 500%nat 1000%nat drawsLow_valid).
    intros a Ha. apply Hhalf. lia.
  - apply (@angularLoopD_equator drawsLow 500%nat 1000%nat).
    intros a Ha. split; apply Hhalf; lia.
  - apply (@angularLoopF_equator drawsLow 500%nat 1000%nat drawsLow_valid).
    intros a Ha. apply Hhalf. lia.
Qed.

(** On a stream that starts with 1000 zeros and then gives 1/2 to every
    polar draw of the angular loop, the f sampler exhausts both loops and
    returns the fallback with the sign of draw number 2500. *)
Lemma sampleFOrbital_on_exhausting_stream n d :
  Rand.valid d ->
  (forall k, (k < 1000)%nat -> d k = 0) ->
  (forall a, (a < 500)%nat -> d (S (1000 + 3 * a)) = 0.5) ->
  sampleRadius n 3 d 0%nat = (radialFallback n, 1000%nat) /\
  angularLoopF 500 0 d 1000%nat = (None, 2500%nat) /\
  sampleFOrbital n 0 d 0%nat
  = (finish (radialFallback n) (mkDirection 0 (signOf (d 2500%nat)) 0 0.7),
     2501%nat).
Proof.
  intros Hd Hzero Hhalf.
  assert (H1 : sampleRadius n 3 d 0%nat = (radialFallback n, 1000%nat)).
  { apply (@RadialSamplingFacts.sampleRadius_exhausted n 3 d 0%nat).
    intros a Ha. apply RadialSamplingFacts.rejects_at_zero.
    - apply RadialSamplingFacts.probMaxOf_nonneg.
    - exact Hd.
    - apply Hzero. lia. }
  assert (H2 : angularLoopF 500 0 d 1000%nat = (None, 2500%nat)).
  { now apply (@angularLoopF_equator d 500%nat 1000%nat). }
  split; [exact H1|]. split; [exact H2|].
  eapply sampleFOrbital_exhausted; eassumption.
Qed.

Lemma radialFallback_4 : r (radialFallback 4) = 4.25.
Proof. unfold radialFallback, radialScale. simpl. lra. Qed.

(** The direction of a fallback is not fixed by the orbital: it carries a
    sign drawn at random. For the 4f orbital with ml = 0 two streams of
    draws exhaust the angular loop and give opposite fallback directions
    (y = -4.25 and y = +4.25), so no single direction serves both. *)
Lemma fallback_direction_not_fixed :
  ~ (exists dir : Vec3.t, forall d, Rand.valid d ->
       forall rs j1 j2,
         sampleRadius 4 3 d 0%nat = (rs, j1) ->
         angularLoopF 500 0 d j1 = (None, j2) ->
         pos (fst (sampleFOrbital 4 0 d 0%nat))
         = Vec3.multiplyScalar dir (r rs)).
Proof.
  intros [dir Hdir].
  assert (Hlow : forall k, (k < 1000)%nat -> drawsLow k = 0).
  { intros k Hk. unfold drawsLow.
    destruct (Nat.ltb_spec k 1000); [reflexivity|lia]. }
  assert (Hhigh : forall k, (k < 1000)%nat -> drawsHigh k = 0).
  { intros k Hk. unfold drawsHigh.
    destruct (Nat.ltb_spec k 1000); [reflexivity|lia]. }
  assert (Hlow2 : forall a, (a < 500)%nat ->
                    drawsLow (S (1000 + 3 * a)) = 0.5).
  { intros a Ha. unfold drawsLow.
    destruct (Nat.ltb_spec (S (1000 + 3 * a)) 1000); [lia|reflexivity]. }
  assert (Hhigh2 : forall a, (a < 500)%nat ->
                     drawsHigh (S (1000 + 3 * a)) = 0.5).
  { intros a Ha. unfold drawsHigh.
    destruct (Nat.ltb_spec (S (1000 + 3 * a)) 1000); [lia|].
    destruct (Nat.eqb_spec (S (1000 + 3 * a)) 2500); [lia|reflexivity]. }
  destruct (@sampleFOrbital_on_exhausting_stream 4 drawsLow
              drawsLow_valid Hlow Hlow2) as [L1 [L2 L3]].
  destruct (@sampleFOrbital_on_exhausting_stream 4 drawsHigh
              drawsHigh_valid Hhigh Hhigh2) as [U1 [U2 U3]].
  pose proof (Hdir drawsLow drawsLow_valid _ _ _ L1 L2) as EL.
  pose proof (Hdir drawsHigh drawsHigh_valid _ _ _ U1 U2) as EU.
  rewrite L3 in EL. rewrite U3 in EU.
  apply (f_equal Vec3.y) in EL. apply (f_equal Vec3.y) in EU.
  unfold finish in EL, EU.
  cbn [fst pos Vec3.y Vec3.multiplyScalar dy] in EL, EU.
  rewrite radialFallback_4 in EL, EU.
  assert (SL : signOf (drawsLow 2500%nat) = -1).
  { unfold signOf, drawsLow.
    destruct (Nat.ltb_spec 2500 1000); [lia|].
    destruct (Rlt_dec 0.5 0.5); lra. }
  assert (SU : signOf (drawsHigh 2500%nat) = 1).
  { unfold signOf, drawsHigh.
    destruct (Nat.ltb_spec 2500 1000); [lia|].
    destruct (Nat.eqb_spec 2500 2500); [|lia].
    destruct (Rlt_dec 0.25 0.5); lra. }
  rewrite SL in EL. rewrite SU in EU. lra.
Qed.

(** ** The fallbacks of the d and f samplers and the nodes of the weights *)

(** On the fallback direction of the d sampler for ml <> 0, the diagonal
    of the xz plane, the weights of ml = 1, -1 and -2 vanish; the weight
    of ml = 2 is close to its peak 1. *)
Lemma angularD_on_diagonal s phi sinT cosT :
  s * s = 1 ->
  sinT * cos phi = s * 0.707 -> cosT = 0 -> sinT * sin phi = s * 0.707 ->
  angularD 1 phi sinT cosT = 0 /\
  angularD (-1) phi sinT cosT = 0 /\
  angularD (-2) phi sinT cosT = 0 /\
  angularD 2 phi sinT cosT = 0.999396091204.
Proof.
  intros Hs Hx Hy Hz. unfold angularD. cbn zeta. rewrite Hy, cos_2a, sin_2a.
  split; [ring|]. split; [ring|]. split.
  - replace (sinT * sinT * (sinT * sinT)
             * (cos phi * cos phi - sin phi * sin phi)
             * (cos phi * cos phi - sin phi * sin phi))
      with ((sinT * cos phi * (sinT * cos phi)
             - sinT * sin phi * (sinT * sin phi))
            * (sinT * cos phi * (sinT * cos phi)
               - sinT * sin phi * (sinT * sin phi))) by ring.
    rewrite Hx, Hz. ring.
  - replace (sinT * sinT * (sinT * sinT) * (2 * sin phi * cos phi)
             * (2 * sin phi * cos phi))
      with (4 * (sinT * cos phi * (sinT * cos phi))
              * (sinT * sin phi * (sinT * sin phi))) by ring.
    rewrite Hx, Hz.
    replace (4 * (s * 0.707 * (s * 0.707)) * (s * 0.707 * (s * 0.707)))
      with (s * s * (s * s) * 0.999396091204) by (decimals; field).
    rewrite Hs. lra.
Qed.

(** On the y axis, the fallback direction of the f sampler, the weight
    of every f orbital but ml = 0 vanishes. *)
Lemma angularF_on_axis ml phi sinT cosT :
  (ml <> 0)%Z -> (-3 <= ml <= 3)%Z ->
  sinT * cos phi = 0 -> sinT * sin phi = 0 ->
  angularF ml phi sinT cosT = 0.
Proof.
  intros Hml Hr Hx Hz.
  assert (Hs2 : sinT * sinT = 0).
  { pose proof (sin2_cos2 phi) as Ht. unfold Rsqr in Ht.
    replace (sinT * sinT)
      with (sinT * sin phi * (sinT * sin phi)
            + sinT * cos phi * (sinT * cos phi)).
    - rewrite Hx, Hz. ring.
    - replace (sinT * sin phi * (sinT * sin phi)
               + sinT * cos phi * (sinT * cos phi))
        with (sinT * sinT * (sin phi * sin phi + cos phi * cos phi))
        by ring.
      rewrite Ht. ring. }
  assert (Hcases : (ml = 1 \/ ml = -1 \/ ml = 2 \/ ml = -2 \/ ml = 3
                    \/ ml = -3)%Z) by lia.
  destruct Hcases as [ -> | [ -> | [ -> | [ -> | [ -> | -> ] ] ] ] ];
    unfold angularF; cbn zeta; rewrite Hs2, !Rmult_0_l; reflexivity.
Qed.

Lemma sqrt_half_sq : sqrt (1 / 2) * sqrt (1 / 2) = 1 / 2.
Proof. apply sqrt_sqrt. lra. Qed.

(** Each of these weights is positive somewhere on the unit sphere (the
    three d weights reach 1): a direction where it vanishes is not a
    peak. *)
Lemma angularD_positive ml :
  (ml = 1 \/ ml = -1 \/ ml = -2)%Z ->
  exists phi sinT cosT,
    sinT * sinT + cosT * cosT = 1 /\ angularD ml phi sinT cosT = 1.
Proof.
  pose proof sqrt_half_sq as Hh.
  intros [ -> | [ -> | -> ] ].
  - exists 0, (sqrt (1 / 2)), (sqrt (1 / 2)). split; [lra|].
    unfold angularD. cbn zeta. rewrite Hh, cos_0. lra.
  - exists (PI / 2), (sqrt (1 / 2)), (sqrt (1 / 2)). split; [lra|].
    unfold angularD. cbn zeta. rewrite Hh, sin_PI2. lra.
  - exists 0, 1, 0. split; [lra|].
    unfold angularD. cbn zeta. rewrite Rmult_0_r, cos_0. lra.
Qed.

Lemma angularF_positive ml :
  (ml <> 0)%Z -> (-3 <= ml <= 3)%Z ->
  exists phi sinT cosT,
    sinT * sinT + cosT * cosT = 1 /\ 0 < angularF ml phi sinT cosT.
Proof.
  pose proof sqrt_half_sq as Hh.
  intros Hml Hr.
  assert (Hcases : (ml = 1 \/ ml = -1 \/ ml = 2 \/ ml = -2 \/ ml = 3
                    \/ ml = -3)%Z) by lia.
  destruct Hcases as [ -> | [ -> | [ -> | [ -> | [ -> | -> ] ] ] ] ].
  - exists 0, 1, 0. split; [lra|].
    unfold angularF. cbn zeta. rewrite cos_0. simpl. lra.
  - exists (PI / 2), 1, 0. split; [lra|].
    unfold angularF. cbn zeta. rewrite sin_PI2. simpl. lra.
  - exists (PI / 4), (sqrt (1 / 2)), (sqrt (1 / 2)). split; [lra|].
    unfold angularF. cbn zeta.
    replace (2 * (PI / 4)) with (PI / 2) by field.
    rewrite Hh, sin_PI2. lra.
  - exists 0, (sqrt (1 / 2)), (sqrt (1 / 2)). split; [lra|].
    unfold angularF. cbn zeta. rewrite Rmult_0_r, Hh, cos_0. lra.
  - exists 0, 1, 0. split; [lra|].
    unfold angularF. cbn zeta. rewrite Rmult_0_r, cos_0. lra.
  - exists (PI / 6), 1, 0. split; [lra|].
    unfold angularF. cbn zeta.
    replace (3 * (PI / 6)) with (PI / 2) by field.
    rewrite sin_PI2. lra.
Qed.

(** ** A stream that exhausts the d and f loops away from ml = 0 *)

(** A polar draw of 0 is the pole [cosT = -1], [sinT = 0]. *)
Lemma pole_sin : sqrt (1 - (2 * 0 - 1) * (2 * 0 - 1)) = 0.
Proof.
  replace (1 - (2 * 0 - 1) * (2 * 0 - 1)) with 0 by ring. apply sqrt_0.
Qed.

Lemma angularD_pole ml phi cosT :
  (ml = 1 \/ ml = -1 \/ ml = 2 \/ ml = -2)%Z ->
  angularD ml phi 0 cosT = 0.
Proof.
  intros [ -> | [ -> | [ -> | -> ] ] ]; unfold angularD; cbn zeta; ring.
Qed.

Lemma angularF_pole ml phi cosT :
  (ml <> 0)%Z -> (-3 <= ml <= 3)%Z -> angularF ml phi 0 cosT = 0.
Proof.
  intros Hml Hr.
  assert (Hcases : (ml = 1 \/ ml = -1 \/ ml = 2 \/ ml = -2 \/ ml = 3
                    \/ ml = -3)%Z) by lia.
  destruct Hcases as [ -> | [ -> | [ -> | [ -> | [ -> | -> ] ] ] ] ];
    unfold angularF; cbn zeta; rewrite !Rmult_0_l; reflexivity.
Qed.

Lemma Rmin_0_1 : Rmin 0 1 = 0.
Proof. unfold Rmin. destruct (Rle_dec 0 1); lra. Qed.

Lemma powFrac_0 e : powFrac 0 e = 0.
Proof. unfold powFrac. destruct (Rle_dec 0 0); [reflexivity|lra]. Qed.

(** A d loop (ml <> 0) whose polar draws are all 0 finds the weight 0 at
    every attempt and rejects them all. *)
Lemma angularLoopD_pole d ml :
  (ml = 1 \/ ml = -1 \/ ml = 2 \/ ml = -2)%Z -> Rand.valid d ->
  forall attempts j,
    (forall a, (a < attempts)%nat -> d (S (j + 3 * a)) = 0) ->
    angularLoopD attempts ml d j = (None, (j + 3 * attempts)%nat).
Proof.
  intros Hml Hd. induction attempts as [|k IH]; intros j Hzero.
  - simpl. unfold Rand.ret. f_equal. lia.
  - cbn [angularLoopD]. unfold Rand.bind, Rand.random at 1 2 3.
    assert (H0 : d (S j) = 0).
    { specialize (Hzero 0%nat ltac:(lia)).
      now replace (j + 3 * 0)%nat with j in Hzero by lia. }
    rewrite H0, pole_sin, (angularD_pole _ _ Hml), powFrac_0, Rmin_0_1.
    destruct (Rlt_dec (d (S (S j))) 0) as [Hneg|_].
    + pose proof (Hd (S (S j))) as [Hge _]. lra.
    + rewrite IH.
      * f_equal. lia.
      * intros a Ha. specialize (Hzero (S a) ltac:(lia)).
        now replace (j + 3 * S a)%nat with (S (S (S j)) + 3 * a)%nat
          in Hzero by lia.
Qed.

Lemma angularLoopF_pole d ml :
  (ml <> 0)%Z -> (-3 <= ml <= 3)%Z -> Rand.valid d ->
  forall attempts j,
    (forall a, (a < attempts)%nat -> d (S (j + 3 * a)) = 0) ->
    angularLoopF attempts ml d j = (None, (j + 3 * attempts)%nat).
Proof.
  intros Hml Hr Hd. induction attempts as [|k IH]; intros j Hzero.
  - simpl. unfold Rand.ret. f_equal. lia.
  - cbn [angularLoopF]. unfold Rand.bind, Rand.random at 1 2 3.
    assert (H0 : d (S j) = 0).
    { specialize (Hzero 0%nat ltac:(lia)).
      now replace (j + 3 * 0)%nat with j in Hzero by lia. }
    rewrite H0, pole_sin, (angularF_pole _ _ Hml Hr).
    replace (Rmin (0 ^ 2) 1) with 0
      by (unfold Rmin; destruct (Rle_dec (0 ^ 2) 1); simpl in *; lra).
    destruct (Rlt_dec (d (S (S j))) 0) as [Hneg|_].
    + pose proof (Hd (S (S j))) as [Hge _]. lra.
    + rewrite IH.
      * f_equal. lia.
      * intros a Ha. specialize (Hzero (S a) ltac:(lia)).
        now replace (j + 3 * S a)%nat with (S (S (S j)) + 3 * a)%nat
          in Hzero by lia.
Qed.

(** [Math.random()] returning 0 at every call. *)
Definition drawsZero (k : nat) : R := 0.

Lemma drawsZero_valid : Rand.valid drawsZero.
Proof. intros k. unfold drawsZero. lra. Qed.

(** On that stream the radial loop rejects every attempt (the density is
    0 at the nucleus) and the d loop with ml = -2 does too: the sampler
    returns the two fallbacks. *)
Lemma sampleDOrbital_drawsZero :
  sampleDOrbital 3 (-2) drawsZero 0%nat
  = (mkSample (Vec3.mk 2.29775 0 2.29775) 0.24, 2501%nat).
Proof.
  assert (H1 : sampleRadius 3 2 drawsZero 0%nat
               = (radialFallback 3, 1000%nat)).
  { apply (@RadialSamplingFacts.sampleRadius_exhausted 3 2 drawsZero 0%nat).
    intros a Ha. apply RadialSamplingFacts.rejects_at_zero.
    - apply RadialSamplingFacts.probMaxOf_nonneg.
    - exact drawsZero_valid.
    - reflexivity. }
  assert (H2 : angularLoopD 500 (-2) drawsZero 1000%nat = (None, 2500%nat)).
  { apply (@angularLoopD_pole drawsZero (-2) ltac:(lia) drawsZero_valid
             500%nat 1000%nat).
    intros a Ha. reflexivity. }
  rewrite (@sampleDOrbital_exhausted 3 (-2) drawsZero 0%nat _ _ _ H1 H2).
  f_equal.
  assert (Hs : signOf (drawsZero 2500%nat) = 1).
  { unfold signOf, drawsZero. destruct (Rlt_dec 0 0.5); lra. }
  rewrite Hs. change ((-2 =? 0)%Z) with false. cbv iota.
  unfold finish, radialFallback, radialScale.
  cbn [dx dy dz angularVal r radialDensity].
  f_equal; [f_equal|]; lra.
Qed.

(** C4, on the code. For every n, l, ml, every integer count and every
    stream of draws, [sampleOrbitalPositions] returns exactly count samples
    (none for a count below 0): a sampler whose angular loop is exhausted
    returns a fallback sample instead of dropping it. The fallback carries
    a sign drawn at random. For a p orbital it is the lobe axis chosen by
    ml, with two small random components across it, normalised, of angular
    weight at least 0.98 (the peak is 1); for the d and the f orbital with
    ml = 0 it is the y axis, where the weight has its peak (1 and 0.4).
    For a d orbital with ml <> 0 it is the diagonal (s 0.707, 0, s 0.707)
    with the recorded weight 0.8, and for an f orbital with ml <> 0 the y
    axis with the recorded weight 0.7: there the weights of the d orbitals
    with ml = 1, -1, -2 and of the f orbitals with ml = 1, -1, 2, -2, 3, -3
    are 0, although each of them is positive elsewhere on the sphere (the
    three d weights reach 1), so the sample is put on a nodal surface and
    not on a direction of peak density; only for ml = 2 is the diagonal
    next to a peak (weight 0.999396091204). With [Math.random()] returning 0
    at every call, sampleOrbitalPositions(3, 2, -2, 1) returns the one
    sample (2.29775, 0, 2.29775) of density 0.24 on a node of that
    orbital. *)
Theorem sampleOrbitalPositions_fallback :
  (forall n l ml count d i,
     List.length (fst (sampleOrbitalPositions n l ml count d i))
     = Z.to_nat count) /\
  (forall n ml,
     sampleOne n 1 ml = samplePOrbital n ml /\
     sampleOne n 2 ml = sampleDOrbital n ml /\
     sampleOne n 3 ml = sampleFOrbital n ml) /\
  (forall n ml d i rs j1 j2,
     Rand.valid d ->
     sampleRadius n 1 d i = (rs, j1) ->
     angularLoopP 500 ml d j1 = (None, j2) ->
     exists dir,
       samplePOrbital n ml d i = (finish rs dir, (j2 + 3)%nat) /\
       0.98 <= angularP ml (dx dir) (dy dir) (dz dir) <= 1 /\
       angularVal dir = 0.9 /\
       0 < signOf (d j2)
           * (if (ml =? 0)%Z then dy dir
              else if (ml =? 1)%Z then dx dir else dz dir)) /\
  (forall n ml d i rs j1 j2,
     sampleRadius n 2 d i = (rs, j1) ->
     angularLoopD 500 ml d j1 = (None, j2) ->
     sampleDOrbital n ml d i
     = (finish rs (if (ml =? 0)%Z
                   then mkDirection 0 (signOf (d j2)) 0 0.8
                   else mkDirection (signOf (d j2) * 0.707) 0
                                    (signOf (d j2) * 0.707) 0.8),
        S j2)) /\
  (forall n ml d i rs j1 j2,
     sampleRadius n 3 d i = (rs, j1) ->
     angularLoopF 500 ml d j1 = (None, j2) ->
     sampleFOrbital n ml d i
     = (finish rs (mkDirection 0 (signOf (d j2)) 0 0.7), S j2)) /\
  (forall u, signOf u = 1 \/ signOf u = -1) /\
  (forall phi sinT cosT, -1 <= cosT <= 1 ->
     angularD 0 phi sinT cosT <= 1 /\
     angularD 0 phi sinT 1 = 1 /\ angularD 0 phi sinT (-1) = 1) /\
  (forall phi sinT cosT, -1 <= cosT <= 1 ->
     angularF 0 phi sinT cosT <= 0.4 /\
     angularF 0 phi sinT 1 = 0.4 /\ angularF 0 phi sinT (-1) = 0.4) /\
  (forall s phi sinT cosT,
     s * s = 1 ->
     sinT * cos phi = s * 0.707 -> cosT = 0 -> sinT * sin phi = s * 0.707 ->
     angularD 1 phi sinT cosT = 0 /\
     angularD (-1) phi sinT cosT = 0 /\
     angularD (-2) phi sinT cosT = 0 /\
     angularD 2 phi sinT cosT = 0.999396091204) /\
  (forall ml phi sinT cosT,
     (ml <> 0)%Z -> (-3 <= ml <= 3)%Z ->
     sinT * cos phi = 0 -> sinT * sin phi = 0 ->
     angularF ml phi sinT cosT = 0) /\
  (forall ml, (ml = 1 \/ ml = -1 \/ ml = -2)%Z ->
     exists phi sinT cosT,
       sinT * sinT + cosT * cosT = 1 /\ angularD ml phi sinT cosT = 1) /\
  (forall ml, (ml <> 0)%Z -> (-3 <= ml <= 3)%Z ->
     exists phi sinT cosT,
       sinT * sinT + cosT * cosT = 1 /\ 0 < angularF ml phi sinT cosT) /\
  Rand.valid drawsZero /\
  sampleOrbitalPositions 3 2 (-2) 1 drawsZero 0%nat
  = ([mkSample (Vec3.mk 2.29775 0 2.29775) 0.24], 2501%nat).
Proof.
  split; [intros; apply sampleOrbitalPositions_length|].
  split; [intros; repeat split|].
  split.
  { intros n ml d i rs j1 j2 Hd H1 H2.
    exists (fst (fallbackP ml d j2)).
    split; [eapply samplePOrbital_exhausted; eassumption|].
    now apply fallbackP_in_lobe. }
  split; [intros n ml d i rs j1 j2 H1 H2;
          eapply sampleDOrbital_exhausted; eassumption|].
  split; [intros n ml d i rs j1 j2 H1 H2;
          eapply sampleFOrbital_exhausted; eassumption|].
  split; [apply signOf_cases|].
  split; [intros; now apply angularD_0_peak|].
  split; [intros; now apply angularF_0_peak|].
  split; [intros; now apply angularD_on_diagonal with (s := s)|].
  split; [intros; now apply angularF_on_axis|].
  split; [apply angularD_positive|].
  split; [apply angularF_positive|].
  split; [apply drawsZero_valid|].
  unfold sampleOrbitalPositions.
  change (Z.to_nat 1) with 1%nat. cbn [sampleLoop sampleOne].
  unfold Rand.bind. rewrite sampleDOrbital_drawsZero. reflexivity.
Qed.

End SamplerFacts.

(* ================================================================== *)
(** * Theorems: range and monotonicity of the heatmap *)
(* ================================================================== *)

Module HeatmapRange.
Import Heatmap.
Local Open Scope R_scope.

(** Relative luminance of a colour (Rec. 709 weights). *)
Definition luma (c : Color) : R := 0.2126 * r c + 0.7152 * g c + 0.0722 * b c.

Definition inUnit (c : Color) : Prop :=
  0 <= r c <= 1 /\ 0 <= g c <= 1 /\ 0 <= b c <= 1.

Lemma rampSpec_unit u : 0 <= u <= 1 -> inUnit (rampSpec u).
Proof.
  intros Hu. unfold inUnit, rampSpec, lerp, deepPurple, magenta, orange,
    yellow, white.
  repeat (destruct (Rlt_dec _ _)); simpl; lra.
Qed.

Lemma rampSpec_luma_mono u v :
  0 <= u -> u < v -> v <= 1 -> luma (rampSpec u) < luma (rampSpec v).
Proof.
  intros Hu Huv Hv. unfold luma, rampSpec, lerp, deepPurple, magenta, orange,
    yellow, white.
  repeat (destruct (Rlt_dec _ _)); simpl; lra.
Qed.

Lemma clamp01_mono s t : s <= t -> clamp01 s <= clamp01 t.
Proof.
  intros H. unfold clamp01, Rmax, Rmin.
  repeat (destruct (Rle_dec _ _)); lra.
Qed.

Lemma densityToHeatmap_unit t : inUnit (densityToHeatmap t).
Proof.
  rewrite HeatmapFacts.densityToHeatmap_rampSpec.
  apply rampSpec_unit, HeatmapFacts.clamp01_range.
Qed.

Lemma rampSpec_rg_mono u v :
  0 <= u -> u <= v -> v <= 1 ->
  r (rampSpec u) <= r (rampSpec v) /\ g (rampSpec u) <= g (rampSpec v).
Proof.
  intros Hu Huv Hv. unfold rampSpec, lerp, deepPurple, magenta, orange,
    yellow, white.
  repeat (destruct (Rlt_dec _ _)); simpl; lra.
Qed.

(** X1. Every channel of [densityToHeatmap t] lies in [0,1], for every
    number t. *)
Theorem densityToHeatmap_channels (t : R) :
  let c := densityToHeatmap t in
  0 <= r c <= 1 /\ 0 <= g c <= 1 /\ 0 <= b c <= 1.
Proof. apply densityToHeatmap_unit. Qed.

(** X2. The ramp never gets darker: as its argument grows the red and
    the green channel of [densityToHeatmap] never decrease, and the
    relative luminance 0.2126 r + 0.7152 g + 0.0722 b never decreases and
    is strictly increasing on [0,1]. The blue channel is not monotone: it
    is 0.7 at 0.25 and 0.05 at 0.75. *)
Theorem densityToHeatmap_luma_monotone (s t : R) :
  s <= t ->
  r (densityToHeatmap s) <= r (densityToHeatmap t) /\
  g (densityToHeatmap s) <= g (densityToHeatmap t) /\
  b (densityToHeatmap 0.75) < b (densityToHeatmap 0.25) /\
  luma (densityToHeatmap s) <= luma (densityToHeatmap t) /\
  (0 <= s -> s < t -> t <= 1 ->
   luma (densityToHeatmap s) < luma (densityToHeatmap t)).
Proof.
  intros Hst. rewrite !HeatmapFacts.densityToHeatmap_rampSpec.
  assert (Hrg : r (rampSpec (clamp01 s)) <= r (rampSpec (clamp01 t)) /\
                g (rampSpec (clamp01 s)) <= g (rampSpec (clamp01 t))).
  { pose proof (@clamp01_mono s t Hst) as Hc.
    pose proof (HeatmapFacts.clamp01_range s) as Hs.
    pose proof (HeatmapFacts.clamp01_range t) as Ht.
    apply rampSpec_rg_mono; lra. }
  split; [exact (proj1 Hrg)|]. split; [exact (proj2 Hrg)|].
  split.
  { rewrite !HeatmapFacts.clamp01_inside by lra.
    unfold rampSpec, lerp, deepPurple, magenta, orange, yellow, white.
    repeat (destruct (Rlt_dec _ _)); simpl; lra. }
  split.
  - pose proof (@clamp01_mono s t Hst) as Hc.
    pose proof (HeatmapFacts.clamp01_range s) as Hs.
    pose proof (HeatmapFacts.clamp01_range t) as Ht.
    destruct Hc as [Hlt|Heq].
    + left. apply rampSpec_luma_mono; lra.
    + rewrite Heq. lra.
  - intros H0 Hlt H1.
    rewrite !HeatmapFacts.clamp01_inside by lra.
    apply rampSpec_luma_mono; lra.
Qed.

Lemma densityToHeatmap_luma_monotone_witness :
  luma (densityToHeatmap 0.2) <= luma (densityToHeatmap 0.6).
Proof. apply (@densityToHeatmap_luma_monotone 0.2 0.6). lra. Defined.

End HeatmapRange.

(* ================================================================== *)
(** * Theorems: Laguerre values, radial nodes and the sampling ball *)
(* ================================================================== *)


Module RadialRange.
Import Radial RadialSamplingFacts.
Local Open Scope Z_scope.
Local Open Scope R_scope.

(** (k+1)(k+2)...(k+p) / p!, the value of the generalized Laguerre
    polynomial of degree p and order k at 0. *)
Fixpoint risingOverFactorial (p : nat) (k : R) : R :=
  match p with
  | O => 1
  | S q => risingOverFactorial q k * (k + INR (S q)) / INR (S q)
  end.

Lemma laguerreSpec_at_0 k : forall d,
  laguerreSpec d k 0 = risingOverFactorial d k /\
  laguerreSpec (S d) k 0 = risingOverFactorial (S d) k.
Proof.
  induction d as [|d [IH0 IH1]].
  - split; simpl; field.
  - split; [exact IH1|].
    rewrite RadialBound.laguerreSpec_SS, IH0, IH1.
    cbn [risingOverFactorial].
    assert (H1 : INR (S d) <> 0) by (apply not_0_INR; lia).
    assert (H2 : INR (S (S d)) <> 0) by (apply not_0_INR; lia).
    rewrite (S_INR (S d)) in *. field. split; assumption.
Qed.

(** X3. At x = 0 [laguerreL p k] is (k+1)(k+2)...(k+p) / p! for every
    degree p >= 0 and every order k: the loop computes the generalized
    Laguerre polynomial's value at the origin, the binomial coefficient
    C(p+k, p) when k is a natural number. *)
Theorem laguerreL_at_zero (p : Z) (k : R) :
  (0 <= p)%Z -> laguerreL p k 0 = risingOverFactorial (Z.to_nat p) k.
Proof.
  intros Hp. rewrite RadialFacts.laguerreL_spec by exact Hp.
  apply laguerreSpec_at_0.
Qed.

Lemma laguerreL_at_zero_witness : laguerreL 3 1 0 = 4.
Proof.
  rewrite (@laguerreL_at_zero 3 1) by lia. simpl. field.
Defined.

Lemma laguerreL_low p k x :
  (p < 0 \/ p = 1)%Z -> laguerreL p k x = 1 + k - x.
Proof.
  intros Hp. unfold laguerreL.
  destruct (Z.eqb_spec p 0) as [E|_]; [lia|].
  destruct (Z.eqb_spec p 1) as [_|N]; [reflexivity|].
  apply RadialFacts.laguerreLoop_guard. lia.
Qed.

(** X4. Quantum numbers with l >= n are not rejected: the degree
    n - l - 1 of the polynomial is negative then, [laguerreL] skips its
    loop and returns the polynomial of degree 1, so [radialProbability]
    gives the density of the pair (l + 2, l). *)
Theorem radialProbability_invalid_pair (n l : Z) (rho : R) :
  (n <= l)%Z ->
  laguerreL (n - l - 1) (IZR (2 * l + 1)) rho = 1 + IZR (2 * l + 1) - rho /\
  radialProbability n l rho = radialProbability (l + 2) l rho.
Proof.
  intros Hnl.
  assert (H1 : laguerreL (n - l - 1) (IZR (2 * l + 1)) rho
               = 1 + IZR (2 * l + 1) - rho)
    by (apply laguerreL_low; lia).
  split; [exact H1|].
  unfold radialProbability. cbn zeta. rewrite H1.
  rewrite (@laguerreL_low (l + 2 - l - 1)) by lia. reflexivity.
Qed.

Lemma radialProbability_invalid_pair_witness :
  radialProbability 1 1 2 = radialProbability 3 1 2.
Proof. apply (@radialProbability_invalid_pair 1 1 2). lia. Defined.

(** X5. For l >= 0 the radial density is never negative, vanishes at
    rho = 0, and away from 0 it vanishes exactly at the roots of the
    Laguerre polynomial: the radial nodes of the cloud are the zeros of
    [laguerreL (n - l - 1) (2l + 1)]. *)
Theorem radialProbability_nodes (n l : Z) (rho : R) :
  (0 <= l)%Z ->
  0 <= radialProbability n l rho /\
  radialProbability n l 0 = 0 /\
  (rho <> 0 ->
   (radialProbability n l rho = 0
    <-> laguerreL (n - l - 1) (IZR (2 * l + 1)) rho = 0)).
Proof.
  intros _.
  split; [apply radialProbability_nonneg|].
  split; [apply radialProbability_at_0|].
  intros Hrho. unfold radialProbability. cbn zeta.
  set (L := laguerreL (n - l - 1) (IZR (2 * l + 1)) rho).
  pose proof (exp_pos (- rho / 2)) as He.
  pose proof (powerRZ_NOR rho l Hrho) as Hp.
  split.
  - intros H.
    assert (H2 : rho * (powerRZ rho l * L * exp (- rho / 2)) = 0).
    { apply Rsqr_0_uniq. unfold Rsqr. rewrite <- H. ring. }
    apply Rmult_integral in H2. destruct H2 as [H2|H2]; [contradiction|].
    apply Rmult_integral in H2. destruct H2 as [H2|H2]; [|lra].
    apply Rmult_integral in H2. destruct H2 as [H2|H2];
      [contradiction|exact H2].
  - intros ->. ring.
Qed.

(** The 2p density at the nucleus. *)
Lemma radialProbability_nodes_witness : radialProbability 2 1 0 = 0.
Proof.
  assert (Hl : (0 <= 1)%Z) by lia.
  exact (proj1 (proj2 (@radialProbability_nodes 2 1 0 Hl))).
Defined.

Definition ballRadius (n : Z) : R :=
  radialScale n * rhoMaxOf n / (2 * IZR n).

(** The radius [sampleRadius] returns is positive and at most
    [ballRadius n], whatever [l] is; an accepted attempt never has
    rho = 0, where the density vanishes. *)
Lemma sampleRadius_ball n l d i :
  (1 <= n)%Z -> Rand.valid d ->
  0 < r (fst (sampleRadius n l d i)) <= ballRadius n /\
  exists a, (1 <= a <= 500)%nat /\
            snd (sampleRadius n l d i) = (i + 2 * a)%nat.
Proof.
  intros Hn Hd.
  assert (HR : 0 < radialScale n).
  { unfold radialScale. apply IZR_le in Hn. lra. }
  assert (Hrho : 0 < rhoMaxOf n) by (unfold rhoMaxOf; apply IZR_lt; lia).
  assert (Hn1 : 1 <= IZR n) by (apply IZR_le; lia).
  assert (Hb : 0 < radialScale n * rhoMaxOf n / (2 * IZR n)).
  { apply Rmult_lt_0_compat; [apply Rmult_lt_0_compat; lra|].
    apply Rinv_0_lt_compat. lra. }
  assert (Hball : radialScale n * 0.5 <= ballRadius n).
  { unfold ballRadius, Rdiv. rewrite Rmult_assoc.
    apply Rmult_le_compat_l; [lra|].
    apply Rmult_le_reg_r with (2 * IZR n); [lra|].
    replace (rhoMaxOf n * / (2 * IZR n) * (2 * IZR n)) with (rhoMaxOf n)
      by (field; lra).
    unfold rhoMaxOf. rewrite plus_IZR, mult_IZR. lra. }
  unfold sampleRadius, Rand.bind.
  pose proof (rejectionLoop_spec n l (radialScale n) (rhoMaxOf n)
                (probMaxOf n l) d 500 i) as H.
  destruct (rejectionLoop 500 n l (radialScale n) (rhoMaxOf n)
              (probMaxOf n l) d i) as [[s0|] j0]; cbn [fst snd Rand.ret].
  - destruct H as [a [Ha [Hj [Hacc [_ Hs]]]]].
    pose proof (Hd (i + 2 * a)%nat) as [Hu0 Hu1].
    pose proof (Hd (S (i + 2 * a))) as [Hv0 _].
    pose proof (probMaxOf_nonneg n l) as Hpm.
    unfold accepts in Hacc.
    assert (Hu : 0 < d (i + 2 * a)%nat).
    { destruct Hu0 as [Hu0|Hu0]; [exact Hu0|]. exfalso.
      rewrite <- Hu0, Rmult_0_l, radialProbability_at_0 in Hacc.
      pose proof (Rmult_le_pos _ _ Hv0 Hpm). lra. }
    rewrite Hs. cbn [r]. split; [|exists (S a); split; [lia|exact Hj]].
    set (u := d (i + 2 * a)%nat) in *.
    unfold ballRadius.
    replace (u * rhoMaxOf n * radialScale n / (2 * IZR n))
      with (u * (radialScale n * rhoMaxOf n / (2 * IZR n)))
      by (field; lra).
    set (B := radialScale n * rhoMaxOf n / (2 * IZR n)) in *.
    split; [apply Rmult_lt_0_compat; assumption|].
    rewrite <- (Rmult_1_l B) at 2.
    apply Rmult_le_compat_r; lra.
  - destruct H as [Hj _]. unfold radialFallback. cbn [r].
    split; [lra|]. exists 500%nat. split; [lia|exact Hj].
Qed.

(** For the orbitals of the periodic table the radial density returned is
    positive and at most 1. *)
Lemma sampleRadius_density n l d i :
  (1 <= n <= 7)%Z -> (0 <= l < n)%Z -> Rand.valid d ->
  0 < radialDensity (fst (sampleRadius n l d i)) <= 1.
Proof.
  intros Hn Hl Hd.
  destruct (RadialBound.probMaxOf_dominates Hn Hl) as [Hpos Hdom].
  assert (Hrho : 0 < rhoMaxOf n) by (unfold rhoMaxOf; apply IZR_lt; lia).
  unfold sampleRadius, Rand.bind.
  pose proof (rejectionLoop_spec n l (radialScale n) (rhoMaxOf n)
                (probMaxOf n l) d 500 i) as H.
  destruct (rejectionLoop 500 n l (radialScale n) (rhoMaxOf n)
              (probMaxOf n l) d i) as [[s0|] j0]; cbn [fst snd Rand.ret].
  - destruct H as [a [Ha [Hj [Hacc [_ Hs]]]]].
    pose proof (Hd (i + 2 * a)%nat) as [Hu0 Hu1].
    pose proof (Hd (S (i + 2 * a))) as [Hv0 _].
    unfold accepts in Hacc.
    set (u := d (i + 2 * a)%nat) in *.
    assert (Hrange : 0 <= u * rhoMaxOf n <= rhoMaxOf n).
    { split; [apply Rmult_le_pos; lra|].
      rewrite <- (Rmult_1_l (rhoMaxOf n)) at 2.
      apply Rmult_le_compat_r; lra. }
    pose proof (Hdom _ Hrange) as Hle.
    assert (Hp : 0 < radialProbability n l (u * rhoMaxOf n)).
    { pose proof (Rmult_le_pos _ _ Hv0 (Rlt_le _ _ Hpos)). lra. }
    rewrite Hs. cbn [radialDensity]. split.
    + apply Rmult_lt_0_compat; [exact Hp|now apply Rinv_0_lt_compat].
    + apply Rmult_le_reg_r with (probMaxOf n l); [exact Hpos|].
      replace (radialProbability n l (u * rhoMaxOf n) / probMaxOf n l
               * probMaxOf n l)
        with (radialProbability n l (u * rhoMaxOf n)) by (field; lra).
      lra.
  - unfold radialFallback. cbn [radialDensity]. lra.
Qed.

(** X6. For every n >= 1, every l (valid or not) and every stream of
    draws in [0,1), [sampleRadius] reads an even number of draws, between
    2 and 1000, and returns a radius r with
    0 < r <= radialScale(n) (3n + 4) / (2n): no sample sits on the nucleus
    and none leaves that ball. *)
Theorem sampleRadius_within_ball (n l : Z) (d : nat -> R) (i : nat) :
  (1 <= n)%Z -> Rand.valid d ->
  0 < r (fst (sampleRadius n l d i)) <= ballRadius n /\
  exists a, (1 <= a <= 500)%nat /\
            snd (sampleRadius n l d i) = (i + 2 * a)%nat.
Proof. apply sampleRadius_ball. Qed.

Lemma sampleRadius_within_ball_witness :
  0 < r (fst (sampleRadius 2 1 (fun _ => 0) 0%nat)) <= ballRadius 2.
Proof.
  apply (@sampleRadius_within_ball 2 1 (fun _ => 0) 0%nat); [lia|].
  intros k. lra.
Defined.

End RadialRange.

(* ================================================================== *)
(** * Theorems: angular loops, fallback directions and sample ranges *)
(* ================================================================== *)


Module SamplerGeometry.
Import Radial Sampler RadialSamplingFacts.
Local Open Scope Z_scope.
Local Open Scope R_scope.

(** ** Directions drawn on the unit sphere *)

Lemma mul_bound a b A B :
  0 <= a <= A -> 0 <= b <= B -> 0 <= a * b <= A * B.
Proof.
  intros Ha Hb. split.
  - apply Rmult_le_pos; lra.
  - apply Rmult_le_compat; lra.
Qed.

Lemma prod_unit a b : 0 <= a <= 1 -> 0 <= b <= 1 -> 0 <= a * b <= 1.
Proof.
  intros Ha Hb. pose proof (mul_bound Ha Hb) as H.
  rewrite Rmult_1_l in H. exact H.
Qed.

Lemma sq_bound x m : - m <= x <= m -> 0 <= x * x <= m * m.
Proof.
  intros H. split; [apply Rle_0_sqr|].
  assert (H1 : 0 <= (m - x) * (m + x)) by (apply Rmult_le_pos; lra).
  lra.
Qed.

Lemma sq_le_1 x : -1 <= x <= 1 -> 0 <= x * x <= 1.
Proof.
  intros H. pose proof (@sq_bound x 1 H) as H1. lra.
Qed.

Lemma quarter c : 0 <= c <= 1 -> 0 <= (1 - c) * c * 4 <= 1.
Proof.
  intros H. split.
  - apply Rmult_le_pos; [apply Rmult_le_pos|]; lra.
  - pose proof (Rle_0_sqr (c - 1 / 2)) as Hs. unfold Rsqr in Hs. lra.
Qed.

Lemma polar_unit u theta :
  0 <= u < 1 ->
  let cosP := 2 * u - 1 in
  let sinP := sqrt (1 - cosP * cosP) in
  sinP * sinP = 1 - cosP * cosP /\
  0 <= cosP * cosP <= 1 /\
  (sinP * cos theta) * (sinP * cos theta) + cosP * cosP
  + (sinP * sin theta) * (sinP * sin theta) = 1.
Proof.
  intros Hu cosP sinP.
  assert (Hc1 : -1 <= cosP <= 1) by (subst cosP; lra).
  assert (Hc : 0 <= cosP * cosP <= 1) by (apply sq_le_1; exact Hc1).
  assert (Hs : sinP * sinP = 1 - cosP * cosP)
    by (subst sinP; apply sqrt_sqrt; lra).
  split; [exact Hs|]. split; [exact Hc|].
  pose proof (sin2_cos2 theta) as Ht. unfold Rsqr in Ht.
  replace (sinP * cos theta * (sinP * cos theta) + cosP * cosP
           + sinP * sin theta * (sinP * sin theta))
    with (sinP * sinP * (sin theta * sin theta + cos theta * cos theta)
          + cosP * cosP) by ring.
  rewrite Ht, Hs. ring.
Qed.

Lemma sin_sq_le_1 x : 0 <= sin x * sin x <= 1.
Proof. apply sq_le_1. pose proof (SIN_bound x). lra. Qed.

Lemma cos_sq_le_1 x : 0 <= cos x * cos x <= 1.
Proof. apply sq_le_1. pose proof (COS_bound x). lra. Qed.

(** The angular weights are between 0 and 1 on the unit sphere, for
    every ml. *)
Lemma angularP_range ml x y z :
  x * x + y * y + z * z = 1 -> 0 <= angularP ml x y z <= 1.
Proof.
  intros H. unfold angularP.
  pose proof (Rle_0_sqr x) as Hx. pose proof (Rle_0_sqr y) as Hy.
  pose proof (Rle_0_sqr z) as Hz. unfold Rsqr in *.
  destruct (ml =? 0)%Z; [|destruct (ml =? 1)%Z]; lra.
Qed.

Ltac split_match :=
  repeat match goal with
         | |- context [match ?x with _ => _ end] => destruct x
         end.

Lemma angularD_range ml phi sinT cosT :
  sinT * sinT = 1 - cosT * cosT -> 0 <= cosT * cosT <= 1 ->
  0 <= angularD ml phi sinT cosT <= 1.
Proof.
  intros Hs Hc. unfold angularD. cbn zeta. rewrite Hs.
  set (c2 := cosT * cosT) in *. clearbody c2. clear Hs.
  set (s2 := 1 - c2).
  assert (Hs2 : 0 <= s2 <= 1) by (subst s2; lra).
  assert (Hsc : 0 <= s2 * c2 * 4 <= 1) by (apply quarter; exact Hc).
  pose proof (cos_sq_le_1 phi) as Hcp. pose proof (sin_sq_le_1 phi) as Hsp.
  pose proof (cos_sq_le_1 (2 * phi)) as Hc2p.
  pose proof (sin_sq_le_1 (2 * phi)) as Hs2p.
  pose proof (prod_unit Hs2 Hs2) as Hs4.
  assert (H0 : 0 <= (3 * c2 - 1) ^ 2 / 4 <= 1).
  { assert (Hb : - (2) <= 3 * c2 - 1 <= 2) by lra.
    pose proof (@sq_bound (3 * c2 - 1) 2 Hb) as Hq.
    replace ((3 * c2 - 1) ^ 2) with ((3 * c2 - 1) * (3 * c2 - 1)) by ring.
    lra. }
  split_match; try lra.
  all: match goal with
       | |- 0 <= ?s * ?c * ?a * ?b * 4 <= 1 =>
           replace (s * c * a * b * 4) with (s * c * 4 * (a * b)) by ring
       | |- 0 <= ?s * ?s * ?a * ?b <= 1 =>
           replace (s * s * a * b) with (s * s * (a * b)) by ring
       end; now apply prod_unit.
Qed.

Lemma angularF_range ml phi sinT cosT :
  sinT * sinT = 1 - cosT * cosT -> 0 <= cosT * cosT <= 1 ->
  0 <= angularF ml phi sinT cosT <= 1.
Proof.
  intros Hs Hc. unfold angularF. cbn zeta.
  replace ((cosT * (5 * (cosT * cosT) - 3)) ^ 2)
    with (cosT * cosT * ((5 * (cosT * cosT) - 3) * (5 * (cosT * cosT) - 3)))
    by ring.
  rewrite Hs.
  set (c2 := cosT * cosT) in *. clearbody c2. clear Hs.
  set (s2 := 1 - c2).
  assert (Hs2 : 0 <= s2 <= 1) by (subst s2; lra).
  pose proof (cos_sq_le_1 phi) as Hcp. pose proof (sin_sq_le_1 phi) as Hsp.
  pose proof (cos_sq_le_1 (2 * phi)) as Hc2p.
  pose proof (sin_sq_le_1 (2 * phi)) as Hs2p.
  pose proof (cos_sq_le_1 (3 * phi)) as Hc3p.
  pose proof (sin_sq_le_1 (3 * phi)) as Hs3p.
  pose proof (prod_unit Hs2 Hs2) as Hs4.
  pose proof (prod_unit Hs4 Hs2) as Hs6.
  assert (Ha : 0 <= s2 * (5 * c2 - 1) ^ 2 * 0.08 <= 1).
  { replace ((5 * c2 - 1) ^ 2) with ((5 * c2 - 1) * (5 * c2 - 1)) by ring.
    destruct (Rle_dec c2 0.6) as [Hlow|Hhigh].
    - assert (Hb : - (2) <= 5 * c2 - 1 <= 2) by lra.
      pose proof (@sq_bound (5 * c2 - 1) 2 Hb) as Hq.
      pose proof (mul_bound Hs2 Hq) as Hm. lra.
    - assert (Hb : - (4) <= 5 * c2 - 1 <= 4) by lra.
      pose proof (@sq_bound (5 * c2 - 1) 4 Hb) as Hq.
      assert (Hs2' : 0 <= s2 <= 0.4) by (subst s2; lra).
      pose proof (mul_bound Hs2' Hq) as Hm. lra. }
  assert (Hb : 0 <= s2 * s2 * c2 * 2 <= 1).
  { pose proof (quarter Hc) as Hq. fold s2 in Hq.
    assert (Hq' : 0 <= s2 * c2 <= 1 / 4) by lra.
    pose proof (mul_bound Hs2 Hq') as Hm.
    replace (s2 * s2 * c2 * 2) with (s2 * (s2 * c2) * 2) by ring. lra. }
  assert (H0 : 0 <= c2 * ((5 * c2 - 3) * (5 * c2 - 3)) * 0.1 <= 1).
  { assert (Hb3 : - (3) <= 5 * c2 - 3 <= 3) by lra.
    pose proof (@sq_bound (5 * c2 - 3) 3 Hb3) as Hq.
    pose proof (mul_bound Hc Hq) as Hm. lra. }
  split_match; try lra.
  all: match goal with
       | |- 0 <= ?s * ?q * ?a * ?b * 0.08 <= 1 =>
           replace (s * q * a * b * 0.08) with (s * q * 0.08 * (a * b))
             by (decimals; ring)
       | |- 0 <= ?s * ?s * ?c * ?a * ?b * 2 <= 1 =>
           replace (s * s * c * a * b * 2) with (s * s * c * 2 * (a * b))
             by ring
       | |- 0 <= ?s * ?s * ?s * ?a * ?b <= 1 =>
           replace (s * s * s * a * b) with (s * s * s * (a * b))
             by ring
       end; now apply prod_unit.
Qed.

(** ** The angular rejection loops *)

Definition norm2 (dir : Direction) : R :=
  dx dir * dx dir + dy dir * dy dir + dz dir * dz dir.

Lemma powFrac_pos a e : 0 < powFrac a e -> 0 < a.
Proof. unfold powFrac. destruct (Rle_dec a 0); lra. Qed.

Lemma Rmin_1_pos a : 0 < Rmin a 1 -> 0 < a.
Proof. unfold Rmin. destruct (Rle_dec a 1); lra. Qed.

(** What a loop that reads three draws per attempt leaves behind. *)
Definition loopSpec (res : option Direction * nat) (attempts i : nat)
    : Prop :=
  match res with
  | (Some dir, j) =>
      norm2 dir = 1 /\ 0 < angularVal dir <= 1 /\
      exists k, (k < attempts)%nat /\ j = (i + 3 * S k)%nat
  | (None, j) => j = (i + 3 * attempts)%nat
  end.

Lemma loopSpec_step res k i :
  loopSpec res k (S (S (S i))) -> loopSpec res (S k) i.
Proof.
  destruct res as [[dir|] j]; cbn [loopSpec].
  - intros [Hn [Hv [a [Ha Hj]]]]. split; [exact Hn|]. split; [exact Hv|].
    exists (S a). split; lia.
  - lia.
Qed.

Lemma loopSpec_accept x y z v k i :
  x * x + y * y + z * z = 1 -> 0 < v <= 1 ->
  loopSpec (Some (mkDirection x y z v), S (S (S i))) (S k) i.
Proof.
  intros Hn Hv. cbn [loopSpec]. split; [exact Hn|]. split; [exact Hv|].
  exists 0%nat. split; lia.
Qed.

Lemma angularLoopP_spec d ml : Rand.valid d -> forall attempts i,
  loopSpec (angularLoopP attempts ml d i) attempts i.
Proof.
  intros Hd. induction attempts as [|k IH]; intros i.
  - simpl. lia.
  - cbn [angularLoopP]. unfold Rand.bind, Rand.random at 1 2 3.
    destruct (polar_unit (d i * 2 * PI) (Hd (S i))) as [Hs [Hc Hunit]].
    cbn zeta in Hs, Hc, Hunit.
    match goal with
    | |- context [Rlt_dec ?u ?p] => destruct (Rlt_dec u p) as [Hacc|_]
    end.
    + unfold Rand.ret. apply loopSpec_accept; [exact Hunit|].
      pose proof (Hd (S (S i))) as [Hu _].
      split; [apply powFrac_pos with 3.5; lra|].
      now apply angularP_range.
    + apply loopSpec_step, IH.
Qed.

Lemma angularLoopD_spec d ml : Rand.valid d -> forall attempts i,
  loopSpec (angularLoopD attempts ml d i) attempts i.
Proof.
  intros Hd. induction attempts as [|k IH]; intros i.
  - simpl. lia.
  - cbn [angularLoopD]. unfold Rand.bind, Rand.random at 1 2 3.
    destruct (polar_unit (d i * 2 * PI) (Hd (S i))) as [Hs [Hc Hunit]].
    cbn zeta in Hs, Hc, Hunit.
    match goal with
    | |- context [Rlt_dec ?u ?p] => destruct (Rlt_dec u p) as [Hacc|_]
    end.
    + unfold Rand.ret. apply loopSpec_accept; [exact Hunit|].
      pose proof (Hd (S (S i))) as [Hu _].
      split; [|now apply angularD_range].
      apply powFrac_pos with 2.5, Rmin_1_pos. lra.
    + apply loopSpec_step, IH.
Qed.

Lemma angularLoopF_spec d ml : Rand.valid d -> forall attempts i,
  loopSpec (angularLoopF attempts ml d i) attempts i.
Proof.
  intros Hd. induction attempts as [|k IH]; intros i.
  - simpl. lia.
  - cbn [angularLoopF]. unfold Rand.bind, Rand.random at 1 2 3.
    destruct (polar_unit (d i * 2 * PI) (Hd (S i))) as [Hs [Hc Hunit]].
    cbn zeta in Hs, Hc, Hunit.
    match goal with
    | |- context [Rlt_dec ?u ?p] => destruct (Rlt_dec u p) as [Hacc|_]
    end.
    + unfold Rand.ret. apply loopSpec_accept; [exact Hunit|].
      pose proof (Hd (S (S i))) as [Hu _].
      pose proof (angularF_range ml (d i * 2 * PI) Hs Hc) as Hr.
      split; [|exact (proj2 Hr)].
      assert (Hsq : 0 < angularF ml (d i * 2 * PI)
                          (sqrt (1 - (2 * d (S i) - 1) * (2 * d (S i) - 1)))
                          (2 * d (S i) - 1) ^ 2)
        by (apply Rmin_1_pos; lra).
      destruct (proj1 Hr) as [Hpos|Hzero]; [exact Hpos|].
      rewrite <- Hzero in Hsq. simpl in Hsq. lra.
    + apply loopSpec_step, IH.
Qed.

(** ** The fallback directions *)

Lemma normalized_unit x y z :
  0 < x * x + y * y + z * z ->
  let len := sqrt (x * x + y * y + z * z) in
  x / len * (x / len) + y / len * (y / len) + z / len * (z / len) = 1.
Proof.
  intros Hq len.
  assert (Hlen : len * len = x * x + y * y + z * z)
    by (apply sqrt_sqrt; lra).
  assert (Hpos : 0 < len) by (apply sqrt_lt_R0; exact Hq).
  replace (x / len * (x / len) + y / len * (y / len) + z / len * (z / len))
    with ((x * x + y * y + z * z) / (len * len)) by (field; lra).
  rewrite Hlen. field. lra.
Qed.

Lemma signOf_sq u : SamplerFacts.signOf u * SamplerFacts.signOf u = 1.
Proof.
  destruct (SamplerFacts.signOf_cases u) as [E|E]; rewrite E; lra.
Qed.

Lemma fallbackP_norm ml d j : norm2 (fst (fallbackP ml d j)) = 1.
Proof.
  unfold fallbackP, randomSign, Rand.bind, Rand.random, Rand.ret.
  cbn [fst]. fold (SamplerFacts.signOf (d j)).
  pose proof (signOf_sq (d j)) as Hs.
  set (s := SamplerFacts.signOf (d j)) in *.
  set (a := (d (S j) - 0.5) * 0.15).
  set (c := (d (S (S j)) - 0.5) * 0.15).
  pose proof (Rle_0_sqr a) as Ha. pose proof (Rle_0_sqr c) as Hc.
  unfold Rsqr in Ha, Hc. unfold norm2.
  destruct (ml =? 0)%Z; [|destruct (ml =? 1)%Z];
    cbn [dx dy dz Vec3.x Vec3.y Vec3.z]; unfold Vec3.length;
    cbn [Vec3.x Vec3.y Vec3.z]; apply normalized_unit; lra.
Qed.

Lemma fallbackD_norm ml d j :
  norm2 (fst (fallbackD ml d j))
  = if (ml =? 0)%Z then 1 else 0.999698.
Proof.
  unfold fallbackD, randomSign, Rand.bind, Rand.random, Rand.ret.
  cbn [fst]. fold (SamplerFacts.signOf (d j)).
  pose proof (signOf_sq (d j)) as Hs.
  set (s := SamplerFacts.signOf (d j)) in *. unfold norm2.
  destruct (ml =? 0)%Z; cbn [dx dy dz].
  - lra.
  - replace (s * 0.707 * (s * 0.707) + 0 * 0 + s * 0.707 * (s * 0.707))
      with (s * s * 0.999698) by (decimals; field).
    rewrite Hs. lra.
Qed.

Lemma fallbackF_norm d j : norm2 (fst (fallbackF d j)) = 1.
Proof.
  unfold fallbackF, randomSign, Rand.bind, Rand.random, Rand.ret.
  cbn [fst]. fold (SamplerFacts.signOf (d j)).
  pose proof (signOf_sq (d j)) as Hs. unfold norm2. cbn [dx dy dz]. lra.
Qed.

(** ** One sample *)

(** The [l] with which [sampleOne] calls [sampleRadius]. *)
Definition radialL (l : Z) : Z :=
  match l with
  | 1%Z => 1%Z
  | 2%Z => 2%Z
  | 3%Z => 3%Z
  | _ => 0%Z
  end.

(** A sample is a direction of squared norm [q] scaled by the radius of
    [rs], with the radial density of [rs] scaled by a weight [w]; [k]
    draws were read after the radial ones. *)
Definition shaped (rs : RadialSample) (j1 : nat) (res : Sample * nat)
    : Prop :=
  exists q w,
    Vec3.dot (pos (fst res)) (pos (fst res)) = q * (r rs * r rs) /\
    0.999 <= q <= 1 /\
    density (fst res) = radialDensity rs * w /\ 0 < w <= 1 /\
    (j1 + 1 <= snd res <= j1 + 1503)%nat.

Lemma finish_shaped rs dir j1 j :
  0.999 <= norm2 dir <= 1 -> 0 < angularVal dir <= 1 ->
  (j1 + 1 <= j <= j1 + 1503)%nat ->
  shaped rs j1 (finish rs dir, j).
Proof.
  intros Hn Hv Hj. exists (norm2 dir), (angularVal dir).
  cbn [fst snd finish pos density]. unfold Vec3.dot, norm2 in *.
  cbn [Vec3.x Vec3.y Vec3.z].
  split; [ring|]. split; [exact Hn|]. split; [reflexivity|].
  split; [exact Hv|exact Hj].
Qed.

Lemma sampleSOrbital_shaped n d i :
  Rand.valid d ->
  shaped (fst (sampleRadius n 0 d i)) (snd (sampleRadius n 0 d i))
         (sampleSOrbital n d i).
Proof.
  intros Hd. unfold sampleSOrbital, Rand.bind.
  destruct (sampleRadius n 0 d i) as [rs j1]. cbn [fst snd].
  unfold Rand.random, Rand.ret.
  destruct (polar_unit (d j1 * 2 * PI) (Hd (S j1))) as [Hs [Hc Hunit]].
  cbn zeta in Hs, Hc, Hunit.
  exists 1, 1. cbn [fst snd pos density]. unfold Vec3.dot.
  cbn [Vec3.x Vec3.y Vec3.z].
  split.
  - set (sinP := sqrt (1 - (2 * d (S j1) - 1) * (2 * d (S j1) - 1))) in *.
    set (cosP := 2 * d (S j1) - 1) in *.
    set (theta := d j1 * 2 * PI) in *.
    replace (r rs * sinP * cos theta * (r rs * sinP * cos theta)
             + r rs * cosP * (r rs * cosP)
             + r rs * sinP * sin theta * (r rs * sinP * sin theta))
      with ((sinP * cos theta * (sinP * cos theta) + cosP * cosP
             + sinP * sin theta * (sinP * sin theta)) * (r rs * r rs))
      by ring.
    rewrite Hunit. ring.
  - split; [lra|]. split; [ring|]. split; [lra|lia].
Qed.

Lemma samplePOrbital_shaped n ml d i :
  Rand.valid d ->
  shaped (fst (sampleRadius n 1 d i)) (snd (sampleRadius n 1 d i))
         (samplePOrbital n ml d i).
Proof.
  intros Hd. unfold samplePOrbital, Rand.bind.
  destruct (sampleRadius n 1 d i) as [rs j1]. cbn [fst snd].
  pose proof (@angularLoopP_spec d ml Hd 500%nat j1) as Hloop.
  destruct (angularLoopP 500 ml d j1) as [[dir|] j2]; cbn [loopSpec] in Hloop.
  - destruct Hloop as [Hn [Hv [k [Hk Hj]]]].
    unfold Rand.ret. apply finish_shaped; [lra|exact Hv|lia].
  - pose proof (fallbackP_norm ml d j2) as Hn.
    assert (Hfb : fallbackP ml d j2
                  = (fst (fallbackP ml d j2), S (S (S j2)))) by reflexivity.
    assert (Hv : angularVal (fst (fallbackP ml d j2)) = 0.9) by reflexivity.
    rewrite Hfb. unfold Rand.ret.
    apply finish_shaped; [lra|rewrite Hv; lra|lia].
Qed.

Lemma sampleDOrbital_shaped n ml d i :
  Rand.valid d ->
  shaped (fst (sampleRadius n 2 d i)) (snd (sampleRadius n 2 d i))
         (sampleDOrbital n ml d i).
Proof.
  intros Hd. unfold sampleDOrbital, Rand.bind.
  destruct (sampleRadius n 2 d i) as [rs j1]. cbn [fst snd].
  pose proof (@angularLoopD_spec d ml Hd 500%nat j1) as Hloop.
  destruct (angularLoopD 500 ml d j1) as [[dir|] j2]; cbn [loopSpec] in Hloop.
  - destruct Hloop as [Hn [Hv [k [Hk Hj]]]].
    unfold Rand.ret. apply finish_shaped; [lra|exact Hv|lia].
  - pose proof (fallbackD_norm ml d j2) as Hn.
    assert (Hfb : fallbackD ml d j2 = (fst (fallbackD ml d j2), S j2))
      by reflexivity.
    assert (Hv : angularVal (fst (fallbackD ml d j2)) = 0.8).
    { unfold fallbackD, randomSign, Rand.bind, Rand.random, Rand.ret.
      cbn [fst]. destruct (ml =? 0)%Z; reflexivity. }
    rewrite Hfb. unfold Rand.ret.
    apply finish_shaped; [|rewrite Hv; lra|lia].
    rewrite Hn. destruct (ml =? 0)%Z; lra.
Qed.

Lemma sampleFOrbital_shaped n ml d i :
  Rand.valid d ->
  shaped (fst (sampleRadius n 3 d i)) (snd (sampleRadius n 3 d i))
         (sampleFOrbital n ml d i).
Proof.
  intros Hd. unfold sampleFOrbital, Rand.bind.
  destruct (sampleRadius n 3 d i) as [rs j1]. cbn [fst snd].
  pose proof (@angularLoopF_spec d ml Hd 500%nat j1) as Hloop.
  destruct (angularLoopF 500 ml d j1) as [[dir|] j2]; cbn [loopSpec] in Hloop.
  - destruct Hloop as [Hn [Hv [k [Hk Hj]]]].
    unfold Rand.ret. apply finish_shaped; [lra|exact Hv|lia].
  - pose proof (fallbackF_norm d j2) as Hn.
    assert (Hfb : fallbackF d j2 = (fst (fallbackF d j2), S j2))
      by reflexivity.
    assert (Hv : angularVal (fst (fallbackF d j2)) = 0.7) by reflexivity.
    rewrite Hfb. unfold Rand.ret.
    apply finish_shaped; [lra|rewrite Hv; lra|lia].
Qed.

Lemma sampleOne_cases n l ml :
  l = 1%Z \/ l = 2%Z \/ l = 3%Z \/
  (sampleOne n l ml = sampleSOrbital n /\ radialL l = 0%Z).
Proof.
  destruct l as [|p|p];
    [right; right; right; split; reflexivity| |
     right; right; right; split; reflexivity].
  destruct p as [[q|q|]|[q|q|]|];
    first [ left; reflexivity
          | right; left; reflexivity
          | right; right; left; reflexivity
          | right; right; right; split; reflexivity ].
Qed.

Lemma sampleOne_shaped n l ml d i :
  Rand.valid d ->
  shaped (fst (sampleRadius n (radialL l) d i))
         (snd (sampleRadius n (radialL l) d i))
         (sampleOne n l ml d i).
Proof.
  intros Hd.
  destruct (sampleOne_cases n l ml) as [-> | [-> | [-> | [E1 E2]]]].
  - now apply samplePOrbital_shaped.
  - now apply sampleDOrbital_shaped.
  - now apply sampleFOrbital_shaped.
  - rewrite E1, E2. now apply sampleSOrbital_shaped.
Qed.

(** ** The whole list of samples *)

Lemma sampleLoop_Forall (P : Sample -> Prop) n l ml d :
  (forall i, P (fst (sampleOne n l ml d i))) ->
  forall iterations results i,
    Forall P results ->
    Forall P (fst (sampleLoop iterations n l ml results d i)).
Proof.
  intros HP. induction iterations as [|k IH]; intros results i Hres.
  - exact Hres.
  - cbn [sampleLoop]. unfold Rand.bind.
    pose proof (HP i) as H1.
    destruct (sampleOne n l ml d i) as [s j]. cbn [fst] in H1.
    apply IH. apply Forall_app. split; [exact Hres|].
    constructor; [exact H1|constructor].
Qed.

Lemma sampleLoop_draws n l ml d lo hi :
  (forall i, (i + lo <= snd (sampleOne n l ml d i) <= i + hi)%nat) ->
  forall iterations results i,
    (i + lo * iterations
     <= snd (sampleLoop iterations n l ml results d i)
     <= i + hi * iterations)%nat.
Proof.
  intros HP. induction iterations as [|k IH]; intros results i.
  - simpl. lia.
  - cbn [sampleLoop]. unfold Rand.bind.
    pose proof (HP i) as H1.
    destruct (sampleOne n l ml d i) as [s j]. cbn [snd] in H1.
    specialize (IH (results ++ [s]) j). nia.
Qed.

Lemma sampleOne_in_ball n l ml d i :
  (1 <= n)%Z -> Rand.valid d ->
  0 < Vec3.length (pos (fst (sampleOne n l ml d i)))
    <= RadialRange.ballRadius n.
Proof.
  intros Hn Hd.
  destruct (@sampleOne_shaped n l ml d i Hd)
    as [q [w [Hdot [Hq _]]]].
  destruct (@RadialRange.sampleRadius_ball n (radialL l) d i Hn Hd)
    as [[Hr0 Hr1] _].
  set (rs := fst (sampleRadius n (radialL l) d i)) in *.
  set (B := RadialRange.ballRadius n) in *.
  unfold Vec3.length. unfold Vec3.dot in Hdot. rewrite Hdot.
  assert (Hrr : 0 < r rs * r rs) by (apply Rmult_lt_0_compat; exact Hr0).
  assert (HBB : r rs * r rs <= B * B)
    by (apply Rmult_le_compat; lra).
  assert (Hqr : 0 < q * (r rs * r rs))
    by (apply Rmult_lt_0_compat; lra).
  assert (Hqr1 : q * (r rs * r rs) <= B * B).
  { apply Rle_trans with (1 * (r rs * r rs)); [|lra].
    apply Rmult_le_compat_r; lra. }
  split; [now apply sqrt_lt_R0|].
  rewrite <- (sqrt_square B) by lra. apply sqrt_le_1; lra.
Qed.

Lemma sampleOne_density n l ml d i :
  (1 <= n <= 7)%Z -> (radialL l < n)%Z -> Rand.valid d ->
  0 < density (fst (sampleOne n l ml d i)) <= 1.
Proof.
  intros Hn Hl Hd.
  destruct (@sampleOne_shaped n l ml d i Hd)
    as [q [w [_ [_ [Hden [Hw _]]]]]].
  assert (Hl0 : (0 <= radialL l < n)%Z).
  { split; [|exact Hl]. unfold radialL.
    destruct (sampleOne_cases n l ml) as [-> | [-> | [-> | [_ E]]]];
      try lia. unfold radialL in E. rewrite E. lia. }
  pose proof (@RadialRange.sampleRadius_density n (radialL l) d i
                Hn Hl0 Hd) as Hrd.
  rewrite Hden. split.
  - apply Rmult_lt_0_compat; lra.
  - apply prod_unit; lra.
Qed.

Lemma sampleOne_draws n l ml d i :
  Rand.valid d ->
  (i + 3 <= snd (sampleOne n l ml d i) <= i + 2503)%nat.
Proof.
  intros Hd.
  destruct (@sampleOne_shaped n l ml d i Hd)
    as [q [w [_ [_ [_ [_ Hj]]]]]].
  pose proof (rejectionLoop_spec n (radialL l) (radialScale n) (rhoMaxOf n)
                (probMaxOf n (radialL l)) d 500 i) as H.
  assert (Hr : exists a, (1 <= a <= 500)%nat /\
             snd (sampleRadius n (radialL l) d i) = (i + 2 * a)%nat).
  { unfold sampleRadius, Rand.bind.
    destruct (rejectionLoop 500 n (radialL l) (radialScale n) (rhoMaxOf n)
                (probMaxOf n (radialL l)) d i) as [[s0|] j0];
      cbn [snd Rand.ret].
    - destruct H as [a [Ha [Hj0 _]]]. exists (S a). split; [lia|exact Hj0].
    - destruct H as [Hj0 _]. exists 500%nat. split; [lia|exact Hj0]. }
  destruct Hr as [a [Ha Hr]]. rewrite Hr in Hj. lia.
Qed.

(** X7. [sampleSOrbital] puts the sample on the sphere whose radius is
    the one [sampleRadius n 0] drew, gives it the radial density
    unchanged, and reads exactly two more draws. *)
Theorem sampleSOrbital_sphere (n : Z) (d : nat -> R) (i : nat) :
  Rand.valid d ->
  let rs := fst (sampleRadius n 0 d i) in
  let s := fst (sampleSOrbital n d i) in
  Vec3.dot (pos s) (pos s) = r rs * r rs /\
  density s = radialDensity rs /\
  snd (sampleSOrbital n d i) = (snd (sampleRadius n 0 d i) + 2)%nat.
Proof.
  intros Hd. cbn zeta. unfold sampleSOrbital, Rand.bind.
  destruct (sampleRadius n 0 d i) as [rs j1]. cbn [fst snd].
  unfold Rand.random, Rand.ret.
  destruct (polar_unit (d j1 * 2 * PI) (Hd (S j1))) as [Hs [Hc Hunit]].
  cbn zeta in Hs, Hc, Hunit.
  cbn [fst snd pos density]. unfold Vec3.dot. cbn [Vec3.x Vec3.y Vec3.z].
  split; [|split; [reflexivity|lia]].
  set (sinP := sqrt (1 - (2 * d (S j1) - 1) * (2 * d (S j1) - 1))) in *.
  set (cosP := 2 * d (S j1) - 1) in *.
  set (theta := d j1 * 2 * PI) in *.
  replace (r rs * sinP * cos theta * (r rs * sinP * cos theta)
           + r rs * cosP * (r rs * cosP)
           + r rs * sinP * sin theta * (r rs * sinP * sin theta))
    with ((sinP * cos theta * (sinP * cos theta) + cosP * cosP
           + sinP * sin theta * (sinP * sin theta)) * (r rs * r rs))
    by ring.
  rewrite Hunit. ring.
Qed.

Lemma sampleSOrbital_sphere_witness :
  density (fst (sampleSOrbital 1 (fun _ => 0) 0%nat))
  = radialDensity (fst (sampleRadius 1 0 (fun _ => 0) 0%nat)).
Proof.
  apply (@sampleSOrbital_sphere 1 (fun _ => 0) 0%nat).
  intros k. lra.
Defined.

(** X8. Whatever [ml] is, a direction the rejection loop of
    [samplePOrbital], [sampleDOrbital] or [sampleFOrbital] accepts is a
    unit vector whose angular weight is positive and at most 1 (no
    accepted sample lies on a nodal surface), and the loop has read three
    draws per attempt: 3(k+1) when attempt k accepts, 3 [attempts] when
    none does. *)
Theorem angular_loops_accept (d : nat -> R) (ml : Z) (attempts i : nat) :
  Rand.valid d ->
  loopSpec (angularLoopP attempts ml d i) attempts i /\
  loopSpec (angularLoopD attempts ml d i) attempts i /\
  loopSpec (angularLoopF attempts ml d i) attempts i.
Proof.
  intros Hd. split; [|split].
  - now apply angularLoopP_spec.
  - now apply angularLoopD_spec.
  - now apply angularLoopF_spec.
Qed.

Lemma angular_loops_accept_witness :
  loopSpec (angularLoopP 2 1 (fun _ => 0) 0%nat) 2 0.
Proof.
  apply (@angular_loops_accept (fun _ => 0) 1 2%nat 0%nat).
  intros k. lra.
Defined.

(** X9. The fallback of [samplePOrbital] is a unit vector inside the lobe
    of the orbital: its angular weight is at least 0.98, for every [ml]
    and every draw, while the weight recorded with the sample is 0.9. *)
Theorem fallbackP_unit_in_lobe (ml : Z) (d : nat -> R) (j : nat) :
  Rand.valid d ->
  let dir := fst (fallbackP ml d j) in
  norm2 dir = 1 /\
  0.98 <= angularP ml (dx dir) (dy dir) (dz dir) <= 1 /\
  angularVal dir = 0.9 /\
  snd (fallbackP ml d j) = (j + 3)%nat.
Proof.
  intros Hd dir.
  destruct (@SamplerFacts.fallbackP_in_lobe ml d j Hd) as [Hw [Hv _]].
  split; [apply fallbackP_norm|]. split; [exact Hw|].
  split; [exact Hv|]. cbn. lia.
Qed.

Lemma fallbackP_unit_in_lobe_witness :
  norm2 (fst (fallbackP 0 (fun _ => 0) 0%nat)) = 1.
Proof.
  apply (@fallbackP_unit_in_lobe 0 (fun _ => 0) 0%nat).
  intros k. lra.
Defined.

(** X10. For ml <> 0 the fallback of [sampleDOrbital] is the direction
    (s 0.707, 0, s 0.707) with s the drawn sign: its squared norm is
    0.999698, not 1, and the sample gets the weight 0.8. In every
    spherical parametrisation of that direction the angular weights of
    ml = 1, -1 and -2 are 0 (it lies on their nodal surfaces), and the
    weight of ml = 2 is 0.999396091204. *)
Theorem fallbackD_nodes (ml : Z) (d : nat -> R) (j : nat) :
  ml <> 0%Z ->
  let dir := fst (fallbackD ml d j) in
  dy dir = 0 /\ dx dir = dz dir /\ angularVal dir = 0.8 /\
  norm2 dir = 0.999698 /\
  forall phi sinT cosT,
    sinT * cos phi = dx dir -> cosT = dy dir -> sinT * sin phi = dz dir ->
    angularD 1 phi sinT cosT = 0 /\
    angularD (-1) phi sinT cosT = 0 /\
    angularD (-2) phi sinT cosT = 0 /\
    angularD 2 phi sinT cosT = 0.999396091204.
Proof.
  intros Hml dir.
  pose proof (fallbackD_norm ml d j) as Hn. fold dir in Hn.
  assert (Hdir : dir = mkDirection (SamplerFacts.signOf (d j) * 0.707) 0
                         (SamplerFacts.signOf (d j) * 0.707) 0.8).
  { subst dir. unfold fallbackD, randomSign, Rand.bind, Rand.random,
      Rand.ret. cbn [fst]. fold (SamplerFacts.signOf (d j)).
    destruct (Z.eqb_spec ml 0) as [E|_]; [contradiction|reflexivity]. }
  destruct (Z.eqb_spec ml 0) as [E|_]; [contradiction|].
  pose proof (signOf_sq (d j)) as Hs.
  rewrite Hdir in *. cbn [dx dy dz angularVal].
  set (s := SamplerFacts.signOf (d j)) in *.
  split; [reflexivity|]. split; [reflexivity|]. split; [reflexivity|].
  split; [exact Hn|].
  intros phi sinT cosT Hx Hy Hz. unfold angularD. cbn zeta.
  rewrite Hy, cos_2a, sin_2a.
  split; [ring|]. split; [ring|]. split.
  - replace (sinT * sinT * (sinT * sinT)
             * (cos phi * cos phi - sin phi * sin phi)
             * (cos phi * cos phi - sin phi * sin phi))
      with ((sinT * cos phi * (sinT * cos phi)
             - sinT * sin phi * (sinT * sin phi))
            * (sinT * cos phi * (sinT * cos phi)
               - sinT * sin phi * (sinT * sin phi))) by ring.
    rewrite Hx, Hz. ring.
  - replace (sinT * sinT * (sinT * sinT) * (2 * sin phi * cos phi)
             * (2 * sin phi * cos phi))
      with (4 * (sinT * cos phi * (sinT * cos phi))
              * (sinT * sin phi * (sinT * sin phi))) by ring.
    rewrite Hx, Hz.
    replace (4 * (s * 0.707 * (s * 0.707)) * (s * 0.707 * (s * 0.707)))
      with (s * s * (s * s) * 0.999396091204) by (decimals; field).
    rewrite Hs. lra.
Qed.

Lemma fallbackD_nodes_witness :
  dy (fst (fallbackD 1 (fun _ => 0) 0%nat)) = 0.
Proof. apply (@fallbackD_nodes 1 (fun _ => 0) 0%nat). lia. Defined.

(** X11. The fallback of [sampleFOrbital] is the y axis with the drawn
    sign and the weight 0.7, whatever [ml] is. For ml = 1, -1, 2, -2, 3
    and -3 the angular weight of the orbital is 0 on that axis: the
    fallback puts the sample on a nodal line of every f orbital but the
    one with ml = 0. *)
Theorem fallbackF_nodes (ml : Z) (d : nat -> R) (j : nat) :
  (ml <> 0 /\ -3 <= ml <= 3)%Z ->
  let dir := fst (fallbackF d j) in
  dx dir = 0 /\ dz dir = 0 /\ (dy dir = 1 \/ dy dir = -1) /\
  angularVal dir = 0.7 /\
  forall phi sinT cosT,
    sinT * cos phi = dx dir -> cosT = dy dir -> sinT * sin phi = dz dir ->
    angularF ml phi sinT cosT = 0.
Proof.
  intros [Hml Hr] dir. subst dir.
  unfold fallbackF, randomSign, Rand.bind, Rand.random, Rand.ret.
  cbn [fst dx dy dz angularVal]. fold (SamplerFacts.signOf (d j)).
  split; [reflexivity|]. split; [reflexivity|].
  split; [apply SamplerFacts.signOf_cases|]. split; [reflexivity|].
  intros phi sinT cosT Hx _ Hz.
  assert (Hs2 : sinT * sinT = 0).
  { pose proof (sin2_cos2 phi) as Ht. unfold Rsqr in Ht.
    replace (sinT * sinT)
      with (sinT * sin phi * (sinT * sin phi)
            + sinT * cos phi * (sinT * cos phi)).
    - rewrite Hx, Hz. ring.
    - replace (sinT * sin phi * (sinT * sin phi)
               + sinT * cos phi * (sinT * cos phi))
        with (sinT * sinT * (sin phi * sin phi + cos phi * cos phi))
        by ring.
      rewrite Ht. ring. }
  assert (Hcases : (ml = 1 \/ ml = -1 \/ ml = 2 \/ ml = -2 \/ ml = 3
                    \/ ml = -3)%Z) by lia.
  destruct Hcases as [ -> | [ -> | [ -> | [ -> | [ -> | -> ] ] ] ] ];
    unfold angularF; cbn zeta; rewrite Hs2, !Rmult_0_l; reflexivity.
Qed.

Lemma fallbackF_nodes_witness :
  dx (fst (fallbackF (fun _ => 0) 0%nat)) = 0.
Proof.
  apply (@fallbackF_nodes 3 (fun _ => 0) 0%nat). lia.
Defined.

(** X12. For every n >= 1, every l and ml and every stream of draws in
    [0,1), each sample [sampleOrbitalPositions] returns lies off the
    nucleus and inside the ball of radius radialScale(n) (3n + 4) / (2n)
    around it. *)
Theorem sampleOrbitalPositions_in_ball
    (n l ml count : Z) (d : nat -> R) (i : nat) :
  (1 <= n)%Z -> Rand.valid d ->
  Forall (fun s => 0 < Vec3.length (pos s) <= RadialRange.ballRadius n)
         (fst (sampleOrbitalPositions n l ml count d i)).
Proof.
  intros Hn Hd. unfold sampleOrbitalPositions.
  apply sampleLoop_Forall; [|constructor].
  intros k. now apply sampleOne_in_ball.
Qed.

Lemma sampleOrbitalPositions_in_ball_witness :
  Forall (fun s => 0 < Vec3.length (pos s) <= RadialRange.ballRadius 2)
         (fst (sampleOrbitalPositions 2 1 0 3 (fun _ => 0) 0%nat)).
Proof.
  apply (@sampleOrbitalPositions_in_ball 2 1 0 3 (fun _ => 0) 0%nat);
    [lia|]. intros k. lra.
Defined.

(** X13. For 1 <= n <= 7 and an [l] for which the sampler called has
    l < n (l = 1, 2, 3 select the p, d, f samplers, every other value the
    s sampler), every sample of [sampleOrbitalPositions] has a density
    that is positive and at most 1. *)
Theorem sampleOrbitalPositions_density
    (n l ml count : Z) (d : nat -> R) (i : nat) :
  (1 <= n <= 7)%Z -> (radialL l < n)%Z -> Rand.valid d ->
  Forall (fun s => 0 < density s <= 1)
         (fst (sampleOrbitalPositions n l ml count d i)).
Proof.
  intros Hn Hl Hd. unfold sampleOrbitalPositions.
  apply sampleLoop_Forall; [|constructor].
  intros k. now apply sampleOne_density.
Qed.

Lemma sampleOrbitalPositions_density_witness :
  Forall (fun s => 0 < density s <= 1)
         (fst (sampleOrbitalPositions 3 2 (-1) 4 (fun _ => 0) 0%nat)).
Proof.
  apply (@sampleOrbitalPositions_density 3 2 (-1) 4 (fun _ => 0) 0%nat);
    [lia|simpl; lia|]. intros k. lra.
Defined.

(** X14. [sampleOrbitalPositions] always ends: for a stream of draws in
    [0,1) it reads at least 3 and at most 2503 draws per sample (1000 for
    the radius, 1500 for the direction, 3 for the fallback). *)
Theorem sampleOrbitalPositions_draws
    (n l ml count : Z) (d : nat -> R) (i : nat) :
  Rand.valid d ->
  (i + 3 * Z.to_nat count
   <= snd (sampleOrbitalPositions n l ml count d i)
   <= i + 2503 * Z.to_nat count)%nat.
Proof.
  intros Hd. unfold sampleOrbitalPositions.
  apply sampleLoop_draws. intros k. now apply sampleOne_draws.
Qed.

Lemma sampleOrbitalPositions_draws_witness :
  (0 + 3 * Z.to_nat 2
   <= snd (sampleOrbitalPositions 1 0 0 2 (fun _ => 0%R) 0%nat)
   <= 0 + 2503 * Z.to_nat 2)%nat.
Proof.
  apply (@sampleOrbitalPositions_draws 1 0 0 2 (fun _ => 0) 0%nat).
  intros k. lra.
Defined.

End SamplerGeometry.

(* ================================================================== *)
(** * Theorems: bounds of an animation frame *)
(* ================================================================== *)

Module AnimationBounds.
Import Animation AnimationFacts.
Local Open Scope string_scope.
Local Open Scope R_scope.

(** [opacityBase] of the frame: 0.7 for a highlighted cloud, 0.12 for a
    dimmed one. *)
Definition lit (hl : string) (c : Cloud) : bool :=
  (String.eqb hl "all" || String.eqb hl (label c))%bool.

(** X15. A frame leaves the quantum numbers, the label and the base
    positions of a cloud as they were and sets its opacity, whatever it
    was before (the 0.85, 0.35, 0.15 or 0.8 of the builders), to a value
    in [0.62, 0.78] for a highlighted cloud and in [0.04, 0.20] for a
    dimmed one: the two ranges do not meet, and no cloud becomes fully
    transparent or opaque. *)
Theorem animateCloud_opacity (c : Cloud) (elapsed speed : R) (hl : string) :
  let c' := animateCloud elapsed speed hl c in
  (if lit hl c then 0.62 <= opacity c' <= 0.78
   else 0.04 <= opacity c' <= 0.2) /\
  n c' = n c /\ l c' = l c /\ label c' = label c /\
  basePositions c' = basePositions c /\
  lit hl c' = lit hl c.
Proof.
  cbn zeta. unfold animateCloud, lit. cbn [opacity n l label basePositions].
  pose proof (SIN_bound (phaseOf elapsed speed c * 0.5)) as Hs.
  split; [|repeat split].
  destruct (String.eqb hl "all" || String.eqb hl (label c))%bool; lra.
Qed.

(** X16. In a frame every coordinate of a cloud moves away from its base
    value by at most 4 per cent of that value plus 0.03 times the
    animation speed. *)
Theorem animateCloud_displacement
    (c : Cloud) (elapsed speed : R) (hl : string) (j : nat) :
  List.length (basePositions c) = List.length (positions c) ->
  (j < List.length (positions c))%nat ->
  Rabs (nth j (positions (animateCloud elapsed speed hl c)) 0
        - nth j (basePositions c) 0)
  <= 0.04 * Rabs (nth j (basePositions c) 0) + 0.03 * Rabs speed.
Proof.
  intros _ Hj.
  destruct (animateCloud_positions elapsed speed hl c) as [_ Hnth].
  rewrite Hnth by exact Hj. unfold target, load.
  pose proof (jitterWave_bound elapsed j) as Hw.
  pose proof (SIN_bound (phaseOf elapsed speed c)) as Hs.
  set (b := nth j (basePositions c) 0).
  set (w := jitterWave elapsed j) in *.
  set (s := sin (phaseOf elapsed speed c)) in *.
  replace (b * (1.0 + s * 0.04) + w * (0.03 * speed) - b)
    with (0.04 * (s * b) + 0.03 * (w * speed)) by (decimals; field).
  assert (Hs1 : Rabs s <= 1) by (apply Rabs_le; lra).
  assert (H1 : Rabs (s * b) <= Rabs b).
  { rewrite Rabs_mult. rewrite <- (Rmult_1_l (Rabs b)) at 2.
    apply Rmult_le_compat_r; [apply Rabs_pos|exact Hs1]. }
  assert (H2 : Rabs (w * speed) <= Rabs speed).
  { rewrite Rabs_mult. rewrite <- (Rmult_1_l (Rabs speed)) at 2.
    apply Rmult_le_compat_r; [apply Rabs_pos|exact Hw]. }
  eapply Rle_trans; [apply Rabs_triang|].
  rewrite (Rabs_mult 0.04), (Rabs_mult 0.03).
  rewrite (Rabs_pos_eq 0.04) by lra. rewrite (Rabs_pos_eq 0.03) by lra.
  lra.
Qed.

Lemma animateCloud_displacement_witness :
  Rabs (nth 1 (positions (animateCloud 0 1 "all"
                            (mkCloud [1; 2; 3] [1; 2; 3] 2 1 "2p" 0.85))) 0
        - nth 1 [1; 2; 3] 0)
  <= 0.04 * Rabs (nth 1 [1; 2; 3] 0) + 0.03 * Rabs 1.
Proof.
  apply (@animateCloud_displacement
           (mkCloud [1; 2; 3] [1; 2; 3] 2 1 "2p" 0.85) 0 1 "all" 1%nat).
  - reflexivity.
  - simpl. lia.
Defined.

(** X17. With the animation speed at 0 the frame does not depend on the
    elapsed time: the cloud stands still, at the scale
    1 + 0.04 sin(1.3 n + 0.7 l) of its base positions, not at the base
    positions themselves. *)
Theorem animateCloud_frozen (c : Cloud) (hl : string) (e1 e2 : R) :
  List.length (basePositions c) = List.length (positions c) ->
  animateCloud e1 0 hl c = animateCloud e2 0 hl c /\
  forall j, (j < List.length (positions c))%nat ->
    nth j (positions (animateCloud e1 0 hl c)) 0
    = nth j (basePositions c) 0
      * (1 + 0.04 * sin (1.3 * IZR (n c) + 0.7 * IZR (l c))).
Proof.
  intros _.
  assert (Hphase : forall e, phaseOf e 0 c
                             = 1.3 * IZR (n c) + 0.7 * IZR (l c)).
  { intros e. unfold phaseOf. decimals. field. }
  assert (Hval : forall e j, (j < List.length (positions c))%nat ->
            nth j (positions (animateCloud e 0 hl c)) 0
            = nth j (basePositions c) 0
              * (1 + 0.04 * sin (1.3 * IZR (n c) + 0.7 * IZR (l c)))).
  { intros e j Hj.
    destruct (animateCloud_positions e 0 hl c) as [_ Hnth].
    rewrite Hnth by exact Hj. unfold target, load. rewrite Hphase.
    generalize (sin (1.3 * IZR (n c) + 0.7 * IZR (l c))),
      (jitterWave e j), (nth j (basePositions c) 0).
    intros s w b. decimals. field. }
  split; [|intros j Hj; now apply Hval].
  assert (Hpos : positions (animateCloud e1 0 hl c)
                 = positions (animateCloud e2 0 hl c)).
  { destruct (animateCloud_positions e1 0 hl c) as [Hl1 _].
    destruct (animateCloud_positions e2 0 hl c) as [Hl2 _].
    apply nth_ext with (d := 0) (d' := 0); [congruence|].
    intros j Hj. rewrite !Hval by lia. reflexivity. }
  unfold animateCloud in *. cbn [positions] in Hpos.
  rewrite Hpos, !Hphase. reflexivity.
Qed.

Lemma animateCloud_frozen_witness :
  animateCloud 0 0 "all" (mkCloud [1; 2; 3] [1; 2; 3] 2 1 "2p" 0.85)
  = animateCloud 5 0 "all" (mkCloud [1; 2; 3] [1; 2; 3] 2 1 "2p" 0.85).
Proof.
  apply (@animateCloud_frozen (mkCloud [1; 2; 3] [1; 2; 3] 2 1 "2p" 0.85)
           "all" 0 5).
  reflexivity.
Defined.

End AnimationBounds.

(* ================================================================== *)
(** * Theorems: registers and outcomes of the rebuilds *)
(* ================================================================== *)

Module SceneInvariants.
Import Aufbau Scene SceneFacts.
Local Open Scope Z_scope.

(** ** The registers of a scene *)

(** The point clouds among the children of [atomGroup], in order. *)
Fixpoint cloudsOf (os : list Object) : list Points :=
  match os with
  | [] => []
  | Cloud p _ _ :: rest => p :: cloudsOf rest
  | _ :: rest => cloudsOf rest
  end.

Definition isLabel (o : Object) : bool :=
  match o with
  | Label _ _ => true
  | _ => false
  end.

(** [orbitalClouds] lists the clouds of the scene and [labelSprites] its
    labels, both in the order of the children. *)
Definition consistent (sc : Scene) : Prop :=
  map points (orbitalClouds sc) = cloudsOf (children sc) /\
  labelSprites sc = filter isLabel (children sc).

Lemma cloudsOf_app a : forall b, cloudsOf (a ++ b) = cloudsOf a ++ cloudsOf b.
Proof.
  induction a as [|o a IH]; intros b; [reflexivity|].
  destruct o; simpl; now rewrite IH.
Qed.

Lemma consistent_clear sc : consistent (clear sc).
Proof. split; reflexivity. Qed.

Lemma consistent_setNucleusGroup o sc :
  consistent sc -> consistent (setNucleusGroup o sc).
Proof. intros H. exact H. Qed.

Lemma consistent_addOther o sc :
  cloudsOf [o] = [] -> isLabel o = false ->
  consistent sc -> consistent (addChild o sc).
Proof.
  intros Hc Hl [H1 H2]. split; cbn [addChild children orbitalClouds
                                     labelSprites].
  - now rewrite cloudsOf_app, Hc, app_nil_r.
  - rewrite filter_app. cbn [filter]. now rewrite Hl, app_nil_r.
Qed.

Lemma consistent_addCloud e op pos sc :
  consistent sc ->
  consistent (pushCloud e (addChild (Cloud (points e) op pos) sc)).
Proof.
  intros [H1 H2]. split; cbn [pushCloud addChild children orbitalClouds
                               labelSprites].
  - now rewrite map_app, cloudsOf_app, H1.
  - rewrite filter_app. cbn [filter isLabel]. now rewrite app_nil_r.
Qed.

Lemma consistent_addLabel o sc :
  isLabel o = true -> consistent sc ->
  consistent (pushLabel o (addChild o sc)).
Proof.
  intros Hl [H1 H2]. split; cbn [pushLabel addChild children orbitalClouds
                                  labelSprites].
  - rewrite cloudsOf_app. destruct o; try discriminate. simpl.
    now rewrite app_nil_r.
  - rewrite filter_app. cbn [filter]. now rewrite Hl, H2.
Qed.

Lemma consistent_fold {A} (f : Scene -> A -> Scene) :
  (forall sc a, consistent sc -> consistent (f sc a)) ->
  forall xs sc, consistent sc -> consistent (fold_left f xs sc).
Proof.
  intros Hf. induction xs as [|a xs IH]; intros sc H; simpl; auto.
Qed.

Lemma consistent_addAtomCloud st s dm sc me :
  consistent sc -> consistent (addAtomCloud st s dm sc me).
Proof.
  intros H. destruct me as [ml e]. unfold addAtomCloud.
  exact (@consistent_addCloud
           (mkCloudEntry (OrbitalPoints (n s) (l s) ml e dm) (label s)
                         (n s) (l s) ml) _ _ _ H).
Qed.

Lemma consistent_placeAtomSubshell st sc f :
  consistent sc -> consistent (placeAtomSubshell st sc f).
Proof.
  intros H. unfold placeAtomSubshell.
  assert (Hfold : forall dm,
            consistent (fold_left (addAtomCloud st (sub f) dm)
                          (distributeElectrons (l (sub f)) (electrons f))
                          sc)).
  { intros dm. apply consistent_fold; [|exact H].
    intros sc0 a. apply consistent_addAtomCloud. }
  destruct (showIndividualOrbitals st);
    destruct (showLabels st && isHighlighted st (sub f))%bool;
    try apply consistent_addLabel; try reflexivity; apply Hfold.
Qed.

Lemma consistent_addMoleculeCloud st off s sc me :
  consistent sc -> consistent (addMoleculeCloud st off s sc me).
Proof.
  intros H. destruct me as [ml e]. unfold addMoleculeCloud.
  exact (@consistent_addCloud
           (mkCloudEntry (OrbitalPoints (n s) (l s) ml e
                            (cloudDensity st * 0.4)%R) (label s)
                         (n s) (l s) ml) _ _ _ H).
Qed.

Lemma consistent_placeAtom st sc atom :
  consistent sc -> consistent (placeAtom st sc atom).
Proof.
  intros H. unfold placeAtom.
  destruct (ELEMENTS (atomZ atom)) as [el|]; [|exact H].
  assert (Hfold :
    consistent
      (fold_left (placeMoleculeSubshell st (atomPos atom))
         (getElectronConfiguration (atomZ atom))
         (addChild (buildNucleus st (z el) (neutrons el)
                      (nucleusScale st * 0.7)%R (atomPos atom)) sc))).
  { apply consistent_fold.
    - intros sc0 f H0. unfold placeMoleculeSubshell.
      apply consistent_fold; [|exact H0].
      intros sc1 me. apply consistent_addMoleculeCloud.
    - apply consistent_addOther; [reflexivity|reflexivity|exact H]. }
  destruct (showLabels st); [|exact Hfold].
  apply consistent_addLabel; [reflexivity|exact Hfold].
Qed.

Definition sceneOf (o : Outcome) : Scene :=
  match o with
  | Returned sc => sc
  | Threw _ sc => sc
  end.

Lemma consistent_placeBond st mol acc bond :
  consistent (sceneOf acc) -> consistent (sceneOf (placeBond st mol acc bond)).
Proof.
  intros H. unfold placeBond. destruct acc as [sc|e sc]; [|exact H].
  cbn [sceneOf] in H.
  destruct (nth_error (atoms mol) (from bond)) as [a|]; [|exact H].
  destruct (nth_error (atoms mol) (to bond)) as [b|]; [|exact H].
  assert (Hg : consistent
                 (addChild (BondGroup (Bond.buildBondCylinder (atomPos a)
                              (atomPos b) (order bond) (type bond))) sc))
    by (apply consistent_addOther; [reflexivity|reflexivity|exact H]).
  destruct (buildBondCloud st (atomPos a) (atomPos b) (order bond))
    as [pts|]; cbn [sceneOf]; [|exact Hg].
  exact (@consistent_addCloud (mkCloudEntry pts "bond" 1 0 0) _ _ _ Hg).
Qed.

Lemma consistent_bonds st mol : forall bs acc,
  consistent (sceneOf acc) ->
  consistent (sceneOf (fold_left (placeBond st mol) bs acc)).
Proof.
  induction bs as [|b bs IH]; intros acc H; simpl; [exact H|].
  apply IH. now apply consistent_placeBond.
Qed.

Lemma consistent_rebuildAtom st sc : consistent (sceneOf (rebuildAtom st sc)).
Proof.
  unfold rebuildAtom.
  destruct (ELEMENTS (elementZ st)) as [el|]; cbn [sceneOf];
    [|apply consistent_clear].
  apply consistent_fold; [intros; now apply consistent_placeAtomSubshell|].
  assert (H0 : consistent
                 (addChild (buildNucleus st (z el) (neutrons el)
                              (nucleusScale st) Vec3.zero)
                    (setNucleusGroup
                       (buildNucleus st (z el) (neutrons el)
                          (nucleusScale st) Vec3.zero) (clear sc)))).
  { apply consistent_addOther; [reflexivity|reflexivity|].
    apply consistent_setNucleusGroup, consistent_clear. }
  destruct (showLabels st); [|exact H0].
  apply consistent_addLabel; [reflexivity|exact H0].
Qed.

Lemma consistent_rebuildMoleculeIn cat st sc :
  consistent (sceneOf (rebuildMoleculeIn cat st sc)).
Proof.
  unfold rebuildMoleculeIn.
  destruct (cat (currentMolecule st)) as [mol|]; cbn [sceneOf];
    [|apply consistent_clear].
  apply consistent_bonds. cbn [sceneOf].
  apply consistent_fold; [intros; now apply consistent_placeAtom|].
  apply consistent_clear.
Qed.

(** ** The nucleus register *)

Lemma nucleusGroup_fold {A} (f : Scene -> A -> Scene) :
  (forall sc a, nucleusGroup (f sc a) = nucleusGroup sc) ->
  forall xs sc, nucleusGroup (fold_left f xs sc) = nucleusGroup sc.
Proof.
  intros Hf. induction xs as [|a xs IH]; intros sc; simpl; [reflexivity|].
  now rewrite IH, Hf.
Qed.

Lemma nucleusGroup_addMoleculeCloud st off s sc me :
  nucleusGroup (addMoleculeCloud st off s sc me) = nucleusGroup sc.
Proof. destruct me. reflexivity. Qed.

Lemma nucleusGroup_addAtomCloud st s dm sc me :
  nucleusGroup (addAtomCloud st s dm sc me) = nucleusGroup sc.
Proof. destruct me. reflexivity. Qed.

Lemma nucleusGroup_placeAtomSubshell st sc f :
  nucleusGroup (placeAtomSubshell st sc f) = nucleusGroup sc.
Proof.
  unfold placeAtomSubshell.
  destruct (showIndividualOrbitals st);
    destruct (showLabels st && isHighlighted st (sub f))%bool;
    cbn [pushLabel addChild nucleusGroup];
    apply nucleusGroup_fold; intros; apply nucleusGroup_addAtomCloud.
Qed.

Lemma nucleusGroup_placeAtom st sc atom :
  nucleusGroup (placeAtom st sc atom) = nucleusGroup sc.
Proof.
  unfold placeAtom. destruct (ELEMENTS (atomZ atom)) as [el|]; [|reflexivity].
  destruct (showLabels st); cbn [pushLabel addChild nucleusGroup];
    (rewrite nucleusGroup_fold; [reflexivity|]);
    intros sc0 f; unfold placeMoleculeSubshell;
    apply nucleusGroup_fold; intros; apply nucleusGroup_addMoleculeCloud.
Qed.

(** ** Bonds and their atom indices *)

(** Both ends of every bond are indices of atoms of the molecule. *)
Definition wellFormed (mol : Molecule) : Prop :=
  Forall (fun b => (from b < List.length (atoms mol))%nat
                   /\ (to b < List.length (atoms mol))%nat) (bonds mol).

Lemma MOLECULES_wellFormed key mol :
  MOLECULES key = Some mol -> wellFormed mol.
Proof.
  unfold MOLECULES, wellFormed.
  repeat (destruct (String.eqb key _);
          [intros [= <-]; cbn [bonds atoms from to List.length];
           repeat constructor|]).
  discriminate.
Qed.

Lemma placeBond_returns st mol sc bond :
  (from bond < List.length (atoms mol))%nat ->
  (to bond < List.length (atoms mol))%nat ->
  exists sc', placeBond st mol (Returned sc) bond = Returned sc'
              /\ nucleusGroup sc' = nucleusGroup sc.
Proof.
  intros Hf Ht. unfold placeBond.
  destruct (nth_error (atoms mol) (from bond)) as [a|] eqn:Ea;
    [|apply nth_error_None in Ea; lia].
  destruct (nth_error (atoms mol) (to bond)) as [b|] eqn:Eb;
    [|apply nth_error_None in Eb; lia].
  destruct (buildBondCloud st (atomPos a) (atomPos b) (order bond));
    eexists; split; reflexivity.
Qed.


Lemma bonds_return st mol : forall bs sc,
  Forall (fun b => (from b < List.length (atoms mol))%nat
                   /\ (to b < List.length (atoms mol))%nat) bs ->
  exists sc', fold_left (placeBond st mol) bs (Returned sc) = Returned sc'
              /\ nucleusGroup sc' = nucleusGroup sc.
Proof.
  induction bs as [|b bs IH]; intros sc Hall.
  - exists sc. split; reflexivity.
  - inversion Hall as [|b0 bs0 [Hf Ht] Hrest]; subst.
    destruct (@placeBond_returns st mol sc b Hf Ht) as [sc1 [E1 N1]].
    destruct (IH sc1 Hrest) as [sc2 [E2 N2]].
    exists sc2. cbn [fold_left]. rewrite E1, E2. split; [reflexivity|].
    congruence.
Qed.


Lemma rebuildMoleculeIn_returns cat st sc :
  (forall mol, cat (currentMolecule st) = Some mol -> wellFormed mol) ->
  exists sc', rebuildMoleculeIn cat st sc = Returned sc'
              /\ nucleusGroup sc' = nucleusGroup sc.
Proof.
  intros Hwf. unfold rebuildMoleculeIn.
  destruct (cat (currentMolecule st)) as [mol|] eqn:E.
  - destruct (@bonds_return st mol (bonds mol)
                (fold_left (placeAtom st) (atoms mol) (clear sc))
                (Hwf mol eq_refl)) as [sc' [E' N']].
    exists sc'. split; [exact E'|]. rewrite N'.
    rewrite nucleusGroup_fold; [reflexivity|].
    intros; apply nucleusGroup_placeAtom.
  - exists (clear sc). split; reflexivity.
Qed.

Lemma rebuildMolecule_aux st sc :
  exists sc', rebuildMolecule st sc = Returned sc'
              /\ nucleusGroup sc' = nucleusGroup sc.
Proof.
  apply rebuildMoleculeIn_returns. intros mol. apply MOLECULES_wellFormed.
Qed.

(** ** Electrons of the atom *)











(** ** What a rebuild depends on *)

Lemma children_fold {A} (f : Scene -> A -> Scene) :
  (forall sc a, exists more, children (f sc a) = children sc ++ more) ->
  forall xs sc, exists more,
    children (fold_left f xs sc) = children sc ++ more.
Proof.
  intros Hf. induction xs as [|a xs IH]; intros sc; simpl.
  - exists []. now rewrite app_nil_r.
  - destruct (IH (f sc a)) as [m1 E1]. destruct (Hf sc a) as [m0 E0].
    exists (m0 ++ m1). now rewrite E1, E0, app_assoc.
Qed.

Lemma children_placeAtomSubshell st sc f :
  exists more, children (placeAtomSubshell st sc f) = children sc ++ more.
Proof.
  assert (Hfold : forall dm, exists more,
            children (fold_left (addAtomCloud st (sub f) dm)
                        (distributeElectrons (l (sub f)) (electrons f)) sc)
            = children sc ++ more).
  { intros dm. apply children_fold. intros sc0 [ml e].
    eexists. reflexivity. }
  unfold placeAtomSubshell.
  destruct (showIndividualOrbitals st);
    destruct (showLabels st && isHighlighted st (sub f))%bool;
    cbn [pushLabel addChild children];
    match goal with
    | |- context [fold_left (addAtomCloud st (sub f) ?dm)] =>
        destruct (Hfold dm) as [m E]
    end; rewrite E;
    first [ eexists; rewrite <- app_assoc; reflexivity
          | eexists; reflexivity ].
Qed.

Lemma rebuildAtom_any_scene st sc1 sc2 el :
  ELEMENTS (elementZ st) = Some el ->
  rebuildAtom st sc1 = rebuildAtom st sc2.
Proof. intros H. unfold rebuildAtom. rewrite H. reflexivity. Qed.

Lemma rebuildMoleculeIn_same_nucleus cat st sc1 sc2 :
  nucleusGroup sc1 = nucleusGroup sc2 ->
  rebuildMoleculeIn cat st sc1 = rebuildMoleculeIn cat st sc2.
Proof.
  intros H. unfold rebuildMoleculeIn, clear. now rewrite H.
Qed.

Lemma rebuildAtom_same_nucleus st sc1 sc2 :
  nucleusGroup sc1 = nucleusGroup sc2 ->
  rebuildAtom st sc1 = rebuildAtom st sc2.
Proof. intros H. unfold rebuildAtom, clear. now rewrite H. Qed.

(** X18. Whatever the state and the scene before, and whether it returns
    or throws, a rebuild leaves the two registers in step with the scene:
    [orbitalClouds] holds exactly the point clouds that are children of
    [atomGroup], and [labelSprites] exactly its labels, both in the order
    of the children. After an atom rebuild that returns, [nucleusGroup] is
    the first child. *)
Theorem rebuild_registers (st : State) (sc : Scene) :
  consistent (sceneOf (rebuild st sc)) /\
  (forall sc', rebuildAtom st sc = Returned sc' ->
     exists nuc, nucleusGroup sc' = Some nuc
                 /\ hd_error (children sc') = Some nuc).
Proof.
  split.
  - unfold rebuild, rebuildMolecule.
    destruct (String.eqb (mode st) "molecule");
      [apply consistent_rebuildMoleculeIn|apply consistent_rebuildAtom].
  - intros sc'. unfold rebuildAtom.
    destruct (ELEMENTS (elementZ st)) as [el|]; [|discriminate].
    intros [= <-].
    set (nuc := buildNucleus st (z el) (neutrons el) (nucleusScale st)
                  Vec3.zero).
    exists nuc. split.
    + rewrite nucleusGroup_fold;
        [|intros; apply nucleusGroup_placeAtomSubshell].
      destruct (showLabels st); reflexivity.
    + match goal with
      | |- context [fold_left (placeAtomSubshell st) ?c ?s0] =>
          destruct (@children_fold _ (placeAtomSubshell st)
                      (children_placeAtomSubshell st) c s0) as [m E]
      end.
      rewrite E. destruct (showLabels st); reflexivity.
Qed.








(** X22. The scene a rebuild leaves (the objects, with the arguments
    their builders were called with) is a function of the state and of
    the [nucleusGroup] register alone: nothing else of the scene before
    survives. A rebuild that returned, run again in the same state, gives
    the same scene. *)
Theorem rebuild_state_only (st : State) (sc sc' : Scene) :
  rebuild st sc = Returned sc' ->
  rebuild st sc' = Returned sc' /\
  forall other, nucleusGroup other = nucleusGroup sc ->
    rebuild st other = Returned sc'.
Proof.
  intros H.
  assert (Hother : forall other, nucleusGroup other = nucleusGroup sc ->
                     rebuild st other = Returned sc').
  { intros other Ho. rewrite <- H. unfold rebuild, rebuildMolecule.
    destruct (String.eqb (mode st) "molecule").
    - now apply rebuildMoleculeIn_same_nucleus.
    - now apply rebuildAtom_same_nucleus. }
  split; [|exact Hother].
  unfold rebuild in *.
  destruct (String.eqb (mode st) "molecule").
  - destruct (rebuildMolecule_aux st sc) as [sc0 [E0 N0]].
    rewrite E0 in H. injection H as <-.
    rewrite <- E0. unfold rebuildMolecule.
    now apply rebuildMoleculeIn_same_nucleus.
  - rewrite <- H. unfold rebuildAtom in H |- *.
    destruct (ELEMENTS (elementZ st)) as [el|]; [reflexivity|discriminate].
Qed.

Lemma rebuild_state_only_witness :
  rebuild initialState (sceneOf (rebuild initialState emptyScene))
  = Returned (sceneOf (rebuild initialState emptyScene)).
Proof.
  refine (proj1 (@rebuild_state_only initialState emptyScene
                   (sceneOf (rebuild initialState emptyScene)) _)).
  reflexivity.
Defined.

End SceneInvariants.

(* ================================================================== *)
(** * Theorems: energy diagram and camera framing *)
(* ================================================================== *)

Module EnergyDiagramFacts.
Import EnergyDiagram.
Local Open Scope Z_scope.

Lemma boxLoop_spec numOrbitals : forall fuel m e,
  0 <= e -> numOrbitals - m <= Z.of_nat fuel ->
  let bs := boxLoop fuel m numOrbitals e in
  Z.of_nat (List.length bs) = Z.max 0 (numOrbitals - m) /\
  Forall (fun b => 0 <= b <= 2) bs /\
  fold_right Z.add 0 bs = Z.min e (2 * Z.max 0 (numOrbitals - m)).
Proof.
  induction fuel as [|fuel IH]; intros m e He Hfuel; cbn zeta;
    cbn [boxLoop].
  - cbn [List.length fold_right]. split; [lia|]. split; [constructor|lia].
  - destruct (Z.ltb_spec m numOrbitals) as [Hm|Hm].
    + destruct (IH (m + 1) (e - Z.min e 2)) as [Hlen [Hall Hsum]];
        [lia|lia|].
      cbn [List.length fold_right]. rewrite Nat2Z.inj_succ.
      split; [lia|]. split; [constructor; [lia|exact Hall]|].
      rewrite Hsum. lia.
    + cbn [List.length fold_right]. split; [lia|].
      split; [constructor|lia].
Qed.

(** The boxes that hold an electron are the orbitals the rebuilds give a
    cloud to, with the same counts, in the same order; the boxes after
    them are empty. *)
Lemma boxLoop_orbitalLoop l0 : forall fuel k e,
  0 <= e ->
  boxLoop fuel (k + l0) (2 * l0 + 1) e
  = map snd (Scene.orbitalLoop fuel k l0 e)
    ++ repeat 0 (List.length (boxLoop fuel (k + l0) (2 * l0 + 1) e)
                 - List.length (Scene.orbitalLoop fuel k l0 e)).
Proof.
  induction fuel as [|fuel IH]; intros k e He.
  - reflexivity.
  - cbn [boxLoop Scene.orbitalLoop].
    destruct (Z.ltb_spec (k + l0) (2 * l0 + 1)) as [Hm|Hm];
      destruct (Z.leb_spec k l0) as [Hk|Hk]; try lia; [|reflexivity].
    destruct (Z.leb_spec (Z.min e 2) 0) as [Hz|Hpos].
    + assert (e = 0) as -> by lia.
      change (Z.min 0 2) with 0. change (0 - 0) with 0.
      cbn [map List.length app]. rewrite Nat.sub_0_r.
      clear. generalize (k + l0 + 1). generalize (2 * l0 + 1).
      induction fuel as [|fuel IH]; intros a b; [reflexivity|].
      cbn [boxLoop]. destruct (b <? a); [|reflexivity].
      change (Z.min 0 2) with 0. change (0 - 0) with 0.
      cbn [List.length repeat]. f_equal. apply IH.
    + cbn [map snd List.length app]. f_equal.
      replace (k + l0 + 1) with (k + 1 + l0) by lia.
      rewrite (IH (k + 1) (e - Z.min e 2)) at 1 by lia.
      f_equal.
Qed.

(** X23. The energy diagram draws 2l + 1 boxes for a subshell, each with
    0, 1 or 2 electrons. The boxes that hold an electron are exactly the
    orbitals [distributeElectrons] gives a cloud to, with the same counts
    and in the same order, and the boxes after them are empty: the
    diagram and the 3D scene show one filling. *)
Theorem boxes_match_clouds (l0 e : Z) :
  0 <= l0 -> 0 <= e <= 2 * (2 * l0 + 1) ->
  let d := Scene.distributeElectrons l0 e in
  Z.of_nat (List.length (boxes l0 e)) = 2 * l0 + 1 /\
  Forall (fun b => 0 <= b <= 2) (boxes l0 e) /\
  fold_right Z.add 0 (boxes l0 e) = e /\
  boxes l0 e
  = map snd d ++ repeat 0 (Z.to_nat (2 * l0 + 1) - List.length d).
Proof.
  intros Hl He d.
  destruct (@boxLoop_spec (2 * l0 + 1) (Z.to_nat (2 * l0 + 1)) 0 e)
    as [Hlen [Hall Hsum]]; [lia|lia|].
  fold (boxes l0 e) in Hlen, Hall, Hsum.
  split; [lia|]. split; [exact Hall|]. split; [lia|].
  pose proof (@boxLoop_orbitalLoop l0 (Z.to_nat (2 * l0 + 1)) (- l0) e
                ltac:(lia)) as H.
  replace (- l0 + l0) with 0 in H by lia.
  fold (boxes l0 e) in H. fold (Scene.distributeElectrons l0 e) in H.
  fold d in H.
  replace (List.length (boxes l0 e)) with (Z.to_nat (2 * l0 + 1)) in H
    by lia.
  exact H.
Qed.

Lemma boxes_match_clouds_witness :
  boxes 1 3 = map snd (Scene.distributeElectrons 1 3)
              ++ repeat 0 (Z.to_nat (2 * 1 + 1)
                           - List.length (Scene.distributeElectrons 1 3)).
Proof. apply (@boxes_match_clouds 1 3); lia. Defined.

Local Open Scope R_scope.

Lemma canvasHeight_ge len : IZR len * 28 + 40 <= canvasHeight len.
Proof. unfold canvasHeight. apply Rmax_r. Qed.

(** X24. For a configuration of len >= 1 subshells the bound
    [usableH / len] never takes effect: the levels are always 26 apart,
    more than the height 12 of a box, so the rows of boxes do not
    overlap. Every level line lies at least 30 below the top of the
    canvas (its boxes start at least 20 below it, the top padding) and at
    least 38 above the bottom. *)
Theorem levels_fit (len idx : Z) :
  (1 <= len)%Z -> (0 <= idx < len)%Z ->
  levelHeight len = 26 /\
  levelY len idx - levelY len (idx + 1) = 26 /\
  30 <= levelY len idx <= canvasHeight len - 38.
Proof.
  intros Hlen Hidx.
  pose proof (canvasHeight_ge len) as HH.
  assert (Hl : 1 <= IZR len) by (apply IZR_le; lia).
  assert (Hi0 : 0 <= IZR idx) by (apply IZR_le; lia).
  assert (Hi1 : IZR idx + 1 <= IZR len).
  { rewrite <- plus_IZR. apply IZR_le. lia. }
  assert (Hlev : levelHeight len = 26).
  { unfold levelHeight, paddingTop, paddingBottom. cbn zeta.
    apply Rmin_left.
    apply Rmult_le_reg_r with (IZR len); [lra|].
    replace ((canvasHeight len - 20 - 12) / IZR len * IZR len)
      with (canvasHeight len - 20 - 12) by (field; lra).
    lra. }
  unfold levelY, paddingBottom. rewrite Hlev, plus_IZR.
  split; [reflexivity|]. split; [lra|]. split; lra.
Qed.

Lemma levels_fit_witness : levelHeight 3 = 26.
Proof. apply (@levels_fit 3 0); lia. Defined.

End EnergyDiagramFacts.

Module CameraFacts.
Import Camera.
Local Open Scope R_scope.

Lemma maxDistLoop_ge c : forall atoms m, m <= maxDistLoop c atoms m.
Proof.
  unfold maxDistLoop.
  induction atoms as [|a atoms IH]; intros m; simpl; [lra|].
  destruct (Rgt_dec (Vec3.length (Vec3.sub a c)) m) as [Hgt|Hle].
  - eapply Rle_trans; [|apply IH]. lra.
  - apply IH.
Qed.

Lemma maxDistLoop_upper c : forall atoms m a,
  In a atoms -> Vec3.length (Vec3.sub a c) <= maxDistLoop c atoms m.
Proof.
  induction atoms as [|b atoms IH]; intros m a Hin; [contradiction|].
  unfold maxDistLoop. cbn [fold_left]. fold (maxDistLoop c atoms).
  destruct Hin as [->|Hin]; [|now apply IH].
  destruct (Rgt_dec (Vec3.length (Vec3.sub a c)) m) as [Hgt|Hle].
  - apply maxDistLoop_ge.
  - eapply Rle_trans; [|apply maxDistLoop_ge]. lra.
Qed.

(** X25. The camera framing of a molecule with at least one atom: every
    atom lies within [maxDist - 4] of the centre the controls target,
    [maxDist] is at least 6, and the camera is placed at the distance
    2.2 sqrt(1.23) maxDist from the centre, more than 2.4 maxDist and so
    outside the ball that holds the atoms with their padding. *)
Theorem camera_outside_molecule (atoms : list Vec3.t) :
  atoms <> [] ->
  let c := molCenter atoms in
  let camDist := Vec3.length (Vec3.sub (cameraPosition atoms) c) in
  6 <= maxDistOf atoms /\
  (forall a, In a atoms ->
     Vec3.length (Vec3.sub a c) <= maxDistOf atoms - 4) /\
  camDist = maxDistOf atoms * 2.2 * sqrt 1.23 /\
  maxDistOf atoms * 2.4 < camDist.
Proof.
  intros _. cbn zeta.
  assert (H6 : 6 <= maxDistOf atoms) by (unfold maxDistOf; apply Rmax_r).
  split; [exact H6|]. split.
  - intros a Hin. unfold maxDistOf.
    pose proof (@maxDistLoop_upper (molCenter atoms) atoms 0 a Hin).
    pose proof (Rmax_l (maxDistLoop (molCenter atoms) atoms 0 + 4) 6).
    lra.
  - set (M := maxDistOf atoms) in *.
    assert (Hcam : Vec3.length (Vec3.sub (cameraPosition atoms)
                                  (molCenter atoms))
                   = M * 2.2 * sqrt 1.23).
    { unfold cameraPosition, Vec3.length, Vec3.sub. cbn zeta.
      cbn [Vec3.x Vec3.y Vec3.z]. fold M.
      set (c := molCenter atoms).
      replace ((Vec3.x c + M * 2.2 * 0.7 - Vec3.x c)
               * (Vec3.x c + M * 2.2 * 0.7 - Vec3.x c)
               + (Vec3.y c + M * 2.2 * 0.5 - Vec3.y c)
                 * (Vec3.y c + M * 2.2 * 0.5 - Vec3.y c)
               + (Vec3.z c + M * 2.2 * 0.7 - Vec3.z c)
                 * (Vec3.z c + M * 2.2 * 0.7 - Vec3.z c))
        with ((M * 2.2) * (M * 2.2) * 1.23) by (decimals; field).
      rewrite sqrt_mult_alt by (apply Rle_0_sqr).
      rewrite sqrt_square by lra. reflexivity. }
    split; [exact Hcam|]. rewrite Hcam.
    assert (Hs : 1.1 < sqrt 1.23).
    { rewrite <- (sqrt_square 1.1) by lra. apply sqrt_lt_1; lra. }
    assert (HM : 0 < M) by lra.
    assert (2.2 * 1.1 < 2.2 * sqrt 1.23) by lra.
    apply Rlt_le_trans with (M * (2.2 * 1.1));
      [apply Rmult_lt_compat_l; lra|].
    rewrite Rmult_assoc. apply Rmult_le_compat_l; lra.
Qed.

(** The atoms of the H2 preset. *)
Lemma camera_outside_molecule_witness :
  6 <= maxDistOf [Vec3.mk (-1.5) 0 0; Vec3.mk 1.5 0 0].
Proof.
  apply (@camera_outside_molecule [Vec3.mk (-1.5) 0 0; Vec3.mk 1.5 0 0]).
  discriminate.
Defined.

End CameraFacts.

(* ================================================================== *)
(** * Theorems: nucleus cluster *)
(* ================================================================== *)

Module NucleusFacts.
Import Nucleus.
Local Open Scope Z_scope.
Local Open Scope R_scope.

(** ** The shuffle *)

Lemma setNth_length {A} (v : A) : forall i a,
  List.length (setNth i v a) = List.length a.
Proof.
  induction i as [|i IH]; intros [|h rest]; simpl; auto.
Qed.

Lemma setNth_same {A} (v : A) : forall i a,
  (i < List.length a)%nat -> nth_error (setNth i v a) i = Some v.
Proof.
  induction i as [|i IH]; intros [|h rest]; simpl; intros H;
    try lia; auto.
  apply IH. lia.
Qed.

Lemma setNth_other {A} (v : A) : forall i j a,
  i <> j -> nth_error (setNth i v a) j = nth_error a j.
Proof.
  induction i as [|i IH]; intros [|j] [|h rest] H; simpl;
    try reflexivity; try lia.
  apply IH. lia.
Qed.

Definition hit (x t : Nucleon) : nat :=
  if Nucleon_eq_dec x t then 1%nat else 0%nat.

Lemma count_setNth v t : forall i a x,
  nth_error a i = Some x ->
  (count_occ Nucleon_eq_dec (setNth i v a) t + hit x t
   = count_occ Nucleon_eq_dec a t + hit v t)%nat.
Proof.
  unfold hit.
  induction i as [|i IH]; intros [|h rest] x; simpl; try discriminate.
  - intros [= ->].
    destruct (Nucleon_eq_dec x t); destruct (Nucleon_eq_dec v t); lia.
  - intros H. specialize (IH rest x H).
    destruct (Nucleon_eq_dec h t); lia.
Qed.

Lemma swap_count i j a t :
  count_occ Nucleon_eq_dec (swap i j a) t = count_occ Nucleon_eq_dec a t.
Proof.
  unfold swap.
  destruct (nth_error a i) as [x|] eqn:Ei; [|reflexivity].
  destruct (nth_error a j) as [y|] eqn:Ej; [|reflexivity].
  pose proof (@count_setNth y t i a x Ei) as H1.
  assert (Ej' : nth_error (setNth i y a) j = Some y).
  { destruct (Nat.eq_dec i j) as [<-|Hne].
    - apply setNth_same. apply nth_error_Some. congruence.
    - now rewrite setNth_other. }
  pose proof (@count_setNth x t j (setNth i y a) y Ej') as H2.
  lia.
Qed.

Lemma swap_length i j a : List.length (swap i j a) = List.length a.
Proof.
  unfold swap.
  destruct (nth_error a i); [|reflexivity].
  destruct (nth_error a j); [|reflexivity].
  now rewrite !setNth_length.
Qed.

(** The index [Math.floor(Math.random() * (i + 1))] is one of 0..i. *)
Lemma floor_index u i :
  0 <= u < 1 -> (Z.to_nat (floor (u * (INR i + 1))) <= i)%nat.
Proof.
  intros [Hu0 Hu1]. unfold floor.
  destruct (base_Int_part (u * (INR i + 1))) as [Hlo Hhi].
  pose proof (pos_INR i) as Hi.
  assert (Hlt : u * (INR i + 1) < INR i + 1).
  { rewrite <- (Rmult_1_l (INR i + 1)) at 2.
    apply Rmult_lt_compat_r; lra. }
  assert (Hz : (Int_part (u * (INR i + 1)) < Z.of_nat i + 1)%Z).
  { apply lt_IZR. rewrite plus_IZR, <- INR_IZR_INZ. lra. }
  lia.
Qed.

Lemma shuffleLoop_spec d : forall i a k,
  List.length (fst (shuffleLoop i a d k)) = List.length a /\
  (forall t, count_occ Nucleon_eq_dec (fst (shuffleLoop i a d k)) t
             = count_occ Nucleon_eq_dec a t) /\
  snd (shuffleLoop i a d k) = (k + i)%nat.
Proof.
  induction i as [|i IH]; intros a k.
  - simpl. split; [reflexivity|]. split; [reflexivity|lia].
  - cbn [shuffleLoop]. unfold Rand.bind, Rand.random.
    set (j := Z.to_nat (floor (d k * (INR (S i) + 1)))).
    destruct (IH (swap (S i) j a) (S k)) as [Hlen [Hcount Hsnd]].
    split; [now rewrite Hlen, swap_length|].
    split; [intros t; now rewrite Hcount, swap_count|lia].
Qed.

Lemma count_repeat_same t n0 :
  count_occ Nucleon_eq_dec (repeat t n0) t = n0.
Proof.
  induction n0 as [|n0 IH]; simpl; [reflexivity|].
  destruct (Nucleon_eq_dec t t); [now rewrite IH|contradiction].
Qed.

Lemma count_repeat_other t u n0 :
  t <> u -> count_occ Nucleon_eq_dec (repeat t n0) u = 0%nat.
Proof.
  intros H. induction n0 as [|n0 IH]; simpl; [reflexivity|].
  destruct (Nucleon_eq_dec t u); [contradiction|exact IH].
Qed.

(** X26. The shuffle of [buildNucleus] permutes the particles: for
    draws in [0,1) the index drawn for position i is one of 0..i, so every
    swap stays within the array; the shuffled array has as many protons
    and as many neutrons as were pushed, and one draw is read per position
    but the first. *)
Theorem shuffle_keeps_particles
    (protons neutrons : Z) (d : nat -> R) (k : nat) :
  Rand.valid d ->
  let a := initialParticles protons neutrons in
  let ps := fst (shuffle a d k) in
  (forall i j, (Z.to_nat (floor (d j * (INR i + 1))) <= i)%nat) /\
  count_occ Nucleon_eq_dec ps proton = Z.to_nat protons /\
  count_occ Nucleon_eq_dec ps neutron = Z.to_nat neutrons /\
  snd (shuffle a d k)
  = (k + (Z.to_nat protons + Z.to_nat neutrons - 1))%nat.
Proof.
  intros Hd. cbn zeta.
  split; [intros i j; apply floor_index, Hd|].
  unfold shuffle.
  destruct (@shuffleLoop_spec d
              (List.length (initialParticles protons neutrons) - 1)
              (initialParticles protons neutrons) k)
    as [_ [Hcount Hsnd]].
  rewrite !Hcount, Hsnd. unfold initialParticles.
  rewrite !count_occ_app, length_app, !repeat_length.
  rewrite !count_repeat_same.
  rewrite (@count_repeat_other neutron proton) by discriminate.
  rewrite (@count_repeat_other proton neutron) by discriminate.
  split; [lia|]. split; [lia|reflexivity].
Qed.

Lemma shuffle_keeps_particles_witness :
  count_occ Nucleon_eq_dec
    (fst (shuffle (initialParticles 3 4) (fun _ => 0) 0%nat)) proton
  = Z.to_nat 3.
Proof.
  apply (@shuffle_keeps_particles 3 4 (fun _ => 0) 0%nat).
  intros j. lra.
Defined.

(** ** The positions of the nucleons *)

Lemma powFrac_positive a e : 0 < a -> 0 < Sampler.powFrac a e.
Proof.
  intros H. unfold Sampler.powFrac.
  destruct (Rle_dec a 0); [lra|]. unfold Rpower. apply exp_pos.
Qed.

Lemma baseRadius_pos total : (1 <= total)%Z -> 0 < baseRadius total.
Proof.
  intros H. unfold baseRadius.
  assert (0 < IZR total) by (apply IZR_lt; lia).
  pose proof (@powFrac_positive (IZR total) 0.2 H0). lra.
Qed.

Lemma cbrt_unit q : 0 < q <= 1 -> 0 < cbrt q <= 1.
Proof.
  intros [H0 H1]. unfold cbrt. destruct (Rlt_dec 0 q); [|lra].
  unfold Rpower. split; [apply exp_pos|].
  rewrite <- exp_0.
  assert (Hln : ln q <= 0).
  { rewrite <- ln_1. destruct H1 as [H1|H1].
    - left. now apply ln_increasing.
    - rewrite H1. lra. }
  assert (Hz : / 3 * ln q <= 0).
  { replace 0 with (/ 3 * 0) by ring.
    apply Rmult_le_compat_l; lra. }
  destruct Hz as [Hz|Hz].
  - left. now apply exp_increasing.
  - rewrite Hz. lra.
Qed.

Lemma nucleonDist_range total idx :
  (1 <= total)%Z -> (Z.of_nat idx < total)%Z ->
  0 <= nucleonDist total idx <= 1.2 * baseRadius total.
Proof.
  intros Ht Hidx. unfold nucleonDist.
  pose proof (baseRadius_pos Ht) as HB.
  destruct (idx =? 0)%nat; [lra|].
  assert (Htot : 0 < IZR total) by (apply IZR_lt; lia).
  assert (Hq : 0 < (INR idx + 1) / IZR total <= 1).
  { pose proof (pos_INR idx) as Hi.
    assert (INR idx + 1 <= IZR total).
    { rewrite INR_IZR_INZ, <- plus_IZR. apply IZR_le. lia. }
    split.
    - apply Rmult_lt_0_compat; [lra|now apply Rinv_0_lt_compat].
    - apply Rmult_le_reg_r with (IZR total); [lra|].
      replace ((INR idx + 1) / IZR total * IZR total) with (INR idx + 1)
        by (field; lra).
      lra. }
  pose proof (cbrt_unit Hq) as Hc.
  set (c := cbrt ((INR idx + 1) / IZR total)) in *.
  set (B := baseRadius total) in *.
  assert (0 <= B * c <= B * 1).
  { split; [apply Rmult_le_pos; lra|apply Rmult_le_compat_l; lra]. }
  replace (B * 0.8 * c * 1.5) with (1.2 * (B * c)) by (decimals; field).
  lra.
Qed.

Lemma nucleonPos_length total idx :
  (1 <= total)%Z -> (Z.of_nat idx < total)%Z ->
  Vec3.length (nucleonPos total idx) = nucleonDist total idx.
Proof.
  intros Ht Hidx. pose proof (nucleonDist_range idx Ht Hidx) as [Hd _].
  unfold nucleonPos. cbn zeta. unfold nucleonDist in *.
  destruct (idx =? 0)%nat.
  - unfold Vec3.length. cbn [Vec3.x Vec3.y Vec3.z].
    replace (0 * 0 + 0 * 0 + 0 * 0) with 0 by ring. apply sqrt_0.
  - set (dist := baseRadius total * 0.8
                 * cbrt ((INR idx + 1) / IZR total) * 1.5) in *.
    set (phi := acos (1 - 2 * (INR idx + 0.5) / IZR total)).
    set (theta := PI * (1 + sqrt 5) * INR idx).
    unfold Vec3.length. cbn [Vec3.x Vec3.y Vec3.z].
    pose proof (sin2_cos2 phi) as Hp. pose proof (sin2_cos2 theta) as Hth.
    unfold Rsqr in Hp, Hth.
    replace (dist * sin phi * cos theta * (dist * sin phi * cos theta)
             + dist * sin phi * sin theta * (dist * sin phi * sin theta)
             + dist * cos phi * (dist * cos phi))
      with (dist * dist
            * (sin phi * sin phi
               * (sin theta * sin theta + cos theta * cos theta)
               + cos phi * cos phi)) by ring.
    rewrite Hth, Rmult_1_r, Hp, Rmult_1_r. now apply sqrt_square.
Qed.

Definition inGroup (total : Z) (m : Mesh) : Prop :=
  match kind m with
  | NucleonMesh _ =>
      radius m = baseRadius total * 0.45 /\
      Vec3.length (center m) + radius m <= 1.65 * baseRadius total
  | GlowMesh =>
      radius m = baseRadius total * 2.5 /\ center m = Vec3.mk 0 0 0
  end.

Lemma nucleonMeshes_inGroup total : forall particles idx,
  (1 <= total)%Z ->
  (Z.of_nat idx + Z.of_nat (List.length particles) <= total)%Z ->
  Forall (inGroup total) (nucleonMeshes total idx particles).
Proof.
  induction particles as [|type rest IH]; intros idx Ht Hlen;
    cbn [nucleonMeshes]; constructor.
  - unfold inGroup. cbn [kind radius center]. split; [reflexivity|].
    cbn [List.length] in Hlen.
    rewrite nucleonPos_length by lia.
    pose proof (@nucleonDist_range total idx Ht ltac:(lia)). lra.
  - apply IH; [exact Ht|]. cbn [List.length] in Hlen. lia.
Qed.

Lemma nucleonMeshes_length total : forall particles idx,
  List.length (nucleonMeshes total idx particles) = List.length particles.
Proof.
  induction particles as [|type rest IH]; intros idx; simpl;
    [reflexivity|]. now rewrite IH.
Qed.

(** X27. For a nucleus of total = protons + neutrons >= 1 particles and
    draws in [0,1): the group has one sphere per
    particle, and the glow when glow effects are on; the first particle
    sits at the centre; every nucleon sphere (radius 0.45 baseRadius,
    centre at most 1.2 baseRadius from the origin) stays within
    1.65 baseRadius of the centre, inside the glow sphere of radius
    2.5 baseRadius. *)
Theorem nucleons_inside_glow
    (glow : bool) (protons neutrons : Z) (d : nat -> R) (k : nat) :
  (0 <= protons)%Z -> (0 <= neutrons)%Z -> (1 <= protons + neutrons)%Z ->
  Rand.valid d ->
  let total := (protons + neutrons)%Z in
  let meshes := fst (buildNucleus glow protons neutrons d k) in
  0 < baseRadius total /\
  List.length meshes
  = (Z.to_nat total + (if glow then 1 else 0))%nat /\
  (exists type,
     hd_error meshes
     = Some (mkMesh (NucleonMesh type) (Vec3.mk 0 0 0)
                    (baseRadius total * 0.45))) /\
  Forall (inGroup total) meshes.
Proof.
  intros Hp Hn Ht _ total meshes.
  split; [now apply baseRadius_pos|].
  subst meshes. unfold buildNucleus. cbn zeta. unfold Rand.bind, shuffle.
  destruct (@shuffleLoop_spec d
              (List.length (initialParticles protons neutrons) - 1)
              (initialParticles protons neutrons) k) as [Hlen _].
  destruct (shuffleLoop
              (List.length (initialParticles protons neutrons) - 1)
              (initialParticles protons neutrons) d k) as [ps j].
  cbn [fst] in *. unfold Rand.ret. cbn [fst].
  assert (Hps : List.length ps = Z.to_nat total).
  { rewrite Hlen. unfold initialParticles.
    rewrite length_app, !repeat_length. subst total. lia. }
  fold total. split; [|split].
  - rewrite length_app, nucleonMeshes_length, Hps.
    destruct glow; reflexivity.
  - destruct ps as [|type rest]; [simpl in Hps; lia|].
    exists type. reflexivity.
  - apply Forall_app. split.
    + apply nucleonMeshes_inGroup; [exact Ht|]. rewrite Hps. lia.
    + destruct glow; repeat constructor.
Qed.

Lemma nucleons_inside_glow_witness :
  0 < baseRadius (6 + 6).
Proof.
  apply (@nucleons_inside_glow true 6 6 (fun _ => 0) 0%nat); try lia.
  intros j. lra.
Defined.

End NucleusFacts.

(* ================================================================== *)
(** * Theorems: orbital cloud buffers *)
(* ================================================================== *)

Module OrbitalCloudFacts.
Import Radial Sampler OrbitalCloud.
Local Open Scope Z_scope.
Local Open Scope R_scope.

Lemma round_nonneg x : 0 <= x -> (0 <= round x)%Z.
Proof.
  intros Hx. unfold round.
  destruct (base_Int_part (x + 0.5)) as [_ Hhi].
  assert (H : (-1 < Int_part (x + 0.5))%Z) by (apply lt_IZR; lra).
  lia.
Qed.

Lemma coords_length samples :
  List.length (flat_map coords samples) = (3 * List.length samples)%nat.
Proof.
  induction samples as [|s rest IH]; simpl; [reflexivity|].
  rewrite IH. lia.
Qed.

Lemma heat_length m samples :
  List.length (flat_map (heat m) samples) = (3 * List.length samples)%nat.
Proof.
  induction samples as [|s rest IH]; simpl; [reflexivity|].
  rewrite IH. lia.
Qed.

Lemma heat_unit m samples :
  Forall (fun c => 0 <= c <= 1) (flat_map (heat m) samples).
Proof.
  induction samples as [|s rest IH]; simpl; [constructor|].
  destruct (HeatmapRange.densityToHeatmap_unit (heatArg m s))
    as [Hr [Hg Hb]].
  repeat (constructor; [assumption|]). exact IH.
Qed.

Lemma abs_le_length a b c :
  Rabs a <= sqrt (a * a + b * b + c * c).
Proof.
  rewrite <- sqrt_Rsqr_abs. unfold Rsqr.
  pose proof (Rle_0_sqr a) as Ha. pose proof (Rle_0_sqr b) as Hb.
  pose proof (Rle_0_sqr c) as Hc. unfold Rsqr in *.
  apply sqrt_le_1; lra.
Qed.

Lemma coords_bound B samples :
  Forall (fun s => 0 < Vec3.length (pos s) <= B) samples ->
  Forall (fun x => Rabs x <= B) (flat_map coords samples).
Proof.
  induction 1 as [|s rest [_ Hs] _ IH]; simpl; [constructor|].
  unfold Vec3.length in Hs.
  set (a := Vec3.x (pos s)) in *. set (b := Vec3.y (pos s)) in *.
  set (c := Vec3.z (pos s)) in *.
  pose proof (abs_le_length a b c) as Ha.
  pose proof (abs_le_length b a c) as Hb.
  pose proof (abs_le_length c a b) as Hc.
  replace (b * b + a * a + c * c) with (a * a + b * b + c * c) in Hb
    by ring.
  replace (c * c + a * a + b * b) with (a * a + b * b + c * c) in Hc
    by ring.
  repeat (constructor; [lra|]). exact IH.
Qed.

(** X28. For n >= 1 and draws in [0,1), [buildOrbitalCloud] fails only
    when the rounded particle count is negative. Otherwise the position,
    colour and base buffers hold three numbers per particle, the base
    buffer equals the position buffer (so the cloud entry made of them
    has the two buffers of one length that a frame of [animate] relies
    on), every colour channel is in [0,1], and every coordinate is at
    most radialScale(n) (3n + 4) / (2n) in absolute value. *)
Theorem buildOrbitalCloud_buffers
    (n l ml electronCount : Z) (densityMultiplier : R)
    (d : nat -> R) (i : nat) :
  (1 <= n)%Z -> Rand.valid d ->
  let count := particleCount electronCount densityMultiplier in
  match fst (buildOrbitalCloud n l ml electronCount densityMultiplier d i)
  with
  | None => (count < 0)%Z
  | Some bufs =>
      (0 <= count)%Z /\
      List.length (posArray bufs) = (3 * Z.to_nat count)%nat /\
      List.length (colArray bufs) = (3 * Z.to_nat count)%nat /\
      basePos bufs = posArray bufs /\
      Forall (fun c => 0 <= c <= 1) (colArray bufs) /\
      Forall (fun x => Rabs x <= RadialRange.ballRadius n) (posArray bufs)
      /\
      forall label opacity,
        List.length (Animation.basePositions
                       (cloudOf bufs n l label opacity))
        = List.length (Animation.positions
                         (cloudOf bufs n l label opacity))
  end.
Proof.
  intros Hn Hd count. unfold buildOrbitalCloud. cbn zeta. fold count.
  unfold Rand.bind.
  pose proof (SamplerFacts.sampleOrbitalPositions_length n l ml count d i)
    as Hlen.
  pose proof (@SamplerGeometry.sampleLoop_Forall
                (fun s => 0 < Vec3.length (pos s)
                          <= RadialRange.ballRadius n) n l ml d
                (fun k => @SamplerGeometry.sampleOne_in_ball n l ml d k
                            Hn Hd)
                (Z.to_nat count) [] i (Forall_nil _)) as Hball.
  fold (sampleOrbitalPositions n l ml count) in Hball.
  destruct (sampleOrbitalPositions n l ml count d i) as [samples j].
  cbn [fst] in *.
  destruct (Z.ltb_spec count 0) as [Hneg|Hpos]; cbn [Rand.ret fst].
  - exact Hneg.
  - cbn [posArray colArray basePos cloudOf Animation.basePositions
         Animation.positions].
    rewrite coords_length, heat_length, Hlen.
    split; [exact Hpos|]. split; [reflexivity|]. split; [reflexivity|].
    split; [reflexivity|]. split; [apply heat_unit|].
    split; [now apply coords_bound|]. reflexivity.
Qed.

Lemma buildOrbitalCloud_buffers_witness :
  match fst (buildOrbitalCloud 2 1 0 2 1 (fun _ => 0) 0%nat) with
  | None => (particleCount 2 1 < 0)%Z
  | Some bufs =>
      (0 <= particleCount 2 1)%Z /\
      List.length (posArray bufs) = (3 * Z.to_nat (particleCount 2 1))%nat /\
      List.length (colArray bufs) = (3 * Z.to_nat (particleCount 2 1))%nat /\
      basePos bufs = posArray bufs /\
      Forall (fun c => 0 <= c <= 1) (colArray bufs) /\
      Forall (fun x => Rabs x <= RadialRange.ballRadius 2) (posArray bufs)
      /\
      forall label opacity,
        List.length (Animation.basePositions
                       (cloudOf bufs 2 1 label opacity))
        = List.length (Animation.positions
                         (cloudOf bufs 2 1 label opacity))
  end.
Proof.
  apply (@buildOrbitalCloud_buffers 2 1 0 2 1 (fun _ => 0) 0%nat);
    [lia|]. intros k. lra.
Defined.

(** ** The brightest particle *)

Definition foldMax (samples : list Sample) (m : R) : R :=
  fold_left (fun m s => if Rgt_dec (density s) m then density s else m)
            samples m.

Lemma foldMax_ge : forall samples m, m <= foldMax samples m.
Proof.
  unfold foldMax.
  induction samples as [|s rest IH]; intros m; simpl; [lra|].
  destruct (Rgt_dec (density s) m).
  - eapply Rle_trans; [|apply IH]. lra.
  - apply IH.
Qed.

Lemma foldMax_upper : forall samples m s,
  In s samples -> density s <= foldMax samples m.
Proof.
  induction samples as [|h rest IH]; intros m s Hin; [contradiction|].
  unfold foldMax. cbn [fold_left]. fold (foldMax rest).
  destruct Hin as [->|Hin]; [|now apply IH].
  destruct (Rgt_dec (density s) m).
  - apply foldMax_ge.
  - eapply Rle_trans; [|apply foldMax_ge]. lra.
Qed.

Lemma foldMax_attained : forall samples m,
  foldMax samples m = m
  \/ exists s, In s samples /\ density s = foldMax samples m.
Proof.
  induction samples as [|h rest IH]; intros m; [left; reflexivity|].
  unfold foldMax. cbn [fold_left]. fold (foldMax rest).
  destruct (Rgt_dec (density h) m).
  - destruct (IH (density h)) as [E|[s [Hin E]]].
    + right. exists h. split; [now left|symmetry; exact E].
    + right. exists s. split; [now right|exact E].
  - destruct (IH m) as [E|[s [Hin E]]].
    + now left.
    + right. exists s. split; [now right|exact E].
Qed.

Lemma powFrac_unit a e : 0 < a <= 1 -> 0 < e -> 0 < powFrac a e <= 1.
Proof.
  intros [H0 H1] He. unfold powFrac. destruct (Rle_dec a 0); [lra|].
  unfold Rpower. split; [apply exp_pos|].
  rewrite <- exp_0.
  assert (Hln : ln a <= 0).
  { rewrite <- ln_1. destruct H1 as [H1|H1].
    - left. now apply ln_increasing.
    - rewrite H1. lra. }
  assert (Hz : e * ln a <= 0).
  { replace 0 with (e * 0) by ring. apply Rmult_le_compat_l; lra. }
  destruct Hz as [Hz|Hz].
  - left. now apply exp_increasing.
  - rewrite Hz. lra.
Qed.

Lemma powFrac_one e : powFrac 1 e = 1.
Proof.
  unfold powFrac. destruct (Rle_dec 1 0); [lra|].
  unfold Rpower. now rewrite ln_1, Rmult_0_r, exp_0.
Qed.

Lemma heat_white m s : density s = m -> m <> 0 -> heat m s = [1; 1; 1].
Proof.
  intros E Hm. unfold heat, heatArg. cbn zeta. rewrite E.
  replace (m / m) with 1 by (field; exact Hm).
  rewrite powFrac_one, HeatmapFacts.densityToHeatmap_rampSpec.
  rewrite HeatmapFacts.clamp01_inside by lra.
  destruct HeatmapFacts.rampSpec_stops as [_ [_ [_ [_ ->]]]].
  reflexivity.
Qed.

(** X29. For 1 <= n <= 7 and an [l] whose sampler has l < n, a cloud of
    at least one particle has a maximal density in (0,1]; the argument
    given to the heat map is in (0,1] for every particle, and a particle
    of maximal density exists and is coloured white. *)
Theorem brightest_particle_white
    (n l ml count : Z) (d : nat -> R) (i : nat) :
  (1 <= n <= 7)%Z -> (SamplerGeometry.radialL l < n)%Z -> (1 <= count)%Z ->
  Rand.valid d ->
  let samples := fst (sampleOrbitalPositions n l ml count d i) in
  let m := maxDensityOf samples in
  0 < m <= 1 /\
  Forall (fun s => 0 < heatArg m s <= 1) samples /\
  exists s, In s samples /\ density s = m /\ heat m s = [1; 1; 1].
Proof.
  intros Hn Hl Hc Hd samples m.
  pose proof (SamplerFacts.sampleOrbitalPositions_length n l ml count d i)
    as Hlen. fold samples in Hlen.
  assert (Hden : Forall (fun s => 0 < density s <= 1) samples).
  { subst samples. unfold sampleOrbitalPositions.
    apply SamplerGeometry.sampleLoop_Forall; [|constructor].
    intros k. now apply SamplerGeometry.sampleOne_density. }
  rewrite Forall_forall in Hden.
  assert (Hne : exists s0, In s0 samples).
  { destruct samples as [|s0 rest]; [simpl in Hlen; lia|].
    exists s0. now left. }
  destruct Hne as [s0 Hs0].
  pose proof (@foldMax_upper samples 0 s0 Hs0) as Hup0.
  pose proof (Hden s0 Hs0) as [Hs0pos _].
  assert (Hm : m = foldMax samples 0).
  { subst m. unfold maxDensityOf. cbn zeta. fold (foldMax samples 0).
    destruct (Req_dec_T (foldMax samples 0) 0); [lra|reflexivity]. }
  destruct (foldMax_attained samples 0) as [E|[s [Hin E]]]; [lra|].
  rewrite <- Hm in E.
  pose proof (Hden s Hin) as [Hspos Hs1].
  assert (Hmr : 0 < m <= 1) by lra.
  split; [exact Hmr|]. split.
  - apply Forall_forall. intros s1 Hin1.
    pose proof (Hden s1 Hin1) as [H1pos _].
    pose proof (@foldMax_upper samples 0 s1 Hin1) as Hup.
    rewrite <- Hm in Hup.
    unfold heatArg. apply powFrac_unit; [|lra]. split.
    + apply Rmult_lt_0_compat; [lra|apply Rinv_0_lt_compat; lra].
    + apply Rmult_le_reg_r with m; [lra|].
      replace (density s1 / m * m) with (density s1) by (field; lra).
      lra.
  - exists s. split; [exact Hin|]. split; [exact E|].
    apply heat_white; [exact E|lra].
Qed.

Lemma brightest_particle_white_witness :
  0 < maxDensityOf
        (fst (sampleOrbitalPositions 2 1 0 3 (fun _ => 0) 0%nat)) <= 1.
Proof.
  apply (@brightest_particle_white 2 1 0 3 (fun _ => 0) 0%nat);
    [lia|simpl; lia|lia|]. intros k. lra.
Defined.

End OrbitalCloudFacts.

(* ================================================================== *)
(** * Theorems: bond cloud *)
(* ================================================================== *)

Module BondCloudFacts.
Import BondCloud.
Local Open Scope Z_scope.
Local Open Scope R_scope.

(** ** The frame of the bond *)

Lemma normalize_unit (v : Vec3.t) :
  0 < Vec3.length v ->
  Vec3.dot (Vec3.normalize v) (Vec3.normalize v) = 1.
Proof.
  intros Hv. pose proof (BondFacts.length_sq v) as Hsq.
  unfold Vec3.normalize, Vec3.dot.
  destruct (Req_dec_T (Vec3.length v) 0) as [H0|Hnz]; [lra|].
  cbn [Vec3.x Vec3.y Vec3.z]. set (len := Vec3.length v) in *.
  transitivity ((Vec3.x v * Vec3.x v + Vec3.y v * Vec3.y v
                 + Vec3.z v * Vec3.z v) / (len * len)).
  - field. exact Hnz.
  - rewrite <- Hsq. field. exact Hnz.
Qed.

Lemma dot_cross_right (a b : Vec3.t) : Vec3.dot (Vec3.cross a b) b = 0.
Proof. unfold Vec3.dot, Vec3.cross; simpl. ring. Qed.

Lemma dot_comm (a b : Vec3.t) : Vec3.dot a b = Vec3.dot b a.
Proof. unfold Vec3.dot. ring. Qed.

(** Lagrange's identity. *)
Lemma cross_norm (a b : Vec3.t) :
  Vec3.dot (Vec3.cross a b) (Vec3.cross a b)
  = Vec3.dot a a * Vec3.dot b b - Vec3.dot a b * Vec3.dot a b.
Proof. unfold Vec3.dot, Vec3.cross; simpl. ring. Qed.

Lemma length_of_dot (v : Vec3.t) : Vec3.length v = sqrt (Vec3.dot v v).
Proof. reflexivity. Qed.

Lemma abs_sq_le a m : 0 <= m -> Rabs a <= m -> a * a <= m * m.
Proof.
  intros Hm Ha.
  assert (Hb : - m <= a <= m)
    by (unfold Rabs in Ha; destruct (Rcase_abs a); lra).
  assert (0 <= (m - a) * (m + a)) by (apply Rmult_le_pos; lra). lra.
Qed.

Lemma abs_sq_gt a m : 0 <= m -> m < Rabs a -> m * m < a * a.
Proof.
  intros Hm Ha. unfold Rabs in Ha.
  destruct (Rcase_abs a) as [Hneg|Hpos].
  - assert (0 < (- a - m) * (- a + m)) by (apply Rmult_lt_0_compat; lra).
    lra.
  - assert (0 < (a - m) * (a + m)) by (apply Rmult_lt_0_compat; lra).
    lra.
Qed.

Lemma cross_upFor_nonzero (D : Vec3.t) :
  Vec3.dot D D = 1 -> 0 < Vec3.length (Vec3.cross D (upFor D)).
Proof.
  intros HD. rewrite length_of_dot. apply sqrt_lt_R0.
  rewrite cross_norm, HD. unfold upFor.
  assert (Hdot : Vec3.dot D (Vec3.mk 0 1 0) = Vec3.y D)
    by (unfold Vec3.dot; simpl; ring).
  rewrite Hdot.
  pose proof (Rle_0_sqr (Vec3.x D)) as Hx.
  pose proof (Rle_0_sqr (Vec3.z D)) as Hz. unfold Rsqr in Hx, Hz.
  unfold Vec3.dot in HD.
  destruct (Rgt_dec (Rabs (Vec3.y D)) 0.9) as [Hgt|Hle].
  - pose proof (@abs_sq_gt (Vec3.y D) 0.9 ltac:(lra) Hgt) as Hy.
    unfold Vec3.dot. cbn [Vec3.x Vec3.y Vec3.z]. lra.
  - apply Rnot_gt_le in Hle.
    pose proof (@abs_sq_le (Vec3.y D) 0.9 ltac:(lra) Hle) as Hy.
    unfold Vec3.dot. cbn [Vec3.x Vec3.y Vec3.z]. lra.
Qed.

(** The three axes of the cloud are orthonormal. *)
Lemma frame_orthonormal (D : Vec3.t) :
  Vec3.dot D D = 1 ->
  let P1 := perp1Of D in
  let P2 := perp2Of D in
  Vec3.dot P1 P1 = 1 /\ Vec3.dot P2 P2 = 1 /\
  Vec3.dot P1 D = 0 /\ Vec3.dot P2 D = 0 /\ Vec3.dot P1 P2 = 0.
Proof.
  intros HD P1 P2.
  assert (H11 : Vec3.dot P1 P1 = 1)
    by (apply normalize_unit, cross_upFor_nonzero, HD).
  assert (H1D : Vec3.dot P1 D = 0)
    by (apply BondFacts.dot_normalize, BondFacts.dot_cross_self).
  assert (HC2 : Vec3.dot (Vec3.cross D P1) (Vec3.cross D P1) = 1).
  { rewrite cross_norm, HD, H11, (dot_comm D P1), H1D. ring. }
  assert (Hlen2 : 0 < Vec3.length (Vec3.cross D P1)).
  { rewrite length_of_dot, HC2, sqrt_1. lra. }
  split; [exact H11|]. split; [now apply normalize_unit|].
  split; [exact H1D|]. split.
  - apply BondFacts.dot_normalize, BondFacts.dot_cross_self.
  - rewrite dot_comm. apply BondFacts.dot_normalize, dot_cross_right.
Qed.

(** A point of the frame: its component along the axis and its distance
    from the axis. *)
Lemma frame_decompose (M D P1 P2 : Vec3.t) t a b :
  Vec3.dot D D = 1 -> Vec3.dot P1 P1 = 1 -> Vec3.dot P2 P2 = 1 ->
  Vec3.dot P1 D = 0 -> Vec3.dot P2 D = 0 -> Vec3.dot P1 P2 = 0 ->
  let p := Vec3.mk (Vec3.x M + Vec3.x D * t + Vec3.x P1 * a + Vec3.x P2 * b)
                   (Vec3.y M + Vec3.y D * t + Vec3.y P1 * a + Vec3.y P2 * b)
                   (Vec3.z M + Vec3.z D * t + Vec3.z P1 * a + Vec3.z P2 * b)
  in
  let v := Vec3.sub p M in
  Vec3.dot v D = t /\
  Vec3.dot (Vec3.sub v (Vec3.multiplyScalar D (Vec3.dot v D)))
           (Vec3.sub v (Vec3.multiplyScalar D (Vec3.dot v D)))
  = a * a + b * b.
Proof.
  intros HDD H11 H22 H1D H2D H12 p v.
  assert (HvD : Vec3.dot v D = t).
  { subst v p. unfold Vec3.dot, Vec3.sub in *.
    cbn [Vec3.x Vec3.y Vec3.z] in *.
    transitivity
      (t * (Vec3.x D * Vec3.x D + Vec3.y D * Vec3.y D + Vec3.z D * Vec3.z D)
       + a * (Vec3.x P1 * Vec3.x D + Vec3.y P1 * Vec3.y D
              + Vec3.z P1 * Vec3.z D)
       + b * (Vec3.x P2 * Vec3.x D + Vec3.y P2 * Vec3.y D
              + Vec3.z P2 * Vec3.z D)); [ring|].
    rewrite HDD, H1D, H2D. ring. }
  split; [exact HvD|]. rewrite HvD.
  subst v p. unfold Vec3.dot, Vec3.sub, Vec3.multiplyScalar in *.
  cbn [Vec3.x Vec3.y Vec3.z] in *.
  transitivity
    (a * a * (Vec3.x P1 * Vec3.x P1 + Vec3.y P1 * Vec3.y P1
              + Vec3.z P1 * Vec3.z P1)
     + b * b * (Vec3.x P2 * Vec3.x P2 + Vec3.y P2 * Vec3.y P2
                + Vec3.z P2 * Vec3.z P2)
     + 2 * a * b * (Vec3.x P1 * Vec3.x P2 + Vec3.y P1 * Vec3.y P2
                    + Vec3.z P1 * Vec3.z P2)); [ring|].
  rewrite H11, H22, H12. ring.
Qed.

(** ** One particle *)

(** The particle lies in the middle 70 per cent of the bond, within three
    spread radii of its axis, and its heat-map argument is in [0,1]. *)
Definition inBond (mid D : Vec3.t) (length : R) (order : Z)
    (p : Particle) : Prop :=
  let v := Vec3.sub (point p) mid in
  Rabs (Vec3.dot v D) <= 0.35 * length /\
  Vec3.length (Vec3.sub v (Vec3.multiplyScalar D (Vec3.dot v D)))
  <= 3 * spreadRadius order /\
  0 <= density p <= 1.

Lemma powFrac_range a e : 0 <= a <= 1 -> 0 < e -> 0 <= Sampler.powFrac a e <= 1.
Proof.
  intros [H0 H1] He. destruct H0 as [H0|H0].
  - pose proof (@OrbitalCloudFacts.powFrac_unit a e (conj H0 H1) He). lra.
  - unfold Sampler.powFrac. destruct (Rle_dec a 0); lra.
Qed.

Lemma particle_inBond mid D length order d i :
  Vec3.dot D D = 1 -> 0 < length -> (0 <= order)%Z -> Rand.valid d ->
  inBond mid D length order
         (fst (particle mid D (perp1Of D) (perp2Of D) length order d i))
  /\ snd (particle mid D (perp1Of D) (perp2Of D) length order d i)
     = (i + 3)%nat.
Proof.
  intros HD Hlen Hord Hd.
  destruct (frame_orthonormal HD) as [H11 [H22 [H1D [H2D H12]]]].
  unfold particle, Rand.bind, Rand.random, Rand.ret. cbn [fst snd].
  split; [|lia].
  set (t := (d i - 0.5) * length * 0.7).
  set (sr := spreadRadius order).
  set (angle := d (S i) * PI * 2).
  set (r := Rmin (sr * sqrt (-2 * ln (Rmax 0.000001 (d (S (S i))))))
                 (sr * 3)).
  assert (Hsr : 0.25 <= sr).
  { subst sr. unfold spreadRadius. apply IZR_le in Hord. lra. }
  assert (Hr : 0 <= r <= 3 * sr).
  { subst r. split.
    - apply Rmin_glb; [|lra].
      apply Rmult_le_pos; [lra|apply sqrt_pos].
    - eapply Rle_trans; [apply Rmin_r|]. lra. }
  pose proof (Hd i) as [Hu0 Hu1].
  assert (Ht : Rabs t <= 0.35 * length).
  { subst t. apply Rabs_le.
    assert (-0.5 <= d i - 0.5 <= 0.5) by lra.
    assert (Hl7 : 0 <= length * 0.7) by lra.
    rewrite Rmult_assoc.
    split.
    - replace (- (0.35 * length)) with (-0.5 * (length * 0.7)) by lra.
      apply Rmult_le_compat_r; lra.
    - replace (0.35 * length) with (0.5 * (length * 0.7)) by lra.
      apply Rmult_le_compat_r; lra. }
  unfold inBond. cbn [point density]. cbn zeta.
  pose proof (@frame_decompose mid D (perp1Of D) (perp2Of D) t
                (r * cos angle) (r * sin angle) HD H11 H22 H1D H2D H12)
    as Hdec.
  cbn zeta in Hdec.
  replace (Vec3.x (perp1Of D) * (r * cos angle))
    with (Vec3.x (perp1Of D) * r * cos angle) in Hdec by ring.
  replace (Vec3.y (perp1Of D) * (r * cos angle))
    with (Vec3.y (perp1Of D) * r * cos angle) in Hdec by ring.
  replace (Vec3.z (perp1Of D) * (r * cos angle))
    with (Vec3.z (perp1Of D) * r * cos angle) in Hdec by ring.
  replace (Vec3.x (perp2Of D) * (r * sin angle))
    with (Vec3.x (perp2Of D) * r * sin angle) in Hdec by ring.
  replace (Vec3.y (perp2Of D) * (r * sin angle))
    with (Vec3.y (perp2Of D) * r * sin angle) in Hdec by ring.
  replace (Vec3.z (perp2Of D) * (r * sin angle))
    with (Vec3.z (perp2Of D) * r * sin angle) in Hdec by ring.
  destruct Hdec as [HvD Hperp].
  split; [rewrite HvD; exact Ht|]. split.
  - rewrite length_of_dot, Hperp.
    pose proof (sin2_cos2 angle) as Hsc. unfold Rsqr in Hsc.
    replace (r * cos angle * (r * cos angle)
             + r * sin angle * (r * sin angle))
      with (r * r * (sin angle * sin angle + cos angle * cos angle))
      by ring.
    rewrite Hsc, Rmult_1_r, sqrt_square by exact (proj1 Hr).
    exact (proj2 Hr).
  - apply powFrac_range; [|lra]. split; [apply Rmax_l|].
    apply Rmax_lub; [lra|].
    assert (0 <= Rabs t / (length * 0.35)).
    { apply Rmult_le_pos; [apply Rabs_pos|].
      left. apply Rinv_0_lt_compat. lra. }
    lra.
Qed.

Lemma particleLoop_spec mid D length order d :
  Vec3.dot D D = 1 -> 0 < length -> (0 <= order)%Z -> Rand.valid d ->
  forall iterations particles i,
    Forall (inBond mid D length order) particles ->
    let res := particleLoop iterations mid D (perp1Of D) (perp2Of D)
                            length order particles d i in
    Forall (inBond mid D length order) (fst res) /\
    List.length (fst res) = (List.length particles + iterations)%nat /\
    snd res = (i + 3 * iterations)%nat.
Proof.
  intros HD Hlen Hord Hd.
  induction iterations as [|k IH]; intros particles i Hall; cbn zeta.
  - cbn [particleLoop Rand.ret fst snd]. split; [exact Hall|]. split; lia.
  - cbn [particleLoop]. unfold Rand.bind.
    destruct (@particle_inBond mid D length order d i HD Hlen Hord Hd)
      as [Hp Hj].
    destruct (particle mid D (perp1Of D) (perp2Of D) length order d i)
      as [p j]. cbn [fst snd] in Hp, Hj. subst j.
    destruct (IH (particles ++ [p]) (i + 3)%nat) as [H1 [H2 H3]].
    { apply Forall_app. split; [exact Hall|]. constructor; [exact Hp|].
      constructor. }
    split; [exact H1|]. split.
    + rewrite H2, length_app. simpl. lia.
    + rewrite H3. lia.
Qed.

(** X30. [buildBondCloud] returns null exactly when the two atoms are
    less than 0.001 apart. Otherwise, for a bond order >= 0, a particle
    count >= 0 and draws in [0,1), it builds exactly that many particles,
    reading three draws for each; every particle lies in the middle 70
    per cent of the bond (its component along the bond, measured from the
    midpoint, is at most 0.35 of the bond length in absolute value) and
    within three spread radii of the bond axis, and its heat-map argument
    is in [0,1]. *)
Theorem buildBondCloud_within_bond
    (cloudDensity : R) (posA posB : Vec3.t) (order : Z)
    (d : nat -> R) (i : nat) :
  (0 <= order)%Z ->
  (0 <= OrbitalCloud.round (IZR order * 2000 * cloudDensity))%Z ->
  Rand.valid d ->
  let length := Vec3.length (Vec3.sub posB posA) in
  let mid := Vec3.multiplyScalar (Vec3.add posA posB) 0.5 in
  let dirNorm := Vec3.normalize (Vec3.sub posB posA) in
  let count := OrbitalCloud.round (IZR order * 2000 * cloudDensity) in
  (length < 0.001 ->
   buildBondCloud cloudDensity posA posB order d i = (Null, i)) /\
  (0.001 <= length ->
   exists ps,
     buildBondCloud cloudDensity posA posB order d i
     = (Built ps, (i + 3 * Z.to_nat count)%nat) /\
     List.length ps = Z.to_nat count /\
     Forall (inBond mid dirNorm length order) ps).
Proof.
  intros Hord Hcount Hd length mid dirNorm count.
  unfold buildBondCloud. cbn zeta. fold length. fold count.
  split; intros Hlen.
  - destruct (Rlt_dec length 0.001); [reflexivity|lra].
  - destruct (Rlt_dec length 0.001) as [Hlt|_]; [lra|].
    destruct (Z.ltb_spec count 0) as [Hneg|_]; [subst count; lia|].
    fold mid. fold dirNorm.
    assert (HD : Vec3.dot dirNorm dirNorm = 1).
    { apply normalize_unit. fold length. lra. }
    destruct (@particleLoop_spec mid dirNorm length order d HD
                ltac:(lra) Hord Hd (Z.to_nat count) [] i (Forall_nil _))
      as [Hall [Hl Hj]].
    unfold Rand.bind.
    destruct (particleLoop (Z.to_nat count) mid dirNorm (perp1Of dirNorm)
                (perp2Of dirNorm) length order [] d i) as [ps j].
    cbn [fst snd] in *. exists ps. unfold Rand.ret.
    split; [now rewrite Hj|]. split; [exact Hl|exact Hall].
Qed.

(** The bond of the H2 preset. *)
Lemma buildBondCloud_within_bond_witness :
  exists ps,
    buildBondCloud 1 (Vec3.mk (-1.5) 0 0) (Vec3.mk 1.5 0 0) 1
                   (fun _ => 0) 0%nat
    = (Built ps,
       (0 + 3 * Z.to_nat (OrbitalCloud.round (IZR 1 * 2000 * 1)))%nat)
    /\ List.length ps = Z.to_nat (OrbitalCloud.round (IZR 1 * 2000 * 1)).
Proof.
  assert (Hlen : 0.001 <= Vec3.length (Vec3.sub (Vec3.mk 1.5 0 0)
                                          (Vec3.mk (-1.5) 0 0))).
  { unfold Vec3.length, Vec3.sub. cbn [Vec3.x Vec3.y Vec3.z].
    rewrite <- (sqrt_square 0.001) by lra. apply sqrt_le_1; lra. }
  assert (Hord : (0 <= 1)%Z) by lia.
  assert (Hcount : (0 <= OrbitalCloud.round (IZR 1 * 2000 * 1))%Z)
    by (apply OrbitalCloudFacts.round_nonneg; lra).
  assert (Hd : Rand.valid (fun _ => 0)) by (intros k; lra).
  destruct (proj2 (@buildBondCloud_within_bond 1 (Vec3.mk (-1.5) 0 0)
                     (Vec3.mk 1.5 0 0) 1 (fun _ => 0) 0%nat
                     Hord Hcount Hd) Hlen)
    as [ps [E [L _]]].
  exists ps. split; [exact E|exact L].
Defined.

End BondCloudFacts.
